(** * svgedit: the editor glue (svgedit.js), the metadata/DOM helpers and
    the panning extension, embedded shallowly.

    Conventions of the embedding.
    - JavaScript values that the code only tests for truthiness or compares
      with [===] are values of [jsval].
    - Calls into the canvas, the DOM or an extension are recorded, in program
      order, in a trace (a list of effects); the functions return the trace
      together with their result, so that "calls f" and "does not call f" are
      statements about the trace.
    - Objects defined in other modules of the editor (the canvas, its undo
      manager, the layers panel, the utilities) are Section variables.
    - Numbers that the code computes with are IEEE 754 doubles (primitive
      floats, with the primitive operations and comparisons); a string is
      the byte sequence of its UTF-8 encoding. *)

From Stdlib Require Import QArith.
From Stdlib Require Import Ascii.
From Stdlib Require Import Floats.
From stdpp Require Import gmap strings list sorting pretty.

Open Scope string_scope.
Open Scope list_scope.

(** ** JavaScript values *)

Module JS.

Inductive jsval :=
| JUndefined
| JNull
| JBool (b : bool)
| JNum (z : Z)
| JStr (s : string)
| JObj.

(** [ToBoolean]: what [if (v)] and [!v] look at. *)
Definition truthy (v : jsval) : bool :=
  match v with
  | JUndefined | JNull => false
  | JBool b => b
  | JNum z => negb (z =? 0)%Z
  | JStr s => negb (String.eqb s "")
  | JObj => true
  end.

(** [v !== false]. Strict inequality with the boolean [false]: no coercion,
    so only the boolean [false] itself is equal to it. *)
Definition strict_neq_false (v : jsval) : bool :=
  match v with
  | JBool false => false
  | _ => true
  end.

Lemma strict_neq_false_spec v : strict_neq_false v = false ↔ v = JBool false.
Proof. destruct v as [| |[]| | |]; simpl; split; congruence. Qed.

End JS.

(** ** loadSvgString (svgedit.js, top level) *)

Module LoadSvg.
Import JS.

Inductive effect :=
| ESetSvgString (str : string)      (* svgCanvas.setSvgString(str) *)
| EAlert (msg : string).            (* window.alert(msg) *)

Inductive outcome :=
| Returned                          (* normal completion, value undefined *)
| Threw (msg : string).             (* throw new Error(msg) *)

(** The second parameter, [{noAlert} = {}]: an options object, or absent
    ([None]), in which case the default [{}] makes [noAlert] undefined. The
    parameter is documented as a PlainObject; [null] is not one. *)
Record opts := { noAlert : jsval }.

Section WithCanvas.
(** What [svgCanvas.setSvgString] answers for a given string. *)
Variable setSvgString : string → jsval.
(** [uiStrings.notification.errorLoadingSVG]. *)
Variable errorLoadingSVG : string.

Definition loadSvgString (str : string) (o : option opts)
  : list effect * outcome :=
  let noAlert := match o with Some o => noAlert o | None => JUndefined end in
  let success := strict_neq_false (setSvgString str) in
  if success then ([ESetSvgString str], Returned)
  else
    ([ESetSvgString str]
       ++ (if negb (truthy noAlert) then [EAlert errorLoadingSVG] else []),
     Threw "Error loading SVG").

(** The call ended in a [throw]. *)
Definition throws (r : list effect * outcome) : Prop :=
  ∃ msg, r.2 = Threw msg.

(** [opts.noAlert] is set: an options object was passed and its [noAlert]
    is truthy. *)
Definition noAlert_set (o : option opts) : bool :=
  match o with Some o => truthy (noAlert o) | None => false end.

(** C10. [loadSvgString str opts] throws exactly when the canvas answers
    [false] to [setSvgString str]. In that case the only things it did were
    the [setSvgString] call and then, unless [opts.noAlert] is set, the
    error-loading alert, and the thrown error is "Error loading SVG". When
    the canvas answers anything else, the call returns normally and the
    [setSvgString] call is its only effect (no alert, no throw). *)
Theorem C10_loadSvgString_throws_iff_rejected (str : string) (o : option opts) :
  (throws (loadSvgString str o) ↔ setSvgString str = JBool false)
  ∧ (setSvgString str = JBool false →
       loadSvgString str o =
         (if noAlert_set o
          then [ESetSvgString str]
          else [ESetSvgString str; EAlert errorLoadingSVG],
          Threw "Error loading SVG"))
  ∧ (setSvgString str ≠ JBool false →
       loadSvgString str o = ([ESetSvgString str], Returned)).
Proof.
  unfold loadSvgString, throws.
  destruct (strict_neq_false (setSvgString str)) eqn:E.
  - assert (Hne : setSvgString str ≠ JBool false).
    { intros H. apply strict_neq_false_spec in H. congruence. }
    split; [|split]; [|done|done].
    simpl. split; [intros [m Hm]; discriminate | done].
  - apply strict_neq_false_spec in E.
    split; [|split]; [|intros _|done].
    + simpl. split; [done | eauto].
    + destruct o as [[v]|]; simpl; [destruct (truthy v)|]; reflexivity.
Qed.

End WithCanvas.

(** A canvas that rejects exactly the empty string. *)
Definition rejecting_empty (s : string) : jsval :=
  if String.eqb s "" then JBool false else JUndefined.

Lemma loadSvgString_rejected_example :
  loadSvgString rejecting_empty "could not load" "" None
  = ([ESetSvgString ""; EAlert "could not load"], Threw "Error loading SVG")
  ∧ loadSvgString rejecting_empty "could not load" ""
      (Some {| noAlert := JBool true |})
    = ([ESetSvgString ""], Threw "Error loading SVG")
  ∧ loadSvgString rejecting_empty "could not load" "<svg/>" None
    = ([ESetSvgString "<svg/>"], Returned).
Proof. repeat split. Qed.

End LoadSvg.

(** ** The panning extension (ext-panning.js) *)

Module Panning.

(** What the handlers read and write: the canvas mode
    ([svgCanvas.getMode()]), and the two flags that [editor.setPanning]
    assigns ([svgCanvas.spaceKey = keypan = active]). *)
Record state := {
  mode : string;
  spaceKey : bool;
  keypan : bool
}.

Inductive call :=
| CSetPanning (active : bool).       (* svgEditor.setPanning(active) *)

(** The handler results: [undefined], [{started: b}] or
    [{keep: b, element: null}]. *)
Inductive handler_result :=
| RUndefined
| RStarted (started : bool)
| RKeepNullElement (keep : bool).

Definition setPanning (active : bool) (st : state) : state :=
  {| mode := mode st; spaceKey := active; keypan := active |}.

Definition mouseDown (st : state) : state * list call * handler_result :=
  if String.eqb (mode st) "ext-panning"
  then (setPanning true st, [CSetPanning true], RStarted true)
  else (st, [], RUndefined).

Definition mouseUp (st : state) : state * list call * handler_result :=
  if String.eqb (mode st) "ext-panning"
  then (setPanning false st, [CSetPanning false], RKeepNullElement false)
  else (st, [], RUndefined).

(** C5. In every state, [mouseDown] calls [setPanning(true)] and returns
    [{started: true}] if and only if the mode is ['ext-panning'], and
    [mouseUp] calls [setPanning(false)] and returns
    [{keep: false, element: null}] if and only if the mode is
    ['ext-panning']; in every other mode both return [undefined], call
    nothing and leave the state (so the panning flags) as it was. *)
Theorem C5_panning_handlers_mode_conditional (st : state) :
  (mouseDown st = (setPanning true st, [CSetPanning true], RStarted true)
     ↔ mode st = "ext-panning")
  ∧ (mouseUp st
       = (setPanning false st, [CSetPanning false], RKeepNullElement false)
     ↔ mode st = "ext-panning")
  ∧ (mouseDown st = (st, [], RUndefined) ↔ mode st ≠ "ext-panning")
  ∧ (mouseUp st = (st, [], RUndefined) ↔ mode st ≠ "ext-panning").
Proof.
  unfold mouseDown, mouseUp.
  destruct (String.eqb_spec (mode st) "ext-panning") as [E|E];
    repeat split; intros; try done.
Qed.

Lemma panning_example :
  mouseDown {| mode := "ext-panning"; spaceKey := false; keypan := false |}
  = ({| mode := "ext-panning"; spaceKey := true; keypan := true |},
     [CSetPanning true], RStarted true)
  ∧ mouseUp {| mode := "select"; spaceKey := true; keypan := true |}
    = ({| mode := "select"; spaceKey := true; keypan := true |},
       [], RUndefined).
Proof. split; reflexivity. Qed.

End Panning.

(** ** Keyboard shortcuts: the [toolButtons] table and [Actions.setAll] *)

Module Shortcuts.

(** The functions that the table binds, by name and arguments. *)
Inductive action :=
| ARotateSelected (cw step : Z)
| ASelectPrev
| ASelectNext
| AZoomImage (multiplier : Q)
| AMoveUpDownSelected (dir : string)
| AMoveSelected (dx dy : Z)
| ACloneSelectedElements (dx dy : Z)
| ASelectAllInCurrentLayer
| AClickUndo
| AClickRedo
| ACutSelected
| ACopySelected
| APasteInCenter.

(** [opts.key] is a string, or an array whose first element is the key
    string and whose second element, when there is one, is the
    prevent-default flag. *)
Inductive keyspec :=
| KStr (s : string)
| KArr (keyval : string) (rest : list bool).

Record tool_button := {
  key : option keyspec;
  fn : action
}.

(** [const modKey = (isMac() ? 'meta+' : 'ctrl+')] *)
Definition modKey (isMac : bool) : string :=
  if isMac then "meta+" else "ctrl+".

Definition toolButtons (isMac : bool) : list tool_button :=
  let modKey := modKey isMac in
  [ {| key := Some (KStr "ctrl+left"); fn := ARotateSelected 0 1 |};
    {| key := Some (KStr "ctrl+right"); fn := ARotateSelected 1 1 |};
    {| key := Some (KStr "ctrl+shift+left"); fn := ARotateSelected 0 5 |};
    {| key := Some (KStr "ctrl+shift+right"); fn := ARotateSelected 1 5 |};
    {| key := Some (KStr "shift+O"); fn := ASelectPrev |};
    {| key := Some (KStr "shift+P"); fn := ASelectNext |};
    {| key := Some (KArr (modKey ++ "up") [true]); fn := AZoomImage 2 |};
    {| key := Some (KArr (modKey ++ "down") [true]); fn := AZoomImage (1#2) |};
    {| key := Some (KArr (modKey ++ "]") [true]);
       fn := AMoveUpDownSelected "Up" |};
    {| key := Some (KArr (modKey ++ "[") [true]);
       fn := AMoveUpDownSelected "Down" |};
    {| key := Some (KArr "up" [true]); fn := AMoveSelected 0 (-1) |};
    {| key := Some (KArr "down" [true]); fn := AMoveSelected 0 1 |};
    {| key := Some (KArr "left" [true]); fn := AMoveSelected (-1) 0 |};
    {| key := Some (KArr "right" [true]); fn := AMoveSelected 1 0 |};
    {| key := Some (KStr "shift+up"); fn := AMoveSelected 0 (-10) |};
    {| key := Some (KStr "shift+down"); fn := AMoveSelected 0 10 |};
    {| key := Some (KStr "shift+left"); fn := AMoveSelected (-10) 0 |};
    {| key := Some (KStr "shift+right"); fn := AMoveSelected 10 0 |};
    {| key := Some (KArr "alt+up" [true]);
       fn := ACloneSelectedElements 0 (-1) |};
    {| key := Some (KArr "alt+down" [true]);
       fn := ACloneSelectedElements 0 1 |};
    {| key := Some (KArr "alt+left" [true]);
       fn := ACloneSelectedElements (-1) 0 |};
    {| key := Some (KArr "alt+right" [true]);
       fn := ACloneSelectedElements 1 0 |};
    {| key := Some (KArr "alt+shift+up" [true]);
       fn := ACloneSelectedElements 0 (-10) |};
    {| key := Some (KArr "alt+shift+down" [true]);
       fn := ACloneSelectedElements 0 10 |};
    {| key := Some (KArr "alt+shift+left" [true]);
       fn := ACloneSelectedElements (-10) 0 |};
    {| key := Some (KArr "alt+shift+right" [true]);
       fn := ACloneSelectedElements 10 0 |};
    {| key := Some (KStr "a"); fn := ASelectAllInCurrentLayer |};
    {| key := Some (KStr (modKey ++ "a")); fn := ASelectAllInCurrentLayer |};
    {| key := Some (KStr (modKey ++ "z")); fn := AClickUndo |};
    {| key := Some (KStr (modKey ++ "shift+z")); fn := AClickRedo |};
    {| key := Some (KStr (modKey ++ "y")); fn := AClickRedo |};
    {| key := Some (KStr (modKey ++ "x")); fn := ACutSelected |};
    {| key := Some (KStr (modKey ++ "c")); fn := ACopySelected |};
    {| key := Some (KStr (modKey ++ "v")); fn := APasteInCenter |} ].

(** [s.split(sep)] for a one-character separator: the pieces between the
    separators, in order; a string without separator is its only piece. *)
Fixpoint split_on (sep : Ascii.ascii) (s : string) : list string :=
  match s with
  | EmptyString => [""]
  | String c s' =>
      if Ascii.eqb c sep then "" :: split_on sep s'
      else match split_on sep s' with
           | h :: t => String c h :: t
           | [] => [String c ""]
           end
  end.

(** An entry of [keyHandler]: [{fn, pd}]. *)
Record handler := { h_fn : action; h_pd : bool }.

(** [if (opts.key)]: a missing key and the empty string are falsy, an array
    is an object. *)
Definition key_truthy (k : option keyspec) : bool :=
  match k with
  | None => false
  | Some (KStr s) => negb (String.eqb s "")
  | Some (KArr _ _) => true
  end.

(** [keyval] after [keyval = String(keyval)]. *)
Definition keyval_of (k : keyspec) : string :=
  match k with KStr s => s | KArr s _ => s end.

(** [pd]: [false], or [opts.key[1]] for an array longer than one. *)
Definition pd_of (k : keyspec) : bool :=
  match k with
  | KStr _ => false
  | KArr _ [] => false
  | KArr _ (b :: _) => b
  end.

(** The alternatives of a key specification: [keyval.split('/')]. *)
Definition alternatives (k : keyspec) : list string :=
  split_on "/"%char (keyval_of k).

(** One round of [toolButtons.forEach] in [setAll]. *)
Definition register (keyHandler : gmap string handler) (opts : tool_button)
  : gmap string handler :=
  if key_truthy (key opts) then
    match key opts with
    | Some k =>
        foldl (fun kh key => <[key := {| h_fn := fn opts; h_pd := pd_of k |}]> kh)
              keyHandler (alternatives k)
    | None => keyHandler
    end
  else keyHandler.

(** [keyHandler] as [setAll] leaves it for the keydown listener. *)
Definition setAll_keyHandler (buttons : list tool_button)
  : gmap string handler :=
  foldl register ∅ buttons.

(** The part of a keydown event that the listener reads, and the two
    modifier flags that it does not read. *)
Record key_event := {
  target_nodeName : string;
  metaKey : bool;
  ctrlKey : bool;
  shiftKey : bool;
  altKey : bool;
  e_key : string
}.

Inductive effect :=
| ERun (f : action)                  (* keyHandler[key].fn() *)
| EPreventDefault.                   (* e.preventDefault() *)

Section Listener.
(** [String.prototype.toLowerCase]. *)
Variable toLowerCase : string → string.

(** The normalized key:
    [`${e.metaKey ? 'meta+' : ''}${e.ctrlKey ? 'ctrl+' : ''}${e.key.toLowerCase()}`] *)
Definition lookup_key (e : key_event) : string :=
  (if metaKey e then "meta+" else "")
    ++ (if ctrlKey e then "ctrl+" else "")
    ++ toLowerCase (e_key e).

(** The keydown listener. [keyHandler] is a plain object used as a map from
    normalized keys to entries. *)
Definition keydown (keyHandler : gmap string handler) (e : key_event)
  : list effect :=
  if negb (String.eqb (target_nodeName e) "BODY") then []
  else
    match keyHandler !! lookup_key e with
    | None => []
    | Some h => ERun (h_fn h) :: (if h_pd h then [EPreventDefault] else [])
    end.

End Listener.

(** *** Facts about [split_on] and registration *)

(** Joining the pieces with the separator gives the string back. *)
Fixpoint join_with (sep : Ascii.ascii) (l : list string) : string :=
  match l with
  | [] => ""
  | [p] => p
  | p :: rest => p +:+ String sep (join_with sep rest)
  end.

Fixpoint occurs (c : Ascii.ascii) (s : string) : bool :=
  match s with
  | EmptyString => false
  | String c' s' => Ascii.eqb c' c || occurs c s'
  end.

Lemma split_on_nonempty sep s : split_on sep s ≠ [].
Proof.
  destruct s as [|c s]; simpl; [done|].
  destruct (Ascii.eqb c sep); [done|].
  destruct (split_on sep s); done.
Qed.

Lemma split_on_join sep s : join_with sep (split_on sep s) = s.
Proof.
  induction s as [|c s IH]; simpl; [done|].
  destruct (Ascii.eqb_spec c sep) as [->|Hne].
  - pose proof (split_on_nonempty sep s) as Hn.
    destruct (split_on sep s) as [|h t]; [done|].
    simpl in *. by rewrite IH.
  - pose proof (split_on_nonempty sep s) as Hn.
    destruct (split_on sep s) as [|h t]; [done|].
    destruct t as [|h' t]; simpl in *; by rewrite <- IH.
Qed.

Lemma split_on_pieces sep s p : p ∈ split_on sep s → occurs sep p = false.
Proof.
  revert p. induction s as [|c s IH]; simpl; intros p Hp.
  - apply list_elem_of_singleton in Hp. by subst.
  - destruct (Ascii.eqb_spec c sep) as [->|Hne].
    + apply elem_of_cons in Hp as [->|Hp]; [done|by apply IH].
    + pose proof (split_on_nonempty sep s) as Hn.
      destruct (split_on sep s) as [|h t]; [done|].
      apply elem_of_cons in Hp as [->|Hp].
      * simpl. rewrite (IH h); [|by left].
        destruct (Ascii.eqb_spec c sep); done.
      * apply IH. by right.
Qed.

Lemma split_on_no_sep sep s : occurs sep s = false → split_on sep s = [s].
Proof.
  induction s as [|c s IH]; simpl; [done|].
  destruct (Ascii.eqb c sep); simpl; [done|].
  intros H. by rewrite IH.
Qed.

Lemma foldl_insert_lookup (h : handler) (l : list string)
    (kh : gmap string handler) (k : string) :
  foldl (fun kh key => <[key := h]> kh) kh l !! k
  = if decide (k ∈ l) then Some h else kh !! k.
Proof.
  revert kh. induction l as [|a l IH]; intros kh; cbn [foldl].
  - rewrite decide_False; [done|apply not_elem_of_nil].
  - rewrite IH. destruct (decide (k ∈ l)) as [Hin|Hnin].
    + rewrite decide_True; [done|by right].
    + destruct (decide (k = a)) as [->|Hne].
      * rewrite lookup_insert_eq. rewrite decide_True; [done|by left].
      * rewrite lookup_insert_ne by done.
        rewrite decide_False; [done|].
        intros [?|?]%elem_of_cons; done.
Qed.

(** The entry that a button registers, and the keys it registers it for. *)
Definition handler_of (opts : tool_button) : option handler :=
  match key opts with
  | Some k => Some {| h_fn := fn opts; h_pd := pd_of k |}
  | None => None
  end.

Definition registered_keys (opts : tool_button) : list string :=
  if key_truthy (key opts) then
    match key opts with
    | Some k => alternatives k
    | None => []
    end
  else [].

Lemma register_lookup kh opts k :
  register kh opts !! k
  = if decide (k ∈ registered_keys opts) then handler_of opts else kh !! k.
Proof.
  unfold register, registered_keys, handler_of.
  destruct (key_truthy (key opts)) eqn:Ht; cbv iota.
  - destruct (key opts) as [ks|]; [|done].
    apply foldl_insert_lookup.
  - rewrite decide_False; [done|apply not_elem_of_nil].
Qed.

(** [forEach] runs in table order, so a later button overrides an earlier
    one that registers the same key. *)
Lemma setAll_keyHandler_snoc buttons opts k :
  setAll_keyHandler (buttons ++ [opts]) !! k
  = if decide (k ∈ registered_keys opts) then handler_of opts
    else setAll_keyHandler buttons !! k.
Proof.
  unfold setAll_keyHandler. rewrite foldl_app. simpl. apply register_lookup.
Qed.

Lemma setAll_keyHandler_is_Some buttons k h :
  setAll_keyHandler buttons !! k = Some h →
  ∃ opts, opts ∈ buttons ∧ k ∈ registered_keys opts
          ∧ handler_of opts = Some h.
Proof.
  induction buttons as [|opts buttons IH] using rev_ind.
  - done.
  - rewrite setAll_keyHandler_snoc.
    destruct (decide (k ∈ registered_keys opts)) as [Hin|Hnin].
    + intros Hh. exists opts. split; [|done].
      apply elem_of_app. right. by left.
    + intros Hh. destruct (IH Hh) as (o & Ho & ?).
      exists o. split; [|done]. apply elem_of_app. by left.
Qed.

(** In [toolButtons] no key is registered twice and no key needs the
    empty-string guard: every button's keys map to that button's entry. *)
Lemma toolButtons_all_registered isMac opts k :
  opts ∈ toolButtons isMac → k ∈ registered_keys opts →
  setAll_keyHandler (toolButtons isMac) !! k = handler_of opts.
Proof.
  intros Ho Hk.
  destruct isMac; unfold toolButtons in Ho;
    repeat (apply elem_of_cons in Ho as [->|Ho];
            [ vm_compute in Hk;
              repeat (apply elem_of_cons in Hk as [->|Hk]; [by vm_compute|]);
              by apply not_elem_of_nil in Hk |]);
    by apply not_elem_of_nil in Ho.
Qed.

Section ListenerFacts.
Variable toLowerCase : string → string.

Lemma keydown_not_body kh e :
  target_nodeName e ≠ "BODY" → keydown toLowerCase kh e = [].
Proof.
  intros H. unfold keydown.
  destruct (String.eqb_spec (target_nodeName e) "BODY"); done.
Qed.

Lemma keydown_body kh e :
  target_nodeName e = "BODY" →
  keydown toLowerCase kh e
  = match kh !! lookup_key toLowerCase e with
    | None => []
    | Some h => ERun (h_fn h) :: (if h_pd h then [EPreventDefault] else [])
    end.
Proof.
  intros H. unfold keydown.
  destruct (String.eqb_spec (target_nodeName e) "BODY"); done.
Qed.

(** C3. The keydown listener of [setAll], for any [keyHandler] table and
    any event: (1) an action runs only if the target's nodeName is BODY;
    (2) the lookup key is ['meta+'] (if metaKey), then ['ctrl+'] (if
    ctrlKey), then the lower-cased [e.key]; (3) on BODY, when the table has
    an entry for the lookup key, the listener calls exactly that entry's
    function, and then calls preventDefault exactly when the entry's flag is
    set; (4) when the table has no entry, nothing is run and preventDefault
    is not called. Registration (5) enters, for every alternative of the
    [/]-split key specification of a button, the same entry (that button's
    function and flag) and touches no other key; (6) in the table built
    from [toolButtons], every alternative of every button's key maps to
    that button's function and flag. The alternatives (7) are the pieces of
    the key string between the [/] characters: no alternative contains a
    [/], and joined with [/] they give the key string back; so (8) a
    button with the key ['delete/backspace'] is entered under ['delete']
    and under ['backspace'] with the same function, and not under
    ['delete/backspace']. *)
Theorem C3_keydown_dispatch_and_registration
    (kh : gmap string handler) (e : key_event) :
  (∀ f, ERun f ∈ keydown toLowerCase kh e → target_nodeName e = "BODY")
  ∧ lookup_key toLowerCase e
    = (if metaKey e then "meta+" else "")
        +:+ (if ctrlKey e then "ctrl+" else "")
        +:+ toLowerCase (e_key e)
  ∧ (∀ h, target_nodeName e = "BODY" →
          kh !! lookup_key toLowerCase e = Some h →
          keydown toLowerCase kh e
          = ERun (h_fn h) :: (if h_pd h then [EPreventDefault] else [])
          ∧ (EPreventDefault ∈ keydown toLowerCase kh e ↔ h_pd h = true))
  ∧ (kh !! lookup_key toLowerCase e = None → keydown toLowerCase kh e = [])
  ∧ (∀ opts ks k,
       key opts = Some ks → key_truthy (key opts) = true →
       alternatives ks = split_on "/" (keyval_of ks)
       ∧ (k ∈ alternatives ks →
          register kh opts !! k
          = Some {| h_fn := fn opts; h_pd := pd_of ks |})
       ∧ (k ∉ alternatives ks → register kh opts !! k = kh !! k))
  ∧ (∀ isMac opts ks k,
       opts ∈ toolButtons isMac → key opts = Some ks → k ∈ alternatives ks →
       setAll_keyHandler (toolButtons isMac) !! k
       = Some {| h_fn := fn opts; h_pd := pd_of ks |})
  ∧ (∀ ks,
       join_with "/" (alternatives ks) = keyval_of ks
       ∧ ∀ k, k ∈ alternatives ks → occurs "/" k = false)
  ∧ (∀ f,
       let opts := {| key := Some (KStr "delete/backspace"); fn := f |} in
       register kh opts !! "delete" = Some {| h_fn := f; h_pd := false |}
       ∧ register kh opts !! "backspace"
         = Some {| h_fn := f; h_pd := false |}
       ∧ register kh opts !! "delete/backspace"
         = kh !! "delete/backspace").
Proof.
  split; [|split; [|split; [|split; [|split; [|split; [|split]]]]]].
  - intros f Hf.
    destruct (decide (target_nodeName e = "BODY")) as [|Hne]; [done|].
    rewrite keydown_not_body in Hf by done. by apply not_elem_of_nil in Hf.
  - reflexivity.
  - intros h Hb Hh. rewrite keydown_body by done. rewrite Hh. split; [done|].
    destruct (h_pd h); split; intros H; try done.
    + apply elem_of_cons. right. by left.
    + apply elem_of_cons in H as [H|H]; [done|by apply not_elem_of_nil in H].
  - intros Hn. unfold keydown. rewrite Hn.
    by destruct (negb _).
  - intros opts ks k Hk Ht. split; [done|].
    rewrite register_lookup. unfold registered_keys, handler_of.
    rewrite Ht, Hk. split; intros H.
    + by rewrite decide_True.
    + by rewrite decide_False.
  - intros isMac opts ks k Ho Hks Hk.
    assert (Ht : key_truthy (key opts) = true).
    { destruct isMac; unfold toolButtons in Ho;
        repeat (apply elem_of_cons in Ho as [->|Ho]; [done|]);
        by apply not_elem_of_nil in Ho. }
    rewrite (toolButtons_all_registered isMac opts k Ho).
    + unfold handler_of. by rewrite Hks.
    + unfold registered_keys. by rewrite Ht, Hks.
  - intros ks. split; [apply split_on_join|].
    intros k Hk. by apply (split_on_pieces "/" (keyval_of ks)).
  - intros f. cbn zeta. rewrite !register_lookup.
    repeat split; by vm_compute.
Qed.

(** The listener never reads [shiftKey] or [altKey]. *)
Lemma keydown_ignores_shift_alt kh e sh al :
  keydown toLowerCase kh
    {| target_nodeName := target_nodeName e; metaKey := metaKey e;
       ctrlKey := ctrlKey e; shiftKey := sh; altKey := al;
       e_key := e_key e |}
  = keydown toLowerCase kh e.
Proof. reflexivity. Qed.

End ListenerFacts.

(** Lower-casing of the ASCII letters, the instance of [toLowerCase] used to
    run the listener on examples. *)
Definition ascii_lower (c : Ascii.ascii) : Ascii.ascii :=
  let n := Ascii.nat_of_ascii c in
  if (65 <=? n)%nat && (n <=? 90)%nat then Ascii.ascii_of_nat (n + 32) else c.

Fixpoint lower (s : string) : string :=
  match s with
  | EmptyString => EmptyString
  | String c s' => String (ascii_lower c) (lower s')
  end.

End Shortcuts.

(** ** Undo and redo ([clickUndo], [clickRedo]) *)

Module History.
Import Shortcuts.

Inductive call :=
| CUndo                              (* undoMgr.undo() *)
| CRedo                              (* undoMgr.redo() *)
| CPopulateLayers.                   (* layersPanel.populateLayers() *)

Section WithUndoManager.
(** The editor state (document, history, panels) and the operations of
    [svgCanvas.undoMgr] and of the layers panel on it. *)
Variable editor_state : Type.
Variable getUndoStackSize getRedoStackSize : editor_state → nat.
Variable undo redo populateLayers : editor_state → editor_state.

Definition clickUndo (st : editor_state) : editor_state * list call :=
  if (0 <? getUndoStackSize st)%nat
  then (populateLayers (undo st), [CUndo; CPopulateLayers])
  else (st, []).

Definition clickRedo (st : editor_state) : editor_state * list call :=
  if (0 <? getRedoStackSize st)%nat
  then (populateLayers (redo st), [CRedo; CPopulateLayers])
  else (st, []).

Lemma lookup_key_shift_z toLowerCase (isMac : bool) (e : key_event) :
  lookup_key toLowerCase e = modKey isMac +:+ "shift+z" →
  occurs "+" (toLowerCase (e_key e)) = true.
Proof.
  unfold lookup_key. generalize (toLowerCase (e_key e)). intros x.
  destruct isMac, (metaKey e), (ctrlKey e); vm_compute;
    intros H; simplify_eq; reflexivity.
Qed.

(** C1. The guards are as stated: in every editor state, [clickUndo] calls
    [undoMgr.undo()] (and then repopulates the layers panel) if and only if
    the undo stack size is positive, and [clickRedo] calls
    [undoMgr.redo()] if and only if the redo stack size is positive; with
    an empty stack the call does nothing and the state is unchanged. The
    key table that [setAll] builds from [toolButtons] has [clickUndo] under
    [modKey+z] and [clickRedo] under [modKey+shift+z] and [modKey+y]. But
    the keydown listener does not read [shiftKey] and puts no ['shift+']
    into the key that it looks up: a key event on the page body with the
    modifier key and shift held and the key [Z] is looked up as [modKey+z]
    and runs [clickUndo], not [clickRedo]; the entry [modKey+shift+z] is
    found only for an event whose key name itself contains a [+]. Of the
    two redo shortcuts only [modKey+y] runs [clickRedo]. *)
Theorem C1_mod_shift_z_runs_undo_not_redo
    (st : editor_state) (isMac : bool) (toLowerCase : string → string)
    (e : key_event) :
  (CUndo ∈ (clickUndo st).2 ↔ (getUndoStackSize st > 0)%nat)
  ∧ (CRedo ∈ (clickRedo st).2 ↔ (getRedoStackSize st > 0)%nat)
  ∧ ((getUndoStackSize st > 0)%nat →
       clickUndo st = (populateLayers (undo st), [CUndo; CPopulateLayers]))
  ∧ ((getRedoStackSize st > 0)%nat →
       clickRedo st = (populateLayers (redo st), [CRedo; CPopulateLayers]))
  ∧ (getUndoStackSize st = 0%nat → clickUndo st = (st, []))
  ∧ (getRedoStackSize st = 0%nat → clickRedo st = (st, []))
  ∧ setAll_keyHandler (toolButtons isMac) !! (modKey isMac +:+ "z")
    = Some {| h_fn := AClickUndo; h_pd := false |}
  ∧ setAll_keyHandler (toolButtons isMac) !! (modKey isMac +:+ "shift+z")
    = Some {| h_fn := AClickRedo; h_pd := false |}
  ∧ setAll_keyHandler (toolButtons isMac) !! (modKey isMac +:+ "y")
    = Some {| h_fn := AClickRedo; h_pd := false |}
  ∧ (target_nodeName e = "BODY" → metaKey e = isMac →
     ctrlKey e = negb isMac → shiftKey e = true →
     toLowerCase (e_key e) = "z" →
     lookup_key toLowerCase e = modKey isMac +:+ "z"
     ∧ keydown toLowerCase (setAll_keyHandler (toolButtons isMac)) e
       = [ERun AClickUndo])
  ∧ keydown lower (setAll_keyHandler (toolButtons false))
      {| target_nodeName := "BODY"; metaKey := false; ctrlKey := true;
         shiftKey := true; altKey := false; e_key := "Z" |}
    = [ERun AClickUndo]
  ∧ keydown lower (setAll_keyHandler (toolButtons true))
      {| target_nodeName := "BODY"; metaKey := true; ctrlKey := false;
         shiftKey := true; altKey := false; e_key := "Z" |}
    = [ERun AClickUndo]
  ∧ (lookup_key toLowerCase e = modKey isMac +:+ "shift+z" →
     occurs "+" (toLowerCase (e_key e)) = true)
  ∧ (target_nodeName e = "BODY" → metaKey e = isMac →
     ctrlKey e = negb isMac → toLowerCase (e_key e) = "y" →
     keydown toLowerCase (setAll_keyHandler (toolButtons isMac)) e
     = [ERun AClickRedo]).
Proof.
  unfold clickUndo, clickRedo.
  split; [|split; [|split; [|split; [|split; [|split; [|split; [|split;
    [|split; [|split; [|split; [|split; [|split]]]]]]]]]]]].
  - split.
    + destruct (Nat.ltb_spec 0 (getUndoStackSize st)); simpl; [lia|].
      intros H0. by apply not_elem_of_nil in H0.
    + intros H. destruct (Nat.ltb_spec 0 (getUndoStackSize st)); [|lia].
      by left.
  - split.
    + destruct (Nat.ltb_spec 0 (getRedoStackSize st)); simpl; [lia|].
      intros H0. by apply not_elem_of_nil in H0.
    + intros H. destruct (Nat.ltb_spec 0 (getRedoStackSize st)); [|lia].
      by left.
  - intros H. destruct (Nat.ltb_spec 0 (getUndoStackSize st)); [done|lia].
  - intros H. destruct (Nat.ltb_spec 0 (getRedoStackSize st)); [done|lia].
  - intros ->. reflexivity.
  - intros ->. reflexivity.
  - destruct isMac; by vm_compute.
  - destruct isMac; by vm_compute.
  - destruct isMac; by vm_compute.
  - intros Hb Hm Hc _ Hz.
    assert (lookup_key toLowerCase e = modKey isMac +:+ "z") as Hk.
    { unfold lookup_key. rewrite Hm, Hc, Hz. by destruct isMac. }
    split; [done|]. unfold keydown. rewrite Hb, Hk.
    destruct isMac; by vm_compute.
  - by vm_compute.
  - by vm_compute.
  - apply lookup_key_shift_z.
  - intros Hb Hm Hc Hy. unfold keydown, lookup_key.
    rewrite Hb, Hm, Hc, Hy. destruct isMac; by vm_compute.
Qed.

End WithUndoManager.

(** A small undo manager to run the handlers on: the state is the pair of
    the undo stack and the redo stack of a document history. *)
Definition stacks : Type := list nat * list nat.

Definition stacks_undo (s : stacks) : stacks :=
  match s.1 with
  | [] => s
  | c :: u => (u, c :: s.2)
  end.

Definition stacks_redo (s : stacks) : stacks :=
  match s.2 with
  | [] => s
  | c :: r => (c :: s.1, r)
  end.

Lemma clickUndo_example :
  clickUndo stacks (fun s => length s.1) stacks_undo id ([3; 2; 1], [])
  = (([2; 1], [3]), [CUndo; CPopulateLayers])
  ∧ clickUndo stacks (fun s => length s.1) stacks_undo id ([], [3])
    = (([], [3]), [])
  ∧ clickRedo stacks (fun s => length s.2) stacks_redo id ([], [3])
    = (([3], []), [CRedo; CPopulateLayers]).
Proof. repeat split. Qed.

(** What the keydown listener does with these shortcuts. With the modifier
    key held, [z] runs [clickUndo] and [y] runs [clickRedo]. The normalized
    key has no ["shift+"] part, so with shift held as well the event key
    ["Z"] is looked up as [modKey+z]: the [modKey+shift+z] entry is in the
    table but no keyboard event is normalized to it. *)
Lemma keydown_undo_redo_example :
  let ev k sh := {| target_nodeName := "BODY"; metaKey := false;
                    ctrlKey := true; shiftKey := sh; altKey := false;
                    e_key := k |} in
  keydown lower (setAll_keyHandler (toolButtons false)) (ev "z" false)
  = [ERun AClickUndo]
  ∧ keydown lower (setAll_keyHandler (toolButtons false)) (ev "y" false)
    = [ERun AClickRedo]
  ∧ keydown lower (setAll_keyHandler (toolButtons false)) (ev "Z" true)
    = [ERun AClickUndo].
Proof. repeat split; by vm_compute. Qed.

End History.

(** ** Rulers: the 1-2-5 intervals and the major interval of [updateRulers] *)

Module Rulers.
#[local] Set Warnings "-inexact-float".

(** The numbers of the source are IEEE 754 doubles: they are the
    primitive floats here, [*], [/], [<] and [<=] are the primitive
    operations (products and quotients are rounded as in the source), and
    a decimal literal denotes the nearest double. A missing [unit]
    ([undefined]) counts as NaN, which is what [unit * zoom] makes of it. *)

(** The loop that fills [rIntervals]:
    [for (let i = 0.1; i < 1e5; i *= 10) { push(i); push(2 * i); push(5 * i) }].
    [fuel] bounds the number of rounds. *)
Fixpoint rIntervals_loop (fuel : nat) (i : float) (acc : list float)
  : list float :=
  match fuel with
  | O => acc
  | S fuel =>
      if (i <? 1e5)%float
      then rIntervals_loop fuel (i * 10)%float
             (acc ++ [i; (2 * i)%float; (5 * i)%float])
      else acc
  end.

Definition rIntervals : list float := rIntervals_loop 64 0.1%float [].

(** The [for] loop of [updateRulers] that picks the major interval:
    [multi] takes the value of each element in turn until one is at least
    [rawM]. *)
Fixpoint select_multi (rawM : float) (intervals : list float) (multi : float)
  : float :=
  match intervals with
  | [] => multi
  | n :: rest =>
      if (rawM <=? n)%float then n else select_multi rawM rest n
  end.

(** Truthiness of a number: the zeros and NaN are falsy. *)
Definition num_truthy (n : float) : bool := negb (is_zero n || is_nan n).

(** The zoom that [updateRulers(scanvas, zoom)] works with:
    [if (!zoom) { zoom = svgCanvas.getZoom(); }]. *)
Definition zoom_used (zoom : option float) (getZoom : float) : float :=
  match zoom with
  | Some z => if num_truthy z then z else getZoom
  | None => getZoom
  end.

(** [unit] is [getTypeMap()[configObj.curConfig.baseUnit]] (1 for pixels). *)
Definition uMulti (unit zoom : float) : float := (unit * zoom)%float.

Definition rawM (unit zoom : float) : float := (50 / uMulti unit zoom)%float.

Definition multi (unit zoom : float) : float :=
  select_multi (rawM unit zoom) rIntervals 1%float.

(** [bigInt], the distance in pixels from one major tick to the next
    ([rulerD += bigInt]). *)
Definition bigInt (unit zoom : float) : float :=
  (multi unit zoom * uMulti unit zoom)%float.

(** *** The selection loop finds the first element that is large enough *)

Lemma select_multi_found rawM l d :
  (∃ x, x ∈ l ∧ (rawM <=? x)%float = true) →
  ∃ pre post,
    l = pre ++ select_multi rawM l d :: post
    ∧ (∀ y, y ∈ pre → (rawM <=? y)%float = false)
    ∧ (rawM <=? select_multi rawM l d)%float = true.
Proof.
  revert d. induction l as [|n l IH]; intros d [x [Hx Hle]].
  - by apply not_elem_of_nil in Hx.
  - simpl. destruct (rawM <=? n)%float eqn:En.
    + exists [], l. repeat split; [|done].
      intros y Hy. by apply not_elem_of_nil in Hy.
    + apply elem_of_cons in Hx as [->|Hx]; [congruence|].
      destruct (IH n) as (pre & post & Hl & Hpre & Hsel); [by exists x|].
      exists (n :: pre), post. repeat split; [|  |done].
      * simpl. by rewrite <- Hl.
      * intros y [->|Hy]%elem_of_cons; [done|by apply Hpre].
Qed.

Lemma last_cons_default (l : list float) a d d' :
  List.last (a :: l) d = List.last (a :: l) d'.
Proof.
  revert a. induction l as [|b l IH]; intros a; [done|].
  change (List.last (b :: l) d = List.last (b :: l) d'). apply IH.
Qed.

Lemma select_multi_none rawM l d :
  (∀ x, x ∈ l → (rawM <=? x)%float = false) →
  select_multi rawM l d = List.last l d.
Proof.
  revert d. induction l as [|n l IH]; intros d H; [done|].
  simpl select_multi. rewrite H by (by left).
  rewrite IH by (intros x Hx; apply H; by right).
  destruct l as [|q l]; [reflexivity|].
  change (List.last (q :: l) n = List.last (q :: l) d).
  apply last_cons_default.
Qed.

(** Every element is at most the elements after it. *)
Fixpoint ascending (l : list float) : bool :=
  match l with
  | [] => true
  | m :: post => forallb (λ x, (m <=? x)%float) (m :: post) && ascending post
  end.

Lemma ascending_from l pre m post x :
  ascending l = true → l = pre ++ m :: post → x ∈ m :: post →
  (m <=? x)%float = true.
Proof.
  revert l. induction pre as [|a pre IH]; intros l Hl -> Hx.
  - cbn [app ascending] in Hl. apply andb_true_iff in Hl as [Hl _].
    rewrite forallb_forall in Hl. apply Hl. by apply list_elem_of_In.
  - change ((a :: pre) ++ m :: post) with (a :: (pre ++ m :: post)) in Hl.
    cbn [ascending] in Hl. apply andb_true_iff in Hl as [_ Hl].
    by apply (IH (pre ++ m :: post)).
Qed.

Lemma select_multi_least rawM l d :
  ascending l = true →
  (∃ x, x ∈ l ∧ (rawM <=? x)%float = true) →
  select_multi rawM l d ∈ l
  ∧ (rawM <=? select_multi rawM l d)%float = true
  ∧ ∀ x, x ∈ l → (rawM <=? x)%float = true →
         (select_multi rawM l d <=? x)%float = true.
Proof.
  intros Hs Hex.
  destruct (select_multi_found rawM l d Hex) as (pre & post & Hl & Hpre & Hm).
  set (m := select_multi rawM l d) in *.
  split; [|split; [done|]].
  - rewrite Hl. apply elem_of_app. right. by left.
  - intros x Hx Hle. rewrite Hl in Hx.
    apply elem_of_app in Hx as [Hx|Hx].
    + rewrite (Hpre x Hx) in Hle. done.
    + by apply (ascending_from l pre m post x).
Qed.

Definition one_two_five : list float :=
  [0.1; 0.2; 0.5; 1; 2; 5; 10; 20; 50; 100; 200; 500;
   1000; 2000; 5000; 10000; 20000; 50000]%float.

Lemma rIntervals_eq : rIntervals = one_two_five.
Proof. by vm_compute. Qed.

(** Six rounds fill the array; any larger bound on the rounds gives the
    same array. *)
Lemma rIntervals_loop_enough fuel :
  (6 ≤ fuel)%nat → rIntervals_loop fuel 0.1%float [] = one_two_five.
Proof.
  intros H.
  do 6 (destruct fuel as [|fuel]; [lia|]).
  destruct fuel; by vm_compute.
Qed.

Lemma rIntervals_sorted :
  StronglySorted (λ a b, (a <? b)%float = true) rIntervals.
Proof.
  rewrite rIntervals_eq. unfold one_two_five.
  repeat (constructor; [|repeat (constructor; [by vm_compute|]); constructor]).
  constructor.
Qed.

Lemma rIntervals_ascending : ascending rIntervals = true.
Proof. by vm_compute. Qed.

(** C2. [rIntervals] is the ascending 1-2-5 sequence from 0.1 to 50000
    (whatever bound of at least six rounds the filling loop is given). For
    every unit and every zoom that [updateRulers] works with (its argument,
    or the canvas zoom), with [rawM] the double [50 / (unit * zoom)]: if
    some element of the sequence is at least [rawM], then [multi] is an
    element of the sequence, is at least [rawM], and is at most every
    element that is at least [rawM] (the smallest such); if no element is
    at least [rawM], [multi] is the last element, 50000. The distance
    between major ticks is the double [multi * (unit * zoom)]. The
    comparisons are those of the doubles that the source computes: at
    zoom 499.99999999999994 with pixels as unit the quotient is rounded
    to 0.1 and the interval is 0.1. *)
Theorem C2_major_interval_from_1_2_5
    (unit : float) (zoom_arg : option float) (getZoom : float) :
  let zoom := zoom_used zoom_arg getZoom in
  rIntervals
  = [0.1; 0.2; 0.5; 1; 2; 5; 10; 20; 50; 100; 200; 500;
     1000; 2000; 5000; 10000; 20000; 50000]%float
  ∧ (∀ fuel, (6 ≤ fuel)%nat → rIntervals_loop fuel 0.1%float [] = rIntervals)
  ∧ StronglySorted (λ a b, (a <? b)%float = true) rIntervals
  ∧ rawM unit zoom = PrimFloat.div 50%float (PrimFloat.mul unit zoom)
  ∧ ((∃ x, x ∈ rIntervals ∧ PrimFloat.leb (rawM unit zoom) x = true) →
       multi unit zoom ∈ rIntervals
       ∧ PrimFloat.leb (rawM unit zoom) (multi unit zoom) = true
       ∧ ∀ x, x ∈ rIntervals → PrimFloat.leb (rawM unit zoom) x = true →
              PrimFloat.leb (multi unit zoom) x = true)
  ∧ ((∀ x, x ∈ rIntervals → PrimFloat.leb (rawM unit zoom) x = false) →
       multi unit zoom = 50000%float)
  ∧ bigInt unit zoom
    = PrimFloat.mul (multi unit zoom) (PrimFloat.mul unit zoom)
  ∧ (zoom = match zoom_arg with
            | Some z =>
                if PrimFloat.eqb z 0%float || negb (PrimFloat.eqb z z)
                then getZoom else z
            | None => getZoom
            end)
  ∧ rawM 1%float 499.99999999999994%float = 0.1%float
  ∧ multi 1%float 499.99999999999994%float = 0.1%float
  ∧ multi 1%float 1%float = 50%float
  ∧ multi 1%float 4%float = 20%float
  ∧ bigInt 1%float 4%float = 80%float
  ∧ multi 1%float 0%float = 50000%float
  ∧ multi nan 1%float = 50000%float.
Proof.
  intros zoom.
  split; [apply rIntervals_eq|].
  split; [intros fuel Hf; rewrite rIntervals_eq;
          by apply rIntervals_loop_enough|].
  split; [apply rIntervals_sorted|].
  split; [reflexivity|].
  split; [|split; [|split; [reflexivity|split]]].
  - intros Hex. apply select_multi_least; [apply rIntervals_ascending|done].
  - intros Hnone. unfold multi. rewrite select_multi_none by done.
    by rewrite rIntervals_eq.
  - unfold zoom, zoom_used, num_truthy, is_zero, is_nan.
    destruct zoom_arg as [z|]; [|done].
    unfold zero. by destruct (PrimFloat.eqb z 0), (PrimFloat.eqb z z).
  - repeat split; by vm_compute.
Qed.

(** At zoom 1 with pixels as unit a major tick every 50 pixels; at zoom 4,
    [rawM] is 12.5 and the interval is 20 (80 pixels); at zoom 1/3 it is
    200; with a zero or undefined [unit * zoom] no element reaches [rawM]
    and the interval is 50000. *)
Lemma multi_examples :
  multi 1%float 1%float = 50%float
  ∧ bigInt 1%float 1%float = 50%float
  ∧ multi 1%float 4%float = 20%float
  ∧ bigInt 1%float 4%float = 80%float
  ∧ multi 1%float (1 / 3)%float = 200%float
  ∧ multi 1%float 0%float = 50000%float
  ∧ multi nan 1%float = 50000%float
  ∧ multi 1%float 0.0005%float = 50000%float.
Proof. repeat split; by vm_compute. Qed.

End Rulers.

(** ** Extensions: the [extension_added] listener [extAdded] *)

Module Extensions.

(** A context tool ([module:SVGEditor.ContextTool]). [events] lists the DOM
    event names that the tool binds functions to; [options] is the
    value-to-label object of a select tool, in enumeration order. *)
Record context_tool := {
  panel : string;
  tool_id : string;
  tool_type : string;
  title : string;
  tool_events : option (list string);
  options : list (string * string);
  container_id : option string;
  defval : option string;
  colnum : option string;
  label : string;
  size : option string
}.

(** The extension object passed to the listener. [langReady] says whether
    the extension defines the hook and, if so, whether the promise that the
    hook returns is fulfilled ([true]) or rejected ([false]); [callback]
    says whether the extension defines a callback; [events] is
    [ext.events.id]. *)
Record extension := {
  langReady : option bool;
  callback : bool;
  context_tools : option (list context_tool);
  events : option string
}.

Inductive effect :=
| ELangReady (lang : string)          (* await ext.langReady({lang}) *)
| ECreatePanel (id : string)          (* $('<div>', {id}).appendTo('#tools_top') *)
| EAppendTo (html target : string)    (* $(html).appendTo(target) *)
| EAddClass (id cls : string)         (* list.addClass(cls) *)
| EBind (tool evt : string)           (* $(elem).bind(evt, func) *)
| EAddClickListener (id : string)     (* $id(id).addEventListener('click', ...) *)
| ECallback.                          (* ext.callback.call(editor) *)

#[global] Instance effect_eq_dec : EqDecision effect.
Proof. solve_decision. Defined.

(** How the promise returned by the (async) listener settles. *)
Inductive outcome :=
| Resolved                            (* with undefined *)
| Rejected.

(** What the listener reads of the editor and of the page: the
    [langChanged] flag, the ["lang"] preference and the ids of the elements
    in the document. *)
Record state := {
  langChanged : bool;
  lang : string;
  dom_ids : gset string
}.

Definition add_ids (ids : list string) (st : state) : state :=
  {| langChanged := langChanged st; lang := lang st;
     dom_ids := list_to_set ids ∪ dom_ids st |}.

(** [runCallback]; [cbCalled] is the flag of the enclosing call. *)
Definition runCallback (ext : extension) (cbCalled : bool)
  : bool * list effect :=
  if callback ext && negb cbCalled then (true, [ECallback])
  else (cbCalled, []).

(** The double-quote character of the HTML fragments. *)
Definition dq : string := String (Ascii.ascii_of_nat 34) EmptyString.

(** [o || d] for an optional string. *)
Definition opt_or (o : option string) (d : string) : string :=
  match o with
  | Some s => if String.eqb s "" then d else s
  | None => d
  end.

(** [' id="' + tool.container_id + '"'], or the empty string. *)
Definition contId (tool : context_tool) : string :=
  match container_id tool with
  | Some c => if String.eqb c "" then "" else " id=" +:+ dq +:+ c +:+ dq
  | None => ""
  end.

Definition container_ids (tool : context_tool) : list string :=
  match container_id tool with
  | Some c => if String.eqb c "" then [] else [c]
  | None => []
  end.

Definition tool_bindings (tool : context_tool) : list effect :=
  match tool_events tool with
  | Some evts => (fun evt => EBind (tool_id tool) evt) <$> evts
  | None => []
  end.

Definition option_html (tool : context_tool) (o : string * string) : string :=
  let sel := if decide (Some o.1 = defval tool) then " selected" else "" in
  "<option value=" +:+ dq +:+ o.1 +:+ dq +:+ sel +:+ ">" +:+ o.2
    +:+ "</option>".

(** One round of [$.each(ext.context_tools, ...)]. The page is taken to
    have the elements [#tools_top] and [#option_lists], and the panel name
    to be a plain id: [$('#' + tool.panel)] then finds the element with
    that id, and a panel that is created is on the page afterwards. *)
Definition add_context_tool (st : state) (tool : context_tool)
  : state * list effect :=
  let target := "#" +:+ panel tool in
  let '(st, created) :=
    if decide (panel tool ∈ dom_ids st) then (st, [])
    else (add_ids [panel tool] st, [ECreatePanel (panel tool)]) in
  if String.eqb (tool_type tool) "tool_button" then
    (st,
     created
       ++ [EAppendTo
             ("<div class=" +:+ dq +:+ "tool_button" +:+ dq +:+ ">"
                +:+ tool_id tool +:+ "</div>")
             target]
       ++ tool_bindings tool)
  else if String.eqb (tool_type tool) "select" then
    (add_ids (tool_id tool :: container_ids tool) st,
     created
       ++ [EAppendTo
             ("<label" +:+ contId tool +:+ ">"
                +:+ "<select id=" +:+ dq +:+ tool_id tool +:+ dq +:+ ">"
                +:+ foldr (fun o acc => option_html tool o +:+ acc) ""
                      (options tool)
                +:+ "</select></label>")
             target]
       ++ tool_bindings tool)
  else if String.eqb (tool_type tool) "button-select" then
    (add_ids [(tool_id tool +:+ "_opts"); tool_id tool;
              ("cur_" +:+ tool_id tool)] st,
     created
       ++ [EAppendTo
             ("<ul id=" +:+ dq +:+ tool_id tool +:+ "_opts" +:+ dq
                +:+ "></ul>")
             "#option_lists"]
       ++ match colnum tool with
          | Some c =>
              if String.eqb c "" then []
              else [EAddClass (tool_id tool +:+ "_opts") ("optcols" +:+ c)]
          | None => []
          end
       ++ [EAppendTo
             ("<div id=" +:+ dq +:+ tool_id tool +:+ dq
                +:+ " class=" +:+ dq +:+ "dropdown toolset" +:+ dq
                +:+ " title=" +:+ dq +:+ title tool +:+ dq +:+ ">"
                +:+ "<div id=" +:+ dq +:+ "cur_" +:+ tool_id tool +:+ dq
                +:+ " class=" +:+ dq +:+ "icon_label" +:+ dq
                +:+ "></div><button></button></div>")
             target])
  else if String.eqb (tool_type tool) "input" then
    (add_ids ((tool_id tool +:+ "_label") :: tool_id tool
                :: container_ids tool) st,
     created
       ++ [EAppendTo
             ("<label" +:+ contId tool +:+ ">"
                +:+ "<span id=" +:+ dq +:+ tool_id tool +:+ "_label" +:+ dq
                +:+ ">" +:+ label tool +:+ ":</span>"
                +:+ "<input id=" +:+ dq +:+ tool_id tool +:+ dq
                +:+ " title=" +:+ dq +:+ title tool +:+ dq
                +:+ " size=" +:+ dq +:+ opt_or (size tool) "4" +:+ dq
                +:+ " value=" +:+ dq +:+ opt_or (defval tool) "" +:+ dq
                +:+ " type=" +:+ dq +:+ "text" +:+ dq +:+ "/></label>")
             target]
       ++ tool_bindings tool)
  else (st, created).

Fixpoint add_context_tools (st : state) (tools : list context_tool)
  : state * list effect :=
  match tools with
  | [] => (st, [])
  | tool :: rest =>
      let '(st1, t1) := add_context_tool st tool in
      let '(st2, t2) := add_context_tools st1 rest in
      (st2, t1 ++ t2)
  end.

(** [extAdded(win, ext)]; a falsy [ext] is [None]. *)
Definition extAdded (st : state) (ext : option extension)
  : state * list effect * outcome :=
  match ext with
  | None => (st, [], Resolved)
  | Some ext =>
      let cbCalled := false in
      let awaited :=
        match langReady ext with
        | Some fulfilled =>
            if langChanged st then Some fulfilled else None
        | None => None
        end in
      let t0 := match awaited with
                | Some _ => [ELangReady (lang st)]
                | None => []
                end in
      match awaited with
      | Some false => (st, t0, Rejected)
      | _ =>
          let '(st1, t1) :=
            match context_tools ext with
            | Some tools => add_context_tools st tools
            | None => (st, [])
            end in
          match events ext with
          | Some id =>
              if decide (id ∈ dom_ids st1) then
                let '(_, t3) := runCallback ext cbCalled in
                (st1, t0 ++ t1 ++ [EAddClickListener id] ++ t3, Resolved)
              else (st1, t0 ++ t1, Rejected)
          | None =>
              let '(_, t3) := runCallback ext cbCalled in
              (st1, t0 ++ t1 ++ t3, Resolved)
          end
      end
  end.

(** *** Facts about the trace of [extAdded] *)

Definition is_dom_effect (e : effect) : bool :=
  match e with
  | ECreatePanel _ | EAppendTo _ _ | EAddClass _ _ | EBind _ _ => true
  | _ => false
  end.

Definition callback_calls (t : list effect) : nat :=
  length (filter (λ e, e = ECallback) t).

Definition trace_of (r : state * list effect * outcome) : list effect := r.1.2.

Lemma tool_bindings_dom tool : Forall (λ e, is_dom_effect e = true) (tool_bindings tool).
Proof.
  unfold tool_bindings. destruct (tool_events tool) as [evts|]; [|constructor].
  apply Forall_fmap, Forall_true. done.
Qed.

Lemma add_context_tool_dom st tool :
  Forall (λ e, is_dom_effect e = true) (add_context_tool st tool).2.
Proof.
  unfold add_context_tool.
  destruct (decide (panel tool ∈ dom_ids st));
    repeat (match goal with
            | |- context [String.eqb ?a ?b] => destruct (String.eqb a b)
            end); cbn [snd];
    repeat (first [ apply Forall_app; split
                  | apply Forall_cons; split
                  | apply Forall_nil
                  | apply tool_bindings_dom ]); try done.
  all: destruct (colnum tool) as [c|]; [|constructor].
  all: destruct (String.eqb c ""); repeat constructor.
Qed.

Lemma add_context_tools_dom st tools :
  Forall (λ e, is_dom_effect e = true) (add_context_tools st tools).2.
Proof.
  revert st. induction tools as [|tool rest IH]; intros st; simpl.
  - constructor.
  - pose proof (add_context_tool_dom st tool) as H1.
    destruct (add_context_tool st tool) as [st1 t1].
    pose proof (IH st1) as H2.
    destruct (add_context_tools st1 rest) as [st2 t2].
    simpl in *. by apply Forall_app.
Qed.

Lemma callback_calls_app t1 t2 :
  callback_calls (t1 ++ t2) = (callback_calls t1 + callback_calls t2)%nat.
Proof. unfold callback_calls. by rewrite filter_app, length_app. Qed.

Lemma callback_calls_dom t :
  Forall (λ e, is_dom_effect e = true) t → callback_calls t = 0%nat.
Proof.
  unfold callback_calls. induction 1 as [|e t He Ht IH]; [done|].
  rewrite filter_cons. destruct (decide (e = ECallback)) as [->|]; [done|].
  exact IH.
Qed.

Lemma langReady_not_dom t l :
  Forall (λ e, is_dom_effect e = true) t → ELangReady l ∉ t.
Proof.
  intros H Hin. rewrite Forall_forall in H. by apply H in Hin.
Qed.

Lemma runCallback_calls ext c : (callback_calls (runCallback ext c).2 ≤ 1)%nat.
Proof.
  unfold runCallback. destruct (callback ext && negb c); simpl.
  - unfold callback_calls. rewrite filter_cons.
    destruct (decide (ECallback = ECallback)); simpl; lia.
  - unfold callback_calls. simpl. lia.
Qed.

Lemma runCallback_no_langReady ext c l : ELangReady l ∉ (runCallback ext c).2.
Proof.
  unfold runCallback. destruct (callback ext && negb c); simpl.
  - intros [?|H]%elem_of_cons; [done|by apply not_elem_of_nil in H].
  - apply not_elem_of_nil.
Qed.

(** The trace of a call with a truthy [ext]: the awaited [langReady], if
    any, then effects on the page, then at most the click listener and the
    callback. *)
Lemma extAdded_shape st ext :
  ∃ t0 t1 t2,
    trace_of (extAdded st (Some ext)) = t0 ++ t1 ++ t2
    ∧ t0 = (if bool_decide (is_Some (langReady ext)) && langChanged st
            then [ELangReady (lang st)] else [])
    ∧ Forall (λ e, is_dom_effect e = true) t1
    ∧ (callback_calls t2 ≤ 1)%nat
    ∧ ∀ l, ELangReady l ∉ t2.
Proof.
  unfold extAdded, trace_of.
  assert (Hnil : ∀ l, ELangReady l ∉ @nil effect)
    by (intros l; apply not_elem_of_nil).
  assert (H0 : (callback_calls [] ≤ 1)%nat) by (unfold callback_calls; simpl; lia).
  destruct (langReady ext) as [[|]|] eqn:EL; destruct (langChanged st) eqn:EC;
    simpl;
    try (eexists _, [], []; repeat split; [rewrite app_nil_r; reflexivity
                                           | constructor | done | done ]);
    (destruct (context_tools ext) as [tools|];
     [ pose proof (add_context_tools_dom st tools) as Hd;
       destruct (add_context_tools st tools) as [st1 t1]
     | pose (st1 := st); pose (t1 := @nil effect);
       assert (Hd : Forall (λ e, is_dom_effect e = true) t1) by constructor ];
     simpl in Hd;
     (destruct (events ext) as [id|];
      [ destruct (decide (id ∈ _));
        [ pose proof (runCallback_calls ext false) as Hc;
          pose proof (runCallback_no_langReady ext false) as Hl;
          destruct (runCallback ext false) as [c t3]; simpl in *;
          eexists _, t1, ([EAddClickListener id] ++ t3);
          repeat split; [done|done| |];
          [ rewrite callback_calls_app; unfold callback_calls at 1;
            simpl; done
          | intros l [?|?]%elem_of_cons; [done|by apply (Hl l)] ]
        | eexists _, t1, []; repeat split;
          [by rewrite app_nil_r|done|done|done] ]
      | pose proof (runCallback_calls ext false) as Hc;
        pose proof (runCallback_no_langReady ext false) as Hl;
        destruct (runCallback ext false) as [c t3]; simpl in *;
        eexists _, t1, t3; repeat split; done ])).
Qed.

(** C4. For every call of [extAdded]: with a falsy [ext] it resolves to
    undefined with no effect at all and the state unchanged; with a truthy
    [ext] the extension's callback is called at most once within the call,
    a second [runCallback] after a first one does nothing, and the first
    thing the call does is to await [ext.langReady] (with the ["lang"]
    preference) exactly when the extension defines [langReady] and
    [editor.langChanged] is true; in the other case [langReady] is not
    called at all. *)
Theorem C4_extAdded_guard_callback_once_langReady_first (st : state) :
  extAdded st None = (st, [], Resolved)
  ∧ ∀ ext : extension,
      (callback_calls (trace_of (extAdded st (Some ext))) ≤ 1)%nat
      ∧ (∀ cbCalled,
           runCallback ext (runCallback ext cbCalled).1
           = ((runCallback ext cbCalled).1, []))
      ∧ (head (trace_of (extAdded st (Some ext))) = Some (ELangReady (lang st))
         ↔ is_Some (langReady ext) ∧ langChanged st = true)
      ∧ (¬ (is_Some (langReady ext) ∧ langChanged st = true) →
         ∀ l, ELangReady l ∉ trace_of (extAdded st (Some ext))).
Proof.
  split; [reflexivity|]. intros ext.
  destruct (extAdded_shape st ext) as (t0 & t1 & t2 & Ht & Ht0 & Hd & Hc & Hl).
  rewrite Ht. split; [|split; [|split; [split|]]].
  - rewrite !callback_calls_app, (callback_calls_dom t1) by done.
    subst t0. destruct (_ && _); unfold callback_calls at 1; simpl; lia.
  - intros c. unfold runCallback.
    destruct (callback ext) eqn:Ecb; destruct c; reflexivity.
  - subst t0.
    destruct (bool_decide_reflect (is_Some (langReady ext))) as [Hs|Hs];
      destruct (langChanged st); simpl; try done.
    all: intros Hh; exfalso.
    all: destruct t1 as [|e t1];
      [ destruct t2 as [|e t2]; [done|]; simpl in Hh;
        injection Hh as ->; apply (Hl (lang st)); by left
      | simpl in Hh; injection Hh as ->;
        apply Forall_cons in Hd as [Hd _]; done ].
  - intros [Hs Hc']. subst t0. rewrite Hc'.
    rewrite bool_decide_true by done. reflexivity.
  - intros Hn l. subst t0. intros Hin.
    apply elem_of_app in Hin as [Hin|Hin].
    + destruct (bool_decide_reflect (is_Some (langReady ext))) as [Hs|Hs];
        destruct (langChanged st) eqn:E; simpl in Hin;
        try (by apply not_elem_of_nil in Hin).
      apply Hn. done.
    + apply elem_of_app in Hin as [Hin|Hin].
      * by apply (langReady_not_dom t1 l).
      * by apply (Hl l).
Qed.

(** An extension with a [langReady] hook and a callback, after a change of
    language: the hook is awaited first, the callback runs once. The same
    extension before any change of language, and one whose hook fails. *)
Lemma extAdded_examples :
  let st b := {| langChanged := b; lang := "fr"; dom_ids := ∅ |} in
  let ext r := {| langReady := Some r; callback := true;
                  context_tools := None; events := None |} in
  extAdded (st true) (Some (ext true))
  = (st true, [ELangReady "fr"; ECallback], Resolved)
  ∧ extAdded (st false) (Some (ext true)) = (st false, [ECallback], Resolved)
  ∧ extAdded (st true) (Some (ext false))
    = (st true, [ELangReady "fr"], Rejected)
  ∧ extAdded (st true) None = (st true, [], Resolved).
Proof. repeat split. Qed.

End Extensions.

(** ** The DOM as the helpers of the metadata module see it

    A document is the tree of its root element; nodes are elements (name,
    attributes in order, children in order) and text. An element is referred
    to by its path from the root (the child indexes), which stays valid
    while attributes and the contents of other elements change.

    A document string is represented by the tree that [DOMParser] builds
    from it and that [XMLSerializer] writes back, and a markup string read
    from or assigned to [innerHTML] by the list of nodes it denotes: parsing
    and serialization are taken to be inverse to each other. Comments,
    processing instructions, CDATA sections and namespaces are not
    modelled. *)

Module Dom.

#[local] Set Warnings "-register-all".

Inductive node :=
| Elem (tag : string) (attrs : list (string * string)) (children : list node)
| Text (data : string).

Abbreviation path := (list nat).

Section node_induction.
Variable P : node → Prop.
Hypothesis Htext : ∀ s, P (Text s).
Hypothesis Helem : ∀ t a cs, Forall P cs → P (Elem t a cs).

Fixpoint node_forall_ind (n : node) : P n :=
  match n with
  | Text s => Htext s
  | Elem t a cs =>
      Helem t a cs
        ((fix go (l : list node) : Forall P l :=
            match l with
            | [] => List.Forall_nil P
            | c :: l' => List.Forall_cons P c l' (node_forall_ind c) (go l')
            end) cs)
  end.
End node_induction.

#[global] Instance node_eq_dec : EqDecision node.
Proof.
  refine (fix go (x y : node) {struct x} : Decision (x = y) :=
            match x, y with
            | Text s, Text s' => cast_if (decide (s = s'))
            | Elem t a cs, Elem t' a' cs' =>
                cast_if_and3 (decide (t = t')) (decide (a = a'))
                  (@list_eq_dec _ go cs cs')
            | _, _ => right _
            end); congruence.
Defined.

(** *** Attributes *)

(** [element.getAttribute(name)] *)
Fixpoint getAttribute (name : string) (a : list (string * string))
  : option string :=
  match a with
  | [] => None
  | (n, v) :: rest => if String.eqb n name then Some v else getAttribute name rest
  end.

(** [element.hasAttribute(name)] *)
Definition hasAttribute (name : string) (a : list (string * string)) : bool :=
  bool_decide (is_Some (getAttribute name a)).

(** [element.setAttribute(name, value)]: the value of an existing attribute
    is replaced in place, a new attribute is appended. *)
Fixpoint setAttribute (name value : string) (a : list (string * string))
  : list (string * string) :=
  match a with
  | [] => [(name, value)]
  | (n, v) :: rest =>
      if String.eqb n name then (n, value) :: rest
      else (n, v) :: setAttribute name value rest
  end.

Definition node_attrs (n : node) : list (string * string) :=
  match n with Elem _ a _ => a | Text _ => [] end.

Definition node_children (n : node) : list node :=
  match n with Elem _ _ cs => cs | Text _ => [] end.

Definition set_attr (name value : string) (n : node) : node :=
  match n with
  | Elem t a cs => Elem t (setAttribute name value a) cs
  | Text s => Text s
  end.

Definition set_children (cs : list node) (n : node) : node :=
  match n with
  | Elem t a _ => Elem t a cs
  | Text s => Text s
  end.

(** *** Element references *)

(** The node that a path refers to. *)
Fixpoint get (p : path) (n : node) : option node :=
  match p with
  | [] => Some n
  | i :: p' =>
      match n with
      | Elem _ _ cs => cs !! i ≫= get p'
      | Text _ => None
      end
  end.

(** In-place change of the node that a path refers to. *)
Fixpoint update (p : path) (f : node → node) (n : node) : node :=
  match p with
  | [] => f n
  | i :: p' =>
      match n with
      | Elem t a cs => Elem t a (alter (update p' f) i cs)
      | Text s => Text s
      end
  end.

(** The elements that a selector matches, in document order. The selectors
    used here look at the element's name and attributes only. *)
Fixpoint paths (sel : string → list (string * string) → bool) (n : node)
  : list path :=
  match n with
  | Text _ => []
  | Elem t a cs =>
      (if sel t a then [[]] else [])
        ++ (fix go (i : nat) (l : list node) : list path :=
              match l with
              | [] => []
              | c :: l' => ((i ::.) <$> paths sel c) ++ go (S i) l'
              end) 0%nat cs
  end.

Fixpoint paths_forest (sel : string → list (string * string) → bool)
    (i : nat) (l : list node) : list path :=
  match l with
  | [] => []
  | c :: l' => ((i ::.) <$> paths sel c) ++ paths_forest sel (S i) l'
  end.

Lemma paths_Elem sel t a cs :
  paths sel (Elem t a cs)
  = (if sel t a then [[]] else []) ++ paths_forest sel 0 cs.
Proof.
  simpl. f_equal. generalize 0%nat.
  induction cs as [|c cs IH]; intros i; simpl; [done|]. by rewrite IH.
Qed.

Lemma elem_of_paths_forest_iff sel p i cs :
  p ∈ paths_forest sel i cs
  ↔ ∃ j c p', cs !! j = Some c ∧ p = (i + j)%nat :: p' ∧ p' ∈ paths sel c.
Proof.
  revert i. induction cs as [|c cs IH]; intros i; cbn [paths_forest].
  - split; [intros H; by apply not_elem_of_nil in H|].
    intros (j & c & p' & Hj & _). done.
  - rewrite elem_of_app, list_elem_of_fmap, IH. split.
    + intros [(p' & -> & Hp')|(j & c' & p' & Hj & -> & Hp')].
      * exists 0%nat, c, p'. by rewrite Nat.add_0_r.
      * exists (S j), c', p'. split; [done|]. split; [f_equal; lia|done].
    + intros (j & c' & p' & Hj & -> & Hp'). destruct j as [|j].
      * left. injection Hj as <-. exists p'. by rewrite Nat.add_0_r.
      * right. exists j, c', p'. split; [done|]. split; [f_equal; lia|done].
Qed.

(** The paths that a selector gives are exactly the references to the
    elements of the document that it accepts. *)
Lemma elem_of_paths sel d p :
  p ∈ paths sel d
  ↔ ∃ t a cs, get p d = Some (Elem t a cs) ∧ sel t a = true.
Proof.
  revert p. induction d as [s|t a cs IH] using node_forall_ind; intros p.
  - split; [intros H; by apply not_elem_of_nil in H|].
    intros (t & a & cs & Hg & _). by destruct p.
  - rewrite paths_Elem, elem_of_app, elem_of_paths_forest_iff. split.
    + intros [Hp|(j & c & p' & Hj & -> & Hp')].
      * destruct (sel t a) eqn:Es; [|by apply not_elem_of_nil in Hp].
        apply list_elem_of_singleton in Hp as ->. by exists t, a, cs.
      * rewrite Forall_forall in IH.
        apply (IH c (list_elem_of_lookup_2 _ _ _ Hj)) in Hp'
          as (t' & a' & cs' & Hg & Hs).
        exists t', a', cs'. split; [|done]. simpl. by rewrite Hj.
    + intros (t' & a' & cs' & Hg & Hs). destruct p as [|j p'].
      * injection Hg as -> -> ->. left. rewrite Hs. by left.
      * right. simpl in Hg. destruct (cs !! j) as [c|] eqn:Hj; [|done].
        exists j, c, p'. split; [done|]. split; [done|].
        rewrite Forall_forall in IH.
        apply (IH c (list_elem_of_lookup_2 _ _ _ Hj)). by exists t', a', cs'.
Qed.

(** [querySelectorAll(sel)] and [querySelector(sel)] on the document. *)
Definition querySelectorAll sel (doc : node) : list path := paths sel doc.

Definition querySelector sel (doc : node) : option path := head (paths sel doc).

(** [getElementsByTagName('*')]: every element. *)
Definition all_elements (doc : node) : list path := paths (λ _ _, true) doc.

(** [document.getElementById(id)]: the first element in document order whose
    [id] attribute is [id]; the empty string is no id. *)
Definition getElementById (doc : node) (id : string) : option path :=
  if String.eqb id "" then None
  else querySelector (λ _ a, bool_decide (getAttribute "id" a = Some id)) doc.

(** *** Class selectors *)

Definition is_space (c : Ascii.ascii) : bool :=
  let n := Ascii.nat_of_ascii c in
  (n =? 32)%nat || (n =? 9)%nat || (n =? 10)%nat || (n =? 12)%nat
  || (n =? 13)%nat.

(** The tokens of a space-separated attribute value; [cur] is the token
    being read. *)
Fixpoint tokens_from (cur : string) (s : string) : list string :=
  match s with
  | EmptyString => if String.eqb cur "" then [] else [cur]
  | String c s' =>
      if is_space c
      then (if String.eqb cur "" then [] else [cur]) ++ tokens_from "" s'
      else tokens_from (cur +:+ String c "") s'
  end.

Definition class_list (a : list (string * string)) : list string :=
  match getAttribute "class" a with
  | Some v => tokens_from "" v
  | None => []
  end.

(** The selector [.cls]. *)
Definition has_class (cls : string) (_ : string) (a : list (string * string))
  : bool :=
  bool_decide (cls ∈ class_list a).

End Dom.

(** ** customInitLayer (metadata helpers) *)

Module InitLayer.
Import Dom.

Inductive effect :=
| ELog (count : nat) (tag : string)   (* console.log(count, tag) *)
| ECreateLayer (name : string)        (* svgEditor.svgCanvas.createLayer(name) *)
| EUpdateContextPanel                 (* svgEditor.layersPanel.updateContextPanel() *)
| EPopulateLayers.                    (* svgEditor.layersPanel.populateLayers() *)

(** [initSvgDom.querySelectorAll('.layer').length] *)
Definition layer_count (initSvgDom : node) : nat :=
  length (querySelectorAll (has_class "layer") initSvgDom).

Definition default_layer_name : string := "图层 1".

Definition customInitLayer (initSvgDom : node) : list effect :=
  [ELog (layer_count initSvgDom) "initSvgDom.querySelectorAll"]
    ++ (if (layer_count initSvgDom =? 0)%nat
        then [ECreateLayer default_layer_name; EUpdateContextPanel;
              EPopulateLayers]
        else []).

(** A document with a layer group next to a title (its class attribute has
    other names as well), and one whose only class names are [layers] and
    [big]. *)
Definition with_layer : node :=
  Elem "svg" [("id", "svgcontent")]
    [Elem "g" [("class", "top layer")] [Elem "title" [] [Text "Layer 1"]]].

Definition without_layer : node :=
  Elem "svg" [("id", "svgcontent")]
    [Elem "g" [("class", "layers big")] [Elem "rect" [] []]].

(** The count is zero exactly when no element of the document has the
    class name. *)
Lemma layer_count_0 (initSvgDom : node) :
  layer_count initSvgDom = 0%nat
  ↔ ∀ p t a cs, get p initSvgDom = Some (Elem t a cs) →
                "layer" ∉ class_list a.
Proof.
  unfold layer_count, querySelectorAll. rewrite length_zero_iff_nil. split.
  - intros Hnil p t a cs Hg Hin.
    assert (p ∈ paths (has_class "layer") initSvgDom) as Hp.
    { apply elem_of_paths. exists t, a, cs. split; [done|].
      by apply bool_decide_eq_true. }
    rewrite Hnil in Hp. by apply not_elem_of_nil in Hp.
  - intros Hno.
    destruct (paths (has_class "layer") initSvgDom) as [|p ps] eqn:E; [done|].
    assert (p ∈ paths (has_class "layer") initSvgDom) as Hp
      by (rewrite E; by left).
    apply elem_of_paths in Hp as (t & a & cs & Hg & Hs).
    apply bool_decide_eq_true in Hs. by destruct (Hno p t a cs Hg).
Qed.

(** C6. The count that [customInitLayer] tests is the number of elements
    of the document whose class names include [layer]; it is zero exactly
    when no element of the document has that class name. If the initial
    document has no such element, [customInitLayer] (after logging the
    count) creates the layer named ['图层 1'] and then refreshes the context
    panel and the layers list, in this order; if it has at least one such
    element, the count is logged and nothing else happens: no layer is
    created and no panel is refreshed. So a layer is created exactly when
    no element of the document has the class name [layer]. For the
    document [with_layer] nothing but the log happens, for
    [without_layer] the layer is created. *)
Theorem C6_customInitLayer_creates_layer_iff_none (initSvgDom : node) :
  (layer_count initSvgDom = 0%nat →
     customInitLayer initSvgDom
     = [ELog 0 "initSvgDom.querySelectorAll"; ECreateLayer "图层 1";
        EUpdateContextPanel; EPopulateLayers])
  ∧ ((layer_count initSvgDom > 0)%nat →
       customInitLayer initSvgDom
       = [ELog (layer_count initSvgDom) "initSvgDom.querySelectorAll"])
  ∧ ((∃ name, ECreateLayer name ∈ customInitLayer initSvgDom)
       ↔ layer_count initSvgDom = 0%nat)
  ∧ (EPopulateLayers ∈ customInitLayer initSvgDom
       ↔ layer_count initSvgDom = 0%nat)
  ∧ (layer_count initSvgDom = 0%nat
       ↔ ∀ p t a cs, get p initSvgDom = Some (Elem t a cs) →
                     "layer" ∉ class_list a)
  ∧ ((∃ name, ECreateLayer name ∈ customInitLayer initSvgDom)
       ↔ ∀ p t a cs, get p initSvgDom = Some (Elem t a cs) →
                     "layer" ∉ class_list a)
  ∧ (∀ p, p ∈ querySelectorAll (has_class "layer") initSvgDom
          ↔ ∃ t a cs, get p initSvgDom = Some (Elem t a cs)
                      ∧ "layer" ∈ class_list a)
  ∧ customInitLayer with_layer = [ELog 1 "initSvgDom.querySelectorAll"]
  ∧ customInitLayer without_layer
    = [ELog 0 "initSvgDom.querySelectorAll"; ECreateLayer "图层 1";
       EUpdateContextPanel; EPopulateLayers].
Proof.
  assert ((∃ name, ECreateLayer name ∈ customInitLayer initSvgDom)
          ↔ layer_count initSvgDom = 0%nat) as Hcreate.
  { unfold customInitLayer.
    destruct (Nat.eqb_spec (layer_count initSvgDom) 0) as [E|E].
    - split; [done|]. intros _. exists default_layer_name.
      simpl. do 1 right. by left.
    - split; [|done]. intros [name Hin]. simpl in Hin.
      apply elem_of_cons in Hin as [Hin|Hin]; [done|].
      by apply not_elem_of_nil in Hin. }
  split; [|split; [|split; [|split; [|split; [|split; [|split; [|split]]]]]]].
  - unfold customInitLayer. by intros ->.
  - unfold customInitLayer.
    destruct (Nat.eqb_spec (layer_count initSvgDom) 0); [lia|done].
  - exact Hcreate.
  - unfold customInitLayer.
    destruct (Nat.eqb_spec (layer_count initSvgDom) 0) as [E|E].
    + split; [done|]. intros _. simpl. do 3 right. by left.
    + split; [|done]. intros Hin. simpl in Hin.
      apply elem_of_cons in Hin as [Hin|Hin]; [done|].
      by apply not_elem_of_nil in Hin.
  - apply layer_count_0.
  - rewrite Hcreate. apply layer_count_0.
  - intros p. unfold querySelectorAll. rewrite elem_of_paths.
    split; intros (t & a & cs & Hg & Hs); exists t, a, cs; (split; [done|]).
    + by apply bool_decide_eq_true in Hs.
    + by apply bool_decide_eq_true.
  - by vm_compute.
  - by vm_compute.
Qed.

Lemma customInitLayer_examples :
  customInitLayer with_layer = [ELog 1 "initSvgDom.querySelectorAll"]
  ∧ customInitLayer without_layer
    = [ELog 0 "initSvgDom.querySelectorAll"; ECreateLayer "图层 1";
       EUpdateContextPanel; EPopulateLayers].
Proof. split; by vm_compute. Qed.

End InitLayer.

(** ** The left tool bar: [updateLeftPanel] and the tool click handlers *)

Module LeftPanel.

(** An element of the page, as far as the tool bar code looks at it: its
    id, whether it is a descendant of [#tools_left], and the [disabled] and
    [pressed] properties. The [pressed] property of a tool bar button
    mirrors its [pressed] attribute (which is what the selector
    [*[pressed]] tests). *)
Record element := {
  el_id : string;
  in_tools_left : bool;
  disabled : bool;
  pressed : bool
}.

Definition set_pressed (v : bool) (e : element) : element :=
  {| el_id := el_id e; in_tools_left := in_tools_left e;
     disabled := disabled e; pressed := v |}.

(** The page: its elements in document order; an element is referred to by
    its index. *)
Abbreviation page := (list element).

(** The argument [button], documented as [string|Element]: an id string,
    or (a reference to) an element of the page. *)
Inductive button_arg :=
| ById (id : string)
| ByElement (index : nat).

Inductive result :=
| Ret (b : bool)
| TypeError.                 (* property access on null *)

(** [button.disabled], as a truth value. A string has no such property:
    the access gives undefined. *)
Definition button_disabled (pg : page) (button : button_arg) : bool :=
  match button with
  | ById _ => false
  | ByElement i =>
      match pg !! i with
      | Some e => disabled e
      | None => false
      end
  end.

(** The string that an id lookup receives for the argument. *)
Definition id_string (button : button_arg) : string :=
  match button with
  | ById id => id
  | ByElement _ => "[object HTMLElement]"
  end.

Section WithUtilities.
(** [$id] and [$qq] are imported from common/utilities.js and are left
    open here: [dollar_id pg id] is the element that [$id(id)] gives, if
    any, and [dollar_qq_pressed pg] is the array that
    [$qq('#tools_left *[pressed]')] gives. *)
Variable dollar_id : page → string → option nat.
Variable dollar_qq_pressed : page → list nat.

(** [$qq('#tools_left *[pressed]').forEach((b) => { b.pressed = false })] *)
Definition unpress (pg : page) : page :=
  foldl (λ pg b, alter (set_pressed false) b pg) pg (dollar_qq_pressed pg).

Definition updateLeftPanel (pg : page) (button : button_arg) : page * result :=
  if button_disabled pg button then (pg, Ret false)
  else
    let pg1 := unpress pg in
    match dollar_id pg1 (id_string button) with
    | Some i => (alter (set_pressed true) i pg1, Ret true)
    | None => (pg1, TypeError)
    end.

(** The editor state that a tool click touches. *)
Record state := {
  st_page : page;
  mode : string;               (* svgCanvas.getMode() *)
  cursor : string              (* the workarea's cursor style *)
}.

(** A click handler of the form
    [if (updateLeftPanel(id)) { ...; svgCanvas.setMode(m) }]. The boolean
    tells whether the handler completed ([false]: TypeError). *)
Definition click_tool (id m : string) (new_cursor : option string) (st : state)
  : state * bool :=
  match updateLeftPanel (st_page st) (ById id) with
  | (pg, Ret true) =>
      ({| st_page := pg; mode := m;
          cursor := default (cursor st) new_cursor |}, true)
  | (pg, Ret false) =>
      ({| st_page := pg; mode := mode st; cursor := cursor st |}, true)
  | (pg, TypeError) =>
      ({| st_page := pg; mode := mode st; cursor := cursor st |}, false)
  end.

Definition clickSelect : state → state * bool :=
  click_tool "tool_select" "select" (Some "auto").

Definition clickText : state → state * bool :=
  click_tool "tool_text" "text" None.

Definition clickPath : state → state * bool :=
  click_tool "tool_path" "path" None.

(** *** What [updateLeftPanel] does *)

Lemma updateLeftPanel_element_disabled pg i e :
  pg !! i = Some e → disabled e = true →
  updateLeftPanel pg (ByElement i) = (pg, Ret false).
Proof. intros Hi Hd. unfold updateLeftPanel. simpl. by rewrite Hi, Hd. Qed.

(** With an id string the [disabled] test never fires. *)
Lemma updateLeftPanel_id_not_false pg id :
  (updateLeftPanel pg (ById id)).2 ≠ Ret false.
Proof.
  unfold updateLeftPanel. simpl.
  destruct (dollar_id _ _); simpl; congruence.
Qed.

(** So a click handler changes the mode whenever the id names an element,
    whatever the [disabled] property of that element. *)
Lemma click_tool_sets_mode id m c st i :
  dollar_id (unpress (st_page st)) id = Some i →
  mode (click_tool id m c st).1 = m.
Proof.
  intros Hi. unfold click_tool, updateLeftPanel. simpl. by rewrite Hi.
Qed.

End WithUtilities.

(** *** The utilities on the page model *)

Fixpoint getElementById_from (i : nat) (pg : page) (id : string) : option nat :=
  match pg with
  | [] => None
  | e :: rest =>
      if String.eqb (el_id e) id then Some i
      else getElementById_from (S i) rest id
  end.

(** [document.getElementById(id)]: the first element with the id. *)
Definition getElementById (pg : page) (id : string) : option nat :=
  if String.eqb id "" then None else getElementById_from 0 pg id.

Fixpoint tools_left_pressed_from (i : nat) (pg : page) : list nat :=
  match pg with
  | [] => []
  | e :: rest =>
      (if in_tools_left e && pressed e then [i] else [])
        ++ tools_left_pressed_from (S i) rest
  end.

(** [document.querySelectorAll('#tools_left *[pressed]')], as an array. *)
Definition tools_left_pressed (pg : page) : list nat :=
  tools_left_pressed_from 0 pg.

Definition unpress_one (e : element) : element :=
  if in_tools_left e && pressed e then set_pressed false e else e.

Lemma unpress_from pre rest :
  foldl (λ pg b, alter (set_pressed false) b pg) (pre ++ rest)
    (tools_left_pressed_from (length pre) rest)
  = pre ++ (unpress_one <$> rest).
Proof.
  revert pre. induction rest as [|e rest IH]; intros pre; [done|].
  cbn [tools_left_pressed_from fmap list_fmap]. rewrite foldl_app.
  assert (Hstep : foldl (λ pg b, alter (set_pressed false) b pg)
                    (pre ++ e :: rest)
                    (if in_tools_left e && pressed e then [length pre] else [])
                  = (pre ++ [unpress_one e]) ++ rest).
  { unfold unpress_one. rewrite <- app_assoc.
    destruct (in_tools_left e && pressed e); [|done].
    cbn [foldl]. rewrite alter_app_r_alt by lia.
    by rewrite Nat.sub_diag. }
  rewrite Hstep.
  replace (S (length pre)) with (length (pre ++ [unpress_one e]))
    by (rewrite length_app; simpl; lia).
  rewrite IH. by rewrite <- app_assoc.
Qed.

Lemma unpress_tools_left pg :
  unpress tools_left_pressed pg = unpress_one <$> pg.
Proof. apply (unpress_from [] pg). Qed.

Lemma getElementById_from_Some pg id i k :
  getElementById_from k pg id = Some i →
  ∃ e, pg !! (i - k)%nat = Some e ∧ el_id e = id ∧ (k ≤ i)%nat.
Proof.
  revert k. induction pg as [|e pg IH]; intros k; simpl; [done|].
  destruct (String.eqb_spec (el_id e) id) as [E|E].
  - intros [= <-]. exists e. rewrite Nat.sub_diag. done.
  - intros H. destruct (IH _ H) as (e' & He' & Hid & Hle).
    exists e'. split; [|split; [done|lia]].
    replace (i - k)%nat with (S (i - S k)) by lia. done.
Qed.

(** When the id names an element, the call returns true and afterwards that
    element is pressed and is the only pressed element under
    [#tools_left]; the other elements outside [#tools_left] keep their
    state. *)
Lemma updateLeftPanel_id_found pg id i :
  getElementById (unpress tools_left_pressed pg) id = Some i →
  let r := updateLeftPanel getElementById tools_left_pressed pg (ById id) in
  r.2 = Ret true
  ∧ (∃ e, r.1 !! i = Some e ∧ el_id e = id ∧ pressed e = true)
  ∧ (∀ j e, r.1 !! j = Some e → in_tools_left e = true →
            pressed e = true → j = i)
  ∧ (∀ j e, pg !! j = Some e → in_tools_left e = false → j ≠ i →
            r.1 !! j = Some e).
Proof.
  intros Hi. unfold updateLeftPanel. simpl. rewrite Hi. simpl.
  split; [done|].
  assert (Hget := Hi). unfold getElementById in Hget.
  destruct (String.eqb id ""); [done|].
  apply getElementById_from_Some in Hget as (e & He & Hid & _).
  rewrite Nat.sub_0_r in He.
  split; [|split].
  - exists (set_pressed true e). rewrite list_lookup_alter_eq, He. done.
  - intros j e' Hj Hl Hp. destruct (decide (j = i)) as [|Hne]; [done|].
    rewrite list_lookup_alter_ne in Hj by done.
    rewrite unpress_tools_left, list_lookup_fmap in Hj.
    destruct (pg !! j) as [e0|]; [|done]. simpl in Hj.
    unfold unpress_one in Hj.
    destruct (in_tools_left e0) eqn:E1; destruct (pressed e0) eqn:E2;
      simpl in Hj; injection Hj as <-; simpl in *; congruence.
  - intros j e' Hj Hl Hne.
    rewrite list_lookup_alter_ne by done.
    rewrite unpress_tools_left, list_lookup_fmap, Hj. simpl.
    unfold unpress_one. by rewrite Hl.
Qed.

(** *** A disabled select button *)

(** The page while the pencil tool is chosen and the select button is
    disabled. *)
Definition select_disabled : state :=
  {| st_page :=
       [ {| el_id := "tool_select"; in_tools_left := true;
            disabled := true; pressed := false |};
         {| el_id := "tool_fhpath"; in_tools_left := true;
            disabled := false; pressed := true |} ];
     mode := "fhpath";
     cursor := "crosshair" |}.

(** C7. The tool click handlers call [updateLeftPanel] with the id string
    of the button, and a string has no [disabled] property: whatever [$id]
    and [$qq] do, for no page and no id does the call return false. On a
    page whose select button is disabled, [updateLeftPanel('tool_select')]
    returns true and presses the button, and [clickSelect] sets the canvas
    mode to ['select'] and the cursor to ['auto'], although the button is
    disabled. Called with the element itself, the [disabled] test works
    (false is returned for the disabled select button and nothing changes),
    but for an enabled button the call does not return true: it ends in a
    TypeError, because the element is then used as an id. *)
Theorem C7_disabled_button_is_not_guarded :
  (∀ dollar_id dollar_qq pg id,
     (updateLeftPanel dollar_id dollar_qq pg (ById id)).2 ≠ Ret false)
  ∧ updateLeftPanel getElementById tools_left_pressed
      (st_page select_disabled) (ById "tool_select")
    = ([ {| el_id := "tool_select"; in_tools_left := true;
            disabled := true; pressed := true |};
         {| el_id := "tool_fhpath"; in_tools_left := true;
            disabled := false; pressed := false |} ],
       Ret true)
  ∧ mode (clickSelect getElementById tools_left_pressed select_disabled).1
    = "select"
  ∧ cursor (clickSelect getElementById tools_left_pressed select_disabled).1
    = "auto"
  ∧ updateLeftPanel getElementById tools_left_pressed
      (st_page select_disabled) (ByElement 0)
    = (st_page select_disabled, Ret false)
  ∧ (updateLeftPanel getElementById tools_left_pressed
       (st_page select_disabled) (ByElement 1)).2
    = TypeError.
Proof.
  split; [apply updateLeftPanel_id_not_false|].
  repeat split.
Qed.

End LeftPanel.

(** ** compareAndFillSvgDom (metadata helpers) *)

Module FillDom.
Import Dom.

(** The string that [getElementById] receives for
    [element1.getAttribute('id')]: the attribute value, or, for an element
    without the attribute, the string conversion of [null]. *)
Definition id_argument (a : list (string * string)) : string :=
  match getAttribute "id" a with
  | Some v => v
  | None => "null"
  end.

Definition attrs_at (p : path) (doc : node) : list (string * string) :=
  match get p doc with
  | Some n => node_attrs n
  | None => []
  end.

(** One round of the inner loop:
    [if (!element2.hasAttribute(attr1.name)) element2.setAttribute(attr1.name, attr1.value)]. *)
Definition fill_attribute (element2 : path) (svgDom2 : node)
    (attr1 : string * string) : node :=
  if hasAttribute attr1.1 (attrs_at element2 svgDom2) then svgDom2
  else update element2 (set_attr attr1.1 attr1.2) svgDom2.

(** One round of the outer loop, for the element of [svgDom1] with
    attributes [attributes1]. *)
Definition fill_element (svgDom2 : node) (attributes1 : list (string * string))
  : node :=
  match getElementById svgDom2 (id_argument attributes1) with
  | None => svgDom2
  | Some element2 => foldl (fill_attribute element2) svgDom2 attributes1
  end.

(** The attribute lists of the elements of a document, in document order. *)
Definition element_attributes (doc : node) : list (list (string * string)) :=
  (λ p, attrs_at p doc) <$> all_elements doc.

(** [compareAndFillSvgDom(svgDom1, svgDom2)], for two distinct documents:
    [svgDom1] is only read; the result is [svgDom2] after the changes. *)
Definition compareAndFillSvgDom (svgDom1 svgDom2 : node) : node :=
  foldl fill_element svgDom2 (element_attributes svgDom1).

(** *** What the function never touches

    Whatever the two documents are, the result has the shape of [svgDom2]:
    at every path there is the same kind of node, with the same name, the
    same number of children and the same text, and the attribute list of
    [svgDom2] with, possibly, more attributes after it. *)

Definition node_kept (n n' : option node) : Prop :=
  match n, n' with
  | Some (Elem t a cs), Some (Elem t' a' cs') =>
      t = t' ∧ a `prefix_of` a' ∧ length cs = length cs'
  | Some (Text s), Some (Text s') => s = s'
  | None, None => True
  | _, _ => False
  end.

Lemma node_kept_refl n : node_kept n n.
Proof. destruct n as [[t a cs|s]|]; simpl; done. Qed.

Lemma node_kept_trans n1 n2 n3 :
  node_kept n1 n2 → node_kept n2 n3 → node_kept n1 n3.
Proof.
  destruct n1 as [[t1 a1 cs1|s1]|], n2 as [[t2 a2 cs2|s2]|],
    n3 as [[t3 a3 cs3|s3]|]; simpl; try done.
  - intros (-> & Ha & Hl) (-> & Ha' & Hl'). split; [done|].
    split; [by etrans|congruence].
  - congruence.
Qed.

Lemma setAttribute_absent name value a :
  getAttribute name a = None → setAttribute name value a = a ++ [(name, value)].
Proof.
  induction a as [|[n v] a IH]; simpl; [done|].
  destruct (String.eqb n name); [done|]. intros H. by rewrite IH.
Qed.

Lemma set_attr_kept name value n :
  getAttribute name (node_attrs n) = None →
  node_kept (Some n) (Some (set_attr name value n)).
Proof.
  destruct n as [t a cs|s]; simpl; [|done].
  intros H. rewrite (setAttribute_absent _ _ _ H).
  split; [done|]. split; [by apply prefix_app_r|done].
Qed.

Lemma update_set_attr_kept name value p d :
  getAttribute name (attrs_at p d) = None →
  ∀ q, node_kept (get q d) (get q (update p (set_attr name value) d)).
Proof.
  revert d. induction p as [|i p IH]; intros d Hn q.
  - unfold attrs_at in Hn. simpl in Hn.
    destruct q as [|j q].
    + simpl. by apply set_attr_kept.
    + destruct d as [t a cs|s]; [apply node_kept_refl|done].
  - destruct d as [t a cs|s]; [|apply node_kept_refl].
    destruct q as [|j q].
    + simpl. split; [done|]. split; [done|]. by rewrite length_alter.
    + simpl. destruct (decide (i = j)) as [->|Hne].
      * rewrite list_lookup_alter_eq.
        destruct (cs !! j) as [c|] eqn:Ec; simpl; [|done].
        apply IH. unfold attrs_at in *. simpl in Hn. by rewrite Ec in Hn.
      * rewrite list_lookup_alter_ne by done. apply node_kept_refl.
Qed.

Lemma fill_attribute_kept element2 d attr1 q :
  node_kept (get q d) (get q (fill_attribute element2 d attr1)).
Proof.
  unfold fill_attribute, hasAttribute.
  destruct (getAttribute attr1.1 (attrs_at element2 d)) as [v|] eqn:E.
  - rewrite bool_decide_true by eauto. apply node_kept_refl.
  - rewrite bool_decide_false by (by intros [??]).
    by apply update_set_attr_kept.
Qed.

Lemma fill_element_kept d attributes1 q :
  node_kept (get q d) (get q (fill_element d attributes1)).
Proof.
  unfold fill_element.
  destruct (getElementById d (id_argument attributes1)) as [element2|];
    [|apply node_kept_refl].
  revert d. induction attributes1 as [|attr1 l IH]; intros d.
  - apply node_kept_refl.
  - simpl. eapply node_kept_trans; [apply fill_attribute_kept|apply IH].
Qed.

Lemma compareAndFillSvgDom_kept svgDom1 svgDom2 q :
  node_kept (get q svgDom2) (get q (compareAndFillSvgDom svgDom1 svgDom2)).
Proof.
  unfold compareAndFillSvgDom.
  generalize (element_attributes svgDom1). intros l. revert svgDom2.
  induction l as [|a l IH]; intros d.
  - apply node_kept_refl.
  - simpl. eapply node_kept_trans; [apply fill_element_kept|apply IH].
Qed.

Lemma getAttribute_prefix name a a' v :
  a `prefix_of` a' → getAttribute name a = Some v →
  getAttribute name a' = Some v.
Proof.
  intros [extra ->]. induction a as [|[n w] a IH]; simpl; [done|].
  destruct (String.eqb n name); [done|]. apply IH.
Qed.

(** Every attribute that an element of [svgDom2] has keeps its value. *)
Lemma compareAndFillSvgDom_keeps_attributes svgDom1 svgDom2 q t a cs name v :
  get q svgDom2 = Some (Elem t a cs) →
  getAttribute name a = Some v →
  ∃ a' cs',
    get q (compareAndFillSvgDom svgDom1 svgDom2) = Some (Elem t a' cs')
    ∧ getAttribute name a' = Some v.
Proof.
  intros Hq Hv.
  pose proof (compareAndFillSvgDom_kept svgDom1 svgDom2 q) as H.
  rewrite Hq in H.
  destruct (get q (compareAndFillSvgDom svgDom1 svgDom2))
    as [[t' a' cs'|s]|]; simpl in H; try done.
  destruct H as (<- & Hp & _). exists a', cs'. split; [done|].
  by apply (getAttribute_prefix name a a' v).
Qed.

(** *** An element without id and an element with the id ["null"] *)

Definition dom1_no_id : node :=
  Elem "svg" [("id", "a")] [Elem "g" [("foo", "1")] []].

Definition dom2_null_id : node :=
  Elem "svg" [("id", "a")] [Elem "g" [("id", "null")] []].

(** C9. No element of [dom1_no_id] has the id ["null"] (its [g] element has
    no id at all), yet [compareAndFillSvgDom] changes the element of
    [dom2_null_id] whose id is ["null"]: it receives the attribute [foo] of
    the id-less [g] element, because the missing id is looked up as the
    string ["null"]. *)
Theorem C9_fill_reaches_element_without_id_match :
  (∀ a, a ∈ element_attributes dom1_no_id → getAttribute "id" a ≠ Some "null")
  ∧ get [0%nat] dom2_null_id = Some (Elem "g" [("id", "null")] [])
  ∧ get [0%nat] (compareAndFillSvgDom dom1_no_id dom2_null_id)
    = Some (Elem "g" [("id", "null"); ("foo", "1")] [])
  ∧ compareAndFillSvgDom dom1_no_id dom2_null_id
    = Elem "svg" [("id", "a")] [Elem "g" [("id", "null"); ("foo", "1")] []].
Proof.
  split; [|by vm_compute].
  intros a Ha. vm_compute in Ha.
  apply elem_of_cons in Ha as [->|Ha]; [by vm_compute|].
  apply elem_of_cons in Ha as [->|Ha]; [by vm_compute|].
  by apply not_elem_of_nil in Ha.
Qed.

End FillDom.

(** ** Metadata: [extractAndEnhanceMetadata] and [replaceSvgMetadata] *)

Module Metadata.
Import Dom.

(** A markup string, as read from and assigned to [innerHTML]. *)
Abbreviation markup := (list node).

(** A string is the sequence of the bytes of its UTF-8 encoding (as the
    string literals of this file are). [utf8 cp] is the encoding of the
    code point [cp]. *)
Definition utf8 (cp : N) : string :=
  let byte := Ascii.ascii_of_N in
  if (cp <? 0x80)%N then String (byte cp) ""
  else if (cp <? 0x800)%N then
    String (byte (0xC0 + cp / 0x40)%N)
      (String (byte (0x80 + cp mod 0x40)%N) "")
  else if (cp <? 0x10000)%N then
    String (byte (0xE0 + cp / 0x1000)%N)
      (String (byte (0x80 + (cp / 0x40) mod 0x40)%N)
         (String (byte (0x80 + cp mod 0x40)%N) ""))
  else
    String (byte (0xF0 + cp / 0x40000)%N)
      (String (byte (0x80 + (cp / 0x1000) mod 0x40)%N)
         (String (byte (0x80 + (cp / 0x40) mod 0x40)%N)
            (String (byte (0x80 + cp mod 0x40)%N) ""))).

(** The code points that [String.prototype.trim] strips, the white space
    and the line terminators of ECMAScript: TAB, LF, VT, FF, CR, SP, NBSP,
    the other space separators (U+1680, U+2000 to U+200A, U+202F, U+205F,
    U+3000), LS, PS and ZWNBSP (U+FEFF). *)
Definition white_space_code_points : list N :=
  [0x9; 0xA; 0xB; 0xC; 0xD; 0x20; 0xA0; 0x1680;
   0x2000; 0x2001; 0x2002; 0x2003; 0x2004; 0x2005; 0x2006; 0x2007;
   0x2008; 0x2009; 0x200A; 0x2028; 0x2029; 0x202F; 0x205F; 0x3000;
   0xFEFF]%N.

Definition white_space : list string := utf8 <$> white_space_code_points.

(** [s] without [w] at its start, if it starts with [w]. *)
Fixpoint strip_prefix (w s : string) : option string :=
  match w, s with
  | EmptyString, _ => Some s
  | String a w', String b s' =>
      if Ascii.eqb a b then strip_prefix w' s' else None
  | String _ _, EmptyString => None
  end.

(** [s] without the first of the strings [ws] that it starts with. *)
Fixpoint strip_one (ws : list string) (s : string) : option string :=
  match ws with
  | [] => None
  | w :: ws' =>
      match strip_prefix w s with
      | Some rest => Some rest
      | None => strip_one ws' s
      end
  end.

(** Strip as long as the string starts with one of [ws]; every round
    removes at least one byte, so [String.length s] rounds are enough. *)
Fixpoint strip_all (rounds : nat) (ws : list string) (s : string) : string :=
  match rounds with
  | O => s
  | S rounds =>
      match strip_one ws s with
      | Some rest => strip_all rounds ws rest
      | None => s
      end
  end.

Definition trim_start_str (s : string) : string :=
  strip_all (String.length s) white_space s.

Definition trim_end_str (s : string) : string :=
  String.rev
    (strip_all (String.length s) (String.rev <$> white_space) (String.rev s)).

(** Trimming the markup string strips the white space at the start of the
    text it starts with and at the end of the text it ends with; a text
    that becomes empty denotes no node. An element at either end stops the
    trimming. *)
Fixpoint trim_start (m : markup) : markup :=
  match m with
  | Text s :: rest =>
      let s' := trim_start_str s in
      if String.eqb s' "" then trim_start rest else Text s' :: rest
  | _ => m
  end.

Fixpoint trim_end_rev (m : markup) : markup :=
  match m with
  | Text s :: rest =>
      let s' := trim_end_str s in
      if String.eqb s' "" then trim_end_rev rest else Text s' :: rest
  | _ => m
  end.

Definition trim_end (m : markup) : markup :=
  reverse (trim_end_rev (reverse m)).

(** [markup.trim()] *)
Definition trim (m : markup) : markup := trim_end (trim_start m).

(** The selector ['metadata'], and the selector [metadata[id=v]] with the
    string [v] as the value that the attribute must have. *)
Definition is_metadata (t : string) (_ : list (string * string)) : bool :=
  String.eqb t "metadata".

Definition metadata_with_id (id : string) (t : string)
    (a : list (string * string)) : bool :=
  String.eqb t "metadata" && bool_decide (getAttribute "id" a = Some id).

(** [`my-metadata-${index}`] *)
Definition metadata_id (index : nat) : string :=
  "my-metadata-" +:+ pretty index.

(** [element.innerHTML], read. *)
Definition innerHTML (element : path) (svgDoc : node) : markup :=
  match get element svgDoc with
  | Some n => node_children n
  | None => []
  end.

(** The pairs (index, element) that [forEach] passes to its callback. *)
Fixpoint indexed_from {A} (k : nat) (l : list A) : list (nat * A) :=
  match l with
  | [] => []
  | x :: l' => (k, x) :: indexed_from (S k) l'
  end.

Definition indexed {A} (l : list A) : list (nat * A) := indexed_from 0 l.

(** One round of [metadataElements.forEach] in [extractAndEnhanceMetadata]:
    the state is the document and [metadataArray]. *)
Definition extract_step (st : node * list (string * markup))
    (ie : nat * path) : node * list (string * markup) :=
  let '(svgDoc, metadataArray) := st in
  let '(index, metadataElement) := ie in
  let svgDoc :=
    update metadataElement (set_attr "id" (metadata_id index)) svgDoc in
  let metadataContent := trim (innerHTML metadataElement svgDoc) in
  (svgDoc, metadataArray ++ [(metadata_id index, metadataContent)]).

(** [extractAndEnhanceMetadata(svgString)]: the pair of [enhancedSvgString]
    and [metadataArray]. *)
Definition extractAndEnhanceMetadata (svg : node)
  : node * list (string * markup) :=
  foldl extract_step (svg, []) (indexed (querySelectorAll is_metadata svg)).

(** [replaceSvgMetadata] splices the id into the text of a selector,
    between double quotes. The text between the quotes is the value
    [metadata_with_id] compares with when the id has no double quote, no
    backslash, no line feed, carriage return or form feed and no NUL: the
    characters that end the quoted string, start an escape, or are replaced
    when the selector is read. *)
Definition selector_special (c : Ascii.ascii) : bool :=
  let n := Ascii.N_of_ascii c in
  (n =? 0)%N || (n =? 10)%N || (n =? 12)%N || (n =? 13)%N
  || (n =? 34)%N || (n =? 92)%N.

Fixpoint plain_id (id : string) : bool :=
  match id with
  | EmptyString => true
  | String c rest => negb (selector_special c) && plain_id rest
  end.

(** What one round does with the element that the selector finds. *)
Definition replace_found (svgDoc : node) (entry : string * markup) : node :=
  match querySelector (metadata_with_id entry.1) svgDoc with
  | Some metadataElement =>
      update metadataElement (set_children entry.2) svgDoc
  | None => svgDoc
  end.

(** One round of [metadataArray.forEach] in [replaceSvgMetadata]. With an
    id that is not plain the selector is another one than the test of the
    id (it may be rejected with a SyntaxError, or select other elements);
    that case is not embedded, and the result is [None]. *)
Definition replace_step (svgDoc : node) (entry : string * markup)
  : option node :=
  if plain_id entry.1 then Some (replace_found svgDoc entry) else None.

(** [replaceSvgMetadata(svgString, metadataArray)] *)
Definition replaceSvgMetadata (svg : node)
    (metadataArray : list (string * markup)) : option node :=
  foldl (λ svgDoc entry, svgDoc ≫= λ d, replace_step d entry)
    (Some svg) metadataArray.

(** *** Documents without a metadata element inside a metadata element *)

Fixpoint no_metadata (n : node) : bool :=
  match n with
  | Text _ => true
  | Elem t _ cs => negb (String.eqb t "metadata") && forallb no_metadata cs
  end.

Fixpoint flat (n : node) : bool :=
  match n with
  | Text _ => true
  | Elem t _ cs =>
      if String.eqb t "metadata" then forallb no_metadata cs
      else forallb flat cs
  end.

(** The document in which the content of every metadata element that is not
    inside another one is trimmed, and nothing else differs. *)
Fixpoint trim_metadata (n : node) : node :=
  match n with
  | Text s => Text s
  | Elem t a cs =>
      if String.eqb t "metadata" then Elem t a (trim cs)
      else Elem t a (trim_metadata <$> cs)
  end.

(** Every metadata element's content is its own trimming: it has no white
    space at its start or at its end. *)
Fixpoint contents_trimmed (n : node) : bool :=
  match n with
  | Text _ => true
  | Elem t _ cs =>
      (if String.eqb t "metadata" then bool_decide (trim cs = cs) else true)
      && forallb contents_trimmed cs
  end.

(** *** Trimming of strings *)

Lemma string_app_assoc (s1 s2 s3 : string) :
  (s1 +:+ s2) +:+ s3 = s1 +:+ (s2 +:+ s3).
Proof.
  induction s1 as [|c s1 IH]; [done|].
  change (String c ((s1 +:+ s2) +:+ s3) = String c (s1 +:+ (s2 +:+ s3))).
  by rewrite IH.
Qed.

Lemma string_app_nil_r (s : string) : s +:+ "" = s.
Proof.
  induction s as [|c s IH]; [done|].
  change (String c (s +:+ "") = String c s). by rewrite IH.
Qed.

Lemma string_app_length (s1 s2 : string) :
  String.length (s1 +:+ s2) = (String.length s1 + String.length s2)%nat.
Proof.
  induction s1 as [|c s1 IH]; [done|].
  change (S (String.length (s1 +:+ s2))
          = S (String.length s1 + String.length s2)). by rewrite IH.
Qed.

Lemma string_app_inv_head (w s s' : string) : w +:+ s = w +:+ s' → s = s'.
Proof.
  induction w as [|c w IH]; [done|].
  change (String c (w +:+ s) = String c (w +:+ s') → s = s').
  intros [= H]. by apply IH.
Qed.

Lemma rev_app_spec (s1 s2 : string) :
  String.rev_app s1 s2 = String.rev s1 +:+ s2.
Proof.
  unfold String.rev. revert s2.
  induction s1 as [|c s1 IH]; intros s2; [done|].
  cbn [String.rev_app]. rewrite (IH (String c s2)), (IH (String c "")).
  by rewrite string_app_assoc.
Qed.

Lemma rev_cons (c : Ascii.ascii) (s : string) :
  String.rev (String c s) = String.rev s +:+ String c "".
Proof. unfold String.rev at 1. cbn [String.rev_app]. apply rev_app_spec. Qed.

Lemma rev_app_distr (s1 s2 : string) :
  String.rev (s1 +:+ s2) = String.rev s2 +:+ String.rev s1.
Proof.
  induction s1 as [|c s1 IH].
  - change ("" +:+ s2) with s2. by rewrite string_app_nil_r.
  - change (String c s1 +:+ s2) with (String c (s1 +:+ s2)).
    rewrite !rev_cons, IH. by rewrite string_app_assoc.
Qed.

Lemma rev_involutive (s : string) : String.rev (String.rev s) = s.
Proof.
  induction s as [|c s IH]; [done|].
  rewrite rev_cons, rev_app_distr, IH. done.
Qed.

Lemma rev_length (s : string) : String.length (String.rev s) = String.length s.
Proof.
  induction s as [|c s IH]; [done|].
  rewrite rev_cons, string_app_length, IH. simpl. lia.
Qed.

Lemma strip_prefix_cancel (w s : string) : strip_prefix w (w +:+ s) = Some s.
Proof.
  induction w as [|c w IH]; [by destruct s|].
  change (String c w +:+ s) with (String c (w +:+ s)).
  cbn [strip_prefix]. by rewrite Ascii.eqb_refl.
Qed.

Lemma strip_prefix_Some (w s r : string) :
  strip_prefix w s = Some r → s = w +:+ r.
Proof.
  revert s. induction w as [|c w IH]; intros s.
  - destruct s; cbn [strip_prefix]; by intros [= <-].
  - destruct s as [|b s]; [done|]. cbn [strip_prefix].
    destruct (Ascii.eqb_spec c b) as [->|]; [|done].
    intros H. apply IH in H as ->. done.
Qed.

Lemma strip_one_Some ws s r :
  strip_one ws s = Some r → ∃ w, w ∈ ws ∧ s = w +:+ r.
Proof.
  induction ws as [|w ws IH]; [done|]. cbn [strip_one].
  destruct (strip_prefix w s) as [r'|] eqn:E.
  - intros [= ->]. exists w. split; [by left|by apply strip_prefix_Some].
  - intros H. destruct (IH H) as (w' & Hw' & ->).
    exists w'. split; [by right|done].
Qed.

Lemma strip_one_None ws s :
  (∀ w s', w ∈ ws → s ≠ w +:+ s') → strip_one ws s = None.
Proof.
  induction ws as [|w ws IH]; intros H; [done|]. cbn [strip_one].
  destruct (strip_prefix w s) as [r|] eqn:E.
  - apply strip_prefix_Some in E. destruct (H w r); [by left|done].
  - apply IH. intros w' s' Hw'. apply H. by right.
Qed.

(** No string of the list is empty, and none is the start of another one. *)
Definition starts_with (w s : string) : bool :=
  match strip_prefix w s with Some _ => true | None => false end.

Definition prefix_code (ws : list string) : bool :=
  forallb (λ w, negb (String.eqb w "")
                && forallb (λ w', String.eqb w w' || negb (starts_with w w'))
                     ws) ws.

Lemma app_eq_starts_with (w w' s s' : string) :
  w +:+ s = w' +:+ s' → starts_with w w' = true ∨ starts_with w' w = true.
Proof.
  revert w'. induction w as [|c w IH]; intros w' H.
  - left. by destruct w'.
  - destruct w' as [|c' w']; [by right|].
    change (String c (w +:+ s) = String c' (w' +:+ s')) in H.
    injection H as -> H. unfold starts_with. cbn [strip_prefix].
    rewrite Ascii.eqb_refl. by apply IH.
Qed.

Lemma prefix_code_unique ws w w' s s' :
  prefix_code ws = true → w ∈ ws → w' ∈ ws →
  w +:+ s = w' +:+ s' → w = w' ∧ s = s'.
Proof.
  intros Hc Hw Hw' H. unfold prefix_code in Hc.
  rewrite forallb_forall in Hc.
  assert (w = w') as ->.
  { destruct (app_eq_starts_with w w' s s' H) as [Hp|Hp].
    - pose proof (Hc w (proj1 (list_elem_of_In _ _) Hw)) as Hcw.
      apply andb_true_iff in Hcw as [_ Hcw].
      rewrite forallb_forall in Hcw.
      specialize (Hcw w' (proj1 (list_elem_of_In _ _) Hw')).
      rewrite Hp in Hcw. simpl in Hcw. rewrite orb_false_r in Hcw.
      by apply String.eqb_eq in Hcw.
    - pose proof (Hc w' (proj1 (list_elem_of_In _ _) Hw')) as Hcw.
      apply andb_true_iff in Hcw as [_ Hcw].
      rewrite forallb_forall in Hcw.
      specialize (Hcw w (proj1 (list_elem_of_In _ _) Hw)).
      rewrite Hp in Hcw. simpl in Hcw. rewrite orb_false_r in Hcw.
      by apply String.eqb_eq in Hcw. }
  split; [done|]. by apply string_app_inv_head in H.
Qed.

Lemma prefix_code_nonempty ws w :
  prefix_code ws = true → w ∈ ws → (0 < String.length w)%nat.
Proof.
  intros Hc Hw. unfold prefix_code in Hc. rewrite forallb_forall in Hc.
  pose proof (Hc w (proj1 (list_elem_of_In _ _) Hw)) as Hcw.
  apply andb_true_iff in Hcw as [Hne _].
  destruct w; [done|simpl; lia].
Qed.

Lemma strip_one_app ws w s :
  prefix_code ws = true → w ∈ ws → strip_one ws (w +:+ s) = Some s.
Proof.
  intros Hc Hw.
  destruct (strip_one ws (w +:+ s)) as [r|] eqn:E.
  - apply strip_one_Some in E as (w' & Hw' & E).
    by destruct (prefix_code_unique ws w w' s r Hc Hw Hw' E) as [_ ->].
  - exfalso. clear Hc. induction ws as [|w0 ws IH].
    + by apply not_elem_of_nil in Hw.
    + cbn [strip_one] in E.
      destruct (strip_prefix w0 (w +:+ s)) eqn:E0; [done|].
      apply elem_of_cons in Hw as [->|Hw].
      * by rewrite strip_prefix_cancel in E0.
      * by apply IH.
Qed.

(** More rounds than the length of the string change nothing. *)
Lemma strip_all_rounds ws :
  prefix_code ws = true →
  ∀ n m s, (String.length s ≤ n)%nat → (String.length s ≤ m)%nat →
           strip_all n ws s = strip_all m ws s.
Proof.
  intros Hc.
  assert (Hnil : ∀ k, strip_all k ws "" = "").
  { intros [|k]; [done|]. cbn [strip_all].
    destruct (strip_one ws "") as [r|] eqn:E; [|done].
    apply strip_one_Some in E as (w & Hw & E).
    apply (prefix_code_nonempty ws w Hc) in Hw.
    destruct w; [simpl in Hw; lia|discriminate E]. }
  induction n as [|n IH]; intros m s Hn Hm.
  - destruct s; [|simpl in Hn; lia]. by rewrite Hnil.
  - destruct m as [|m].
    { destruct s; [|simpl in Hm; lia]. by rewrite !Hnil. }
    cbn [strip_all]. destruct (strip_one ws s) as [r|] eqn:E; [|done].
    apply strip_one_Some in E as (w & Hw & ->).
    apply (prefix_code_nonempty ws w Hc) in Hw.
    rewrite string_app_length in Hn, Hm. apply IH; lia.
Qed.

Lemma strip_all_app ws w s :
  prefix_code ws = true → w ∈ ws →
  strip_all (String.length (w +:+ s)) ws (w +:+ s)
  = strip_all (String.length s) ws s.
Proof.
  intros Hc Hw. pose proof (prefix_code_nonempty ws w Hc Hw) as Hlen.
  rewrite string_app_length.
  destruct (String.length w + String.length s)%nat as [|k] eqn:Ek; [lia|].
  cbn [strip_all]. rewrite (strip_one_app ws w s Hc Hw).
  apply (strip_all_rounds ws Hc); lia.
Qed.

Lemma strip_all_none ws n s :
  (∀ w s', w ∈ ws → s ≠ w +:+ s') → strip_all n ws s = s.
Proof.
  intros H. destruct n as [|n]; [done|]. cbn [strip_all].
  by rewrite strip_one_None.
Qed.

Lemma white_space_prefix_code : prefix_code white_space = true.
Proof. by vm_compute. Qed.

Lemma white_space_rev_prefix_code :
  prefix_code (String.rev <$> white_space) = true.
Proof. by vm_compute. Qed.

(** A white-space character at the start of a string is stripped. *)
Lemma trim_start_str_white_space w s :
  w ∈ white_space → trim_start_str (w +:+ s) = trim_start_str s.
Proof.
  intros Hw. unfold trim_start_str.
  by apply strip_all_app; [apply white_space_prefix_code|].
Qed.

(** A string that starts with no white-space character is left as it is. *)
Lemma trim_start_str_none s :
  (∀ w s', w ∈ white_space → s ≠ w +:+ s') → trim_start_str s = s.
Proof. intros H. unfold trim_start_str. by apply strip_all_none. Qed.

Lemma trim_end_str_white_space w s :
  w ∈ white_space → trim_end_str (s +:+ w) = trim_end_str s.
Proof.
  intros Hw. unfold trim_end_str. f_equal.
  rewrite <- (rev_length (s +:+ w)), <- (rev_length s), rev_app_distr.
  apply strip_all_app; [apply white_space_rev_prefix_code|].
  apply list_elem_of_fmap. by exists w.
Qed.

Lemma trim_end_str_none s :
  (∀ w s', w ∈ white_space → s ≠ s' +:+ w) → trim_end_str s = s.
Proof.
  intros H. unfold trim_end_str. rewrite strip_all_none.
  - apply rev_involutive.
  - intros w' t [w [-> Hw]]%list_elem_of_fmap E.
    apply (H w (String.rev t) Hw).
    rewrite <- (rev_involutive s), E, rev_app_distr. by rewrite rev_involutive.
Qed.

(** *** Paths and in-place updates *)

Lemma get_update_same p f d : get p (update p f d) = f <$> get p d.
Proof.
  revert d. induction p as [|i p IH]; intros d; [done|].
  destruct d as [t a cs|s]; simpl; [|done].
  rewrite list_lookup_alter_eq.
  destruct (cs !! i) as [c|]; simpl; [apply IH|done].
Qed.

Lemma get_child t a pre c post p :
  get (length pre :: p) (Elem t a (pre ++ c :: post)) = get p c.
Proof. simpl. by rewrite list_lookup_middle. Qed.

Lemma update_child t a pre c post p f :
  update (length pre :: p) f (Elem t a (pre ++ c :: post))
  = Elem t a (pre ++ update p f c :: post).
Proof.
  simpl. f_equal. rewrite alter_app_r_alt by lia.
  by rewrite Nat.sub_diag.
Qed.

Lemma indexed_from_app {A} k (l1 l2 : list A) :
  indexed_from k (l1 ++ l2)
  = indexed_from k l1 ++ indexed_from (k + length l1) l2.
Proof.
  revert k. induction l1 as [|x l1 IH]; intros k; simpl.
  - by rewrite Nat.add_0_r.
  - rewrite IH. do 3 f_equal. lia.
Qed.

Lemma indexed_from_fmap {A B} (f : A → B) k (l : list A) :
  indexed_from k (f <$> l) = (λ kp, (kp.1, f kp.2)) <$> indexed_from k l.
Proof. revert k. induction l as [|x l IH]; intros k; simpl; [done|]. by rewrite IH. Qed.

Definition nmeta (n : node) : nat := length (paths is_metadata n).

Definition nmeta_forest (l : list node) : nat :=
  length (paths_forest is_metadata 0 l).

Lemma paths_forest_length sel i j l :
  length (paths_forest sel i l) = length (paths_forest sel j l).
Proof.
  revert i j. induction l as [|c l IH]; intros i j; simpl; [done|].
  rewrite !length_app, !length_fmap. by rewrite (IH (S i) (S j)).
Qed.

Section selectors_of_metadata.
Variable sel : string → list (string * string) → bool.
Hypothesis sel_metadata : ∀ t a, sel t a = true → String.eqb t "metadata" = true.

Lemma no_metadata_paths n : no_metadata n = true → paths sel n = [].
Proof.
  induction n as [s|t a cs IH] using node_forall_ind; [done|].
  simpl no_metadata. intros [Ht Hcs]%andb_true_iff.
  rewrite paths_Elem.
  destruct (sel t a) eqn:Es.
  { apply sel_metadata in Es. rewrite Es in Ht. done. }
  simpl. generalize 0%nat.
  induction cs as [|c cs IHcs]; intros i; simpl; [done|].
  simpl in Hcs. apply andb_true_iff in Hcs as [Hc Hcs].
  apply Forall_cons in IH as [IHc IH].
  rewrite (IHc Hc). simpl. by apply IHcs.
Qed.

Lemma no_metadata_paths_forest i l :
  forallb no_metadata l = true → paths_forest sel i l = [].
Proof.
  revert i. induction l as [|c l IH]; intros i; simpl; [done|].
  intros [Hc Hl]%andb_true_iff.
  by rewrite (no_metadata_paths c Hc), (IH _ Hl).
Qed.

End selectors_of_metadata.

Lemma is_metadata_sel t a : is_metadata t a = true → String.eqb t "metadata" = true.
Proof. done. Qed.

Lemma metadata_with_id_sel id t a :
  metadata_with_id id t a = true → String.eqb t "metadata" = true.
Proof. unfold metadata_with_id. by intros [? _]%andb_true_iff. Qed.

(** *** Arrays of plain ids *)

Lemma replace_fold_None (arr : list (string * markup)) :
  foldl (λ svgDoc entry, svgDoc ≫= λ d, replace_step d entry) None arr
  = None.
Proof. induction arr as [|e arr IH]; [done|apply IH]. Qed.

Lemma replaceSvgMetadata_plain svg arr :
  Forall (λ e, plain_id e.1 = true) arr →
  replaceSvgMetadata svg arr = Some (foldl replace_found svg arr).
Proof.
  unfold replaceSvgMetadata. revert svg.
  induction arr as [|e arr IH]; intros svg Hall; [done|].
  apply Forall_cons in Hall as [He Hall].
  cbn [foldl mbind option_bind]. unfold replace_step at 2. rewrite He.
  by apply IH.
Qed.

Lemma replaceSvgMetadata_Some svg arr d :
  replaceSvgMetadata svg arr = Some d →
  Forall (λ e, plain_id e.1 = true) arr ∧ d = foldl replace_found svg arr.
Proof.
  unfold replaceSvgMetadata. revert svg.
  induction arr as [|e arr IH]; intros svg H.
  - split; [constructor|]. by injection H as <-.
  - cbn [foldl mbind option_bind] in H. unfold replace_step at 2 in H.
    destruct (plain_id e.1) eqn:He.
    + apply IH in H as [Hall ->]. split; [by constructor|done].
    + by rewrite replace_fold_None in H.
Qed.

Lemma plain_id_app s1 s2 :
  plain_id (s1 +:+ s2) = plain_id s1 && plain_id s2.
Proof.
  induction s1 as [|c s1 IH]; [done|].
  change (String c s1 +:+ s2) with (String c (s1 +:+ s2)).
  cbn [plain_id]. rewrite IH. by rewrite andb_assoc.
Qed.

Lemma plain_id_pretty_N_go x s :
  plain_id s = true → plain_id (pretty_N_go x s) = true.
Proof.
  revert s. induction (N.lt_wf_0 x) as [x _ IH]; intros s Hs.
  assert (x = 0 ∨ 0 < x)%N as [->|Hx] by lia.
  - by rewrite pretty_N_go_0.
  - rewrite pretty_N_go_step by done. apply IH.
    + by apply N.div_lt.
    + cbn [plain_id]. rewrite Hs, andb_true_r.
      unfold pretty_N_char. by repeat case_match.
Qed.

(** The ids that [extractAndEnhanceMetadata] makes are plain. *)
Lemma plain_id_metadata_id index : plain_id (metadata_id index) = true.
Proof.
  unfold metadata_id. rewrite plain_id_app. apply andb_true_iff.
  split; [done|].
  unfold pretty, pretty_nat, pretty, pretty_N.
  case_decide; [done|]. by apply plain_id_pretty_N_go.
Qed.

(** *** A loop over the metadata elements is a traversal

    A [forEach] over the metadata elements that changes each element in
    place (by [F index]) and records something about it (by [O index])
    visits a document without nested metadata elements from left to right;
    the index of the first metadata element of a subtree is the number of
    metadata elements before it. *)

Section local_fold.
Context {A : Type}.
Variable F : nat → node → node.
Variable O : nat → option node → A.

Definition local_step (st : node * list A) (kp : nat * path) : node * list A :=
  (update kp.2 (F kp.1) st.1, st.2 ++ [O kp.1 (get kp.2 st.1)]).

Fixpoint visit (k : nat) (n : node) : node :=
  match n with
  | Text s => Text s
  | Elem t a cs =>
      if String.eqb t "metadata" then F k n
      else Elem t a
             ((fix go (k : nat) (l : list node) : list node :=
                 match l with
                 | [] => []
                 | c :: l' => visit k c :: go (k + nmeta c)%nat l'
                 end) k cs)
  end.

Fixpoint visit_forest (k : nat) (l : list node) : list node :=
  match l with
  | [] => []
  | c :: l' => visit k c :: visit_forest (k + nmeta c)%nat l'
  end.

Fixpoint visit_out (k : nat) (n : node) : list A :=
  match n with
  | Text s => []
  | Elem t a cs =>
      if String.eqb t "metadata" then [O k (Some n)]
      else (fix go (k : nat) (l : list node) : list A :=
              match l with
              | [] => []
              | c :: l' => visit_out k c ++ go (k + nmeta c)%nat l'
              end) k cs
  end.

Fixpoint visit_out_forest (k : nat) (l : list node) : list A :=
  match l with
  | [] => []
  | c :: l' => visit_out k c ++ visit_out_forest (k + nmeta c)%nat l'
  end.

Lemma visit_Elem k t a cs :
  visit k (Elem t a cs)
  = if String.eqb t "metadata" then F k (Elem t a cs)
    else Elem t a (visit_forest k cs).
Proof.
  cbn [visit]. destruct (String.eqb t "metadata"); reflexivity.
Qed.

Lemma visit_out_Elem k t a cs :
  visit_out k (Elem t a cs)
  = if String.eqb t "metadata" then [O k (Some (Elem t a cs))]
    else visit_out_forest k cs.
Proof.
  cbn [visit_out]. destruct (String.eqb t "metadata"); reflexivity.
Qed.

Lemma local_step_lift kps t a pre c post x :
  foldl local_step (Elem t a (pre ++ c :: post), x)
    ((λ kp, (kp.1, length pre :: kp.2)) <$> kps)
  = (Elem t a (pre ++ (foldl local_step (c, x) kps).1 :: post),
     (foldl local_step (c, x) kps).2).
Proof.
  revert c x. induction kps as [|[k p] kps IH]; intros c x; [done|].
  cbn [fmap list_fmap foldl]. unfold local_step at 2 4 6. cbn [fst snd].
  rewrite update_child, get_child. apply IH.
Qed.

Definition fold_is_visit (n : node) : Prop :=
  ∀ k x,
    foldl local_step (n, x) (indexed_from k (paths is_metadata n))
    = (visit k n, x ++ visit_out k n).

Lemma fold_forest t a cs :
  Forall fold_is_visit cs →
  ∀ pre k x,
    foldl local_step (Elem t a (pre ++ cs), x)
      (indexed_from k (paths_forest is_metadata (length pre) cs))
    = (Elem t a (pre ++ visit_forest k cs), x ++ visit_out_forest k cs).
Proof.
  induction 1 as [|c cs Hc Hcs IH]; intros pre k x.
  - simpl. by rewrite !app_nil_r.
  - cbn [paths_forest visit_forest visit_out_forest].
    rewrite indexed_from_app, foldl_app, indexed_from_fmap.
    rewrite local_step_lift, (Hc k x). cbn [fst snd].
    rewrite length_fmap.
    rewrite (cons_middle (visit k c) pre cs), app_assoc.
    replace (S (length pre)) with (length (pre ++ [visit k c]))
      by (rewrite length_app; simpl; lia).
    rewrite IH. unfold nmeta.
    by rewrite <- !app_assoc.
Qed.

Lemma fold_visit n : flat n = true → fold_is_visit n.
Proof.
  induction n as [s|t a cs IH] using node_forall_ind; intros Hflat k x.
  - simpl. by rewrite app_nil_r.
  - rewrite paths_Elem, visit_Elem, visit_out_Elem.
    simpl in Hflat. unfold is_metadata at 1.
    destruct (String.eqb t "metadata") eqn:Et.
    + rewrite (no_metadata_paths_forest _ is_metadata_sel) by done.
      reflexivity.
    + simpl. apply (fold_forest t a cs) with (pre := []).
      apply Forall_forall. intros c Hc.
      rewrite Forall_forall in IH. apply IH; [done|].
      rewrite forallb_forall in Hflat. apply Hflat.
      by apply list_elem_of_In.
Qed.

Lemma fold_updates (l : list (nat * path)) d x :
  (foldl local_step (d, x) l).1
  = foldl (λ d kp, update kp.2 (F kp.1) d) d l.
Proof.
  revert d x. induction l as [|kp l IH]; intros d x; [done|].
  simpl. apply IH.
Qed.

End local_fold.

Lemma foldl_ext_in {S X} (f g : S → X → S) (l : list X) (s : S) :
  (∀ s x, f s x = g s x) → foldl f s l = foldl g s l.
Proof.
  intros H. revert s. induction l as [|x l IH]; intros s; [done|].
  simpl. by rewrite H, IH.
Qed.

Section local_fold_length.
Context {A : Type}.
Variable F : nat → node → node.
Variable O : nat → option node → A.

Lemma visit_out_length n k :
  flat n = true → length (visit_out O k n) = nmeta n.
Proof.
  revert k. induction n as [s|t a cs IH] using node_forall_ind;
    intros k Hflat; [done|].
  rewrite visit_out_Elem. unfold nmeta. rewrite paths_Elem.
  simpl in Hflat. unfold is_metadata at 1.
  destruct (String.eqb t "metadata") eqn:Et.
  - by rewrite (no_metadata_paths_forest _ is_metadata_sel).
  - simpl. generalize 0%nat. revert k.
    induction cs as [|c cs IHcs]; intros k i; [done|].
    simpl in Hflat. apply andb_true_iff in Hflat as [Hc Hcs].
    apply Forall_cons in IH as [IHc IH].
    simpl. rewrite !length_app, length_fmap, (IHc k Hc).
    by rewrite (IHcs IH Hcs (k + nmeta c)%nat (S i)).
Qed.

End local_fold_length.

(** *** The enhanced document and the metadata array *)

(** What the loop of [extractAndEnhanceMetadata] does to the element with a
    given index, and what it records about it. *)
Definition label (index : nat) : node → node :=
  set_attr "id" (metadata_id index).

Definition record (index : nat) (element : option node) : string * markup :=
  (metadata_id index,
   trim (from_option node_children [] (label index <$> element))).

Lemma extract_step_local st kp :
  extract_step st kp = local_step label record st kp.
Proof.
  destruct st as [d arr], kp as [k p].
  unfold extract_step, local_step, record, innerHTML, label. cbn [fst snd].
  rewrite get_update_same. by destruct (get p d).
Qed.

Lemma extract_flat doc :
  flat doc = true →
  extractAndEnhanceMetadata doc
  = (visit label 0 doc, visit_out record 0 doc).
Proof.
  intros Hflat. unfold extractAndEnhanceMetadata, indexed, querySelectorAll.
  rewrite (foldl_ext_in _ _ _ _ extract_step_local).
  by rewrite (fold_visit label record doc Hflat).
Qed.

Lemma getAttribute_setAttribute name value a :
  getAttribute name (setAttribute name value a) = Some value.
Proof.
  induction a as [|[n v] a IH]; simpl.
  - by rewrite String.eqb_refl.
  - destruct (String.eqb n name) eqn:E; simpl; by rewrite E.
Qed.

Lemma append_inj_r (p a b : string) : p +:+ a = p +:+ b → a = b.
Proof.
  induction p as [|c p IH]; [done|].
  intros H. apply IH. by injection H.
Qed.

Lemma metadata_id_inj k j : metadata_id k = metadata_id j → k = j.
Proof.
  unfold metadata_id. intros H%append_inj_r. by apply (inj pretty).
Qed.

Lemma label_Elem k t a cs :
  label k (Elem t a cs) = Elem t (setAttribute "id" (metadata_id k) a) cs.
Proof. done. Qed.

Lemma no_metadata_flat n : no_metadata n = true → flat n = true.
Proof.
  induction n as [s|t a cs IH] using node_forall_ind; [done|].
  simpl. intros [Ht Hcs]%andb_true_iff.
  destruct (String.eqb t "metadata"); [done|].
  rewrite forallb_forall in Hcs. rewrite Forall_forall in IH.
  apply forallb_forall. intros c Hc.
  apply IH; [by apply list_elem_of_In|by apply Hcs].
Qed.

Lemma visit_label_paths n k :
  flat n = true →
  paths is_metadata (visit label k n) = paths is_metadata n.
Proof.
  revert k. induction n as [s|t a cs IH] using node_forall_ind;
    intros k Hflat; [done|].
  rewrite visit_Elem. simpl in Hflat.
  destruct (String.eqb t "metadata") eqn:Et.
  - rewrite label_Elem, !paths_Elem. unfold is_metadata. by rewrite Et.
  - rewrite !paths_Elem. f_equal. generalize 0%nat. revert k.
    induction cs as [|c cs IHcs]; intros k i; [done|].
    simpl in Hflat. apply andb_true_iff in Hflat as [Hc Hcs].
    apply Forall_cons in IH as [IHc IH].
    simpl. rewrite (IHc k Hc). by rewrite (IHcs IH Hcs).
Qed.

Lemma visit_label_nmeta n k :
  flat n = true → nmeta (visit label k n) = nmeta n.
Proof. intros H. unfold nmeta. by rewrite visit_label_paths. Qed.

Lemma visit_label_flat n k :
  flat n = true → flat (visit label k n) = true.
Proof.
  revert k. induction n as [s|t a cs IH] using node_forall_ind;
    intros k Hflat; [done|].
  rewrite visit_Elem. simpl in Hflat.
  destruct (String.eqb t "metadata") eqn:Et.
  - rewrite label_Elem. simpl. by rewrite Et.
  - simpl. rewrite Et. revert k.
    induction cs as [|c cs IHcs]; intros k; [done|].
    simpl in Hflat. apply andb_true_iff in Hflat as [Hc Hcs].
    apply Forall_cons in IH as [IHc IH].
    simpl. rewrite (IHc k Hc). simpl. by apply IHcs.
Qed.

(** *** Which element a metadata id selects in the enhanced document *)

(** The element of a list whose index is [k], counted from [k0]. *)
Definition nth_from (k0 k : nat) (l : list path) : option path :=
  if decide (k0 ≤ k)%nat then l !! (k - k0)%nat else None.

Lemma nth_from_app k0 k l1 l2 :
  option_list (nth_from k0 k (l1 ++ l2))
  = option_list (nth_from k0 k l1)
      ++ option_list (nth_from (k0 + length l1) k l2).
Proof.
  unfold nth_from.
  destruct (decide (k0 ≤ k)%nat) as [H|H].
  - destruct (decide (k - k0 < length l1)%nat) as [Hlt|Hge].
    + rewrite lookup_app_l by done.
      rewrite decide_False by lia. by rewrite app_nil_r.
    + rewrite lookup_app_r by lia.
      rewrite (lookup_ge_None_2 l1) by lia.
      rewrite decide_True by lia. simpl. do 2 f_equal. lia.
  - rewrite decide_False by lia. done.
Qed.

Lemma nth_from_fmap (f : path → path) k0 k l :
  option_list (nth_from k0 k (f <$> l)) = f <$> option_list (nth_from k0 k l).
Proof.
  unfold nth_from. destruct (decide (k0 ≤ k)%nat); [|done].
  rewrite list_lookup_fmap. by destruct (l !! (k - k0)%nat).
Qed.

Lemma with_id_paths n :
  flat n = true →
  ∀ k0 k,
    paths (metadata_with_id (metadata_id k)) (visit label k0 n)
    = option_list (nth_from k0 k (paths is_metadata n)).
Proof.
  induction n as [s|t a cs IH] using node_forall_ind; intros Hflat k0 k.
  - simpl. unfold nth_from. by destruct (decide _).
  - rewrite visit_Elem. simpl in Hflat.
    destruct (String.eqb t "metadata") eqn:Et.
    + rewrite label_Elem, !paths_Elem.
      rewrite (no_metadata_paths_forest _ (metadata_with_id_sel _)) by done.
      rewrite (no_metadata_paths_forest _ is_metadata_sel) by done.
      unfold metadata_with_id, is_metadata. rewrite Et.
      rewrite getAttribute_setAttribute. cbn [andb]. unfold nth_from.
      destruct (decide (k0 = k)) as [->|Hne].
      * rewrite bool_decide_true by done.
        rewrite decide_True by lia. by rewrite Nat.sub_diag.
      * rewrite bool_decide_false
          by (intros H; apply Hne, metadata_id_inj; congruence).
        destruct (decide (k0 ≤ k)%nat) as [Hle|]; [|done].
        destruct (k - k0)%nat as [|m] eqn:E; [lia|done].
    + rewrite !paths_Elem. unfold metadata_with_id at 1, is_metadata at 1.
      rewrite Et. cbn [andb app]. generalize 0%nat. revert k0.
      induction cs as [|c cs IHcs]; intros k0 i.
      * simpl. unfold nth_from. by destruct (decide _).
      * simpl in Hflat. apply andb_true_iff in Hflat as [Hc Hcs].
        apply Forall_cons in IH as [IHc IH].
        cbn [visit_forest paths_forest].
        rewrite nth_from_app, nth_from_fmap, length_fmap.
        rewrite (IHc Hc k0 k), (IHcs IH Hcs (k0 + nmeta c)%nat (S i)).
        done.
Qed.

(** *** The entries of the metadata array *)

Lemma trim_start_no_metadata m :
  forallb no_metadata m = true → forallb no_metadata (trim_start m) = true.
Proof.
  induction m as [|c m IH]; [done|].
  destruct c as [t a cs|s]; [done|].
  intros H. simpl in H. cbn [trim_start].
  destruct (String.eqb _ ""); [by apply IH|done].
Qed.

Lemma trim_end_rev_no_metadata m :
  forallb no_metadata m = true → forallb no_metadata (trim_end_rev m) = true.
Proof.
  induction m as [|c m IH]; [done|].
  destruct c as [t a cs|s]; [done|].
  intros H. simpl in H. cbn [trim_end_rev].
  destruct (String.eqb _ ""); [by apply IH|done].
Qed.

Lemma forallb_reverse {X} (f : X → bool) l :
  forallb f (reverse l) = forallb f l.
Proof.
  induction l as [|x l IH]; [done|].
  rewrite reverse_cons, forallb_app, IH. simpl.
  rewrite andb_true_r. apply andb_comm.
Qed.

Lemma trim_no_metadata m :
  forallb no_metadata m = true → forallb no_metadata (trim m) = true.
Proof.
  intros H. unfold trim, trim_end. rewrite forallb_reverse.
  apply trim_end_rev_no_metadata. rewrite forallb_reverse.
  by apply trim_start_no_metadata.
Qed.

Lemma record_entries n :
  flat n = true →
  ∀ k0 j e,
    visit_out record k0 n !! j = Some e →
    e.1 = metadata_id (k0 + j) ∧ forallb no_metadata e.2 = true.
Proof.
  induction n as [s|t a cs IH] using node_forall_ind; intros Hflat k0 j e.
  - done.
  - rewrite visit_out_Elem. simpl in Hflat.
    destruct (String.eqb t "metadata") eqn:Et.
    + destruct j as [|j]; [|done]. intros [= <-].
      rewrite Nat.add_0_r. split; [done|].
      simpl. by apply trim_no_metadata.
    + revert k0 j.
      induction cs as [|c cs IHcs]; intros k0 j; [done|].
      simpl in Hflat. apply andb_true_iff in Hflat as [Hc Hcs].
      apply Forall_cons in IH as [IHc IH].
      cbn [visit_out_forest]. intros Hj.
      apply lookup_app_Some in Hj as [Hj|[Hlen Hj]].
      * by apply (IHc Hc k0 j e).
      * rewrite (visit_out_length record c k0 Hc) in Hlen, Hj.
        destruct (IHcs IH Hcs _ _ Hj) as [H1 H2].
        split; [|done]. rewrite H1. f_equal. lia.
Qed.

(** *** Replacing the content of a metadata element

    The document without the contents of its metadata elements: what the
    selectors of [replaceSvgMetadata] depend on. *)

Fixpoint skeleton (n : node) : node :=
  match n with
  | Text s => Text s
  | Elem t a cs =>
      if String.eqb t "metadata" then Elem t a []
      else Elem t a (skeleton <$> cs)
  end.

Section skeleton_paths.
Variable sel : string → list (string * string) → bool.
Hypothesis sel_metadata : ∀ t a, sel t a = true → String.eqb t "metadata" = true.

Lemma paths_skeleton n : flat n = true → paths sel (skeleton n) = paths sel n.
Proof.
  induction n as [s|t a cs IH] using node_forall_ind; intros Hflat; [done|].
  cbn [skeleton]. simpl in Hflat.
  destruct (String.eqb t "metadata") eqn:Et.
  - rewrite !paths_Elem.
    by rewrite (no_metadata_paths_forest _ sel_metadata 0 cs).
  - rewrite !paths_Elem. f_equal. generalize 0%nat.
    induction cs as [|c cs IHcs]; intros i; [done|].
    simpl in Hflat. apply andb_true_iff in Hflat as [Hc Hcs].
    apply Forall_cons in IH as [IHc IH].
    cbn [fmap list_fmap paths_forest].
    rewrite (IHc Hc). f_equal. by apply IHcs.
Qed.

End skeleton_paths.

Lemma elem_of_paths_forest sel p i cs :
  p ∈ paths_forest sel i cs →
  ∃ pre c post p',
    cs = pre ++ c :: post ∧ p = (i + length pre)%nat :: p'
    ∧ p' ∈ paths sel c.
Proof.
  revert i. induction cs as [|c cs IH]; intros i; simpl.
  - intros H. by apply not_elem_of_nil in H.
  - intros [H|H]%elem_of_app.
    + apply list_elem_of_fmap in H as (p' & -> & Hp').
      exists [], c, cs, p'. simpl. by rewrite Nat.add_0_r.
    + destruct (IH _ H) as (pre & c' & post & p' & -> & -> & Hp').
      exists (c :: pre), c', post, p'. simpl.
      split; [done|]. split; [|done]. f_equal. lia.
Qed.

Lemma update_metadata_content c d :
  forallb no_metadata c = true →
  flat d = true →
  ∀ p, p ∈ paths is_metadata d →
       flat (update p (set_children c) d) = true
       ∧ skeleton (update p (set_children c) d) = skeleton d.
Proof.
  intros Hc.
  induction d as [s|t a cs IH] using node_forall_ind; intros Hflat p Hp.
  - by apply not_elem_of_nil in Hp.
  - rewrite paths_Elem in Hp. simpl in Hflat. unfold is_metadata at 1 in Hp.
    destruct (String.eqb t "metadata") eqn:Et.
    + rewrite (no_metadata_paths_forest _ is_metadata_sel) in Hp by done.
      apply list_elem_of_singleton in Hp as ->.
      simpl. by rewrite Et.
    + simpl in Hp.
      apply elem_of_paths_forest in Hp
        as (pre & ci & post & p' & -> & -> & Hp').
      rewrite Nat.add_0_l, update_child.
      rewrite forallb_app in Hflat. simpl in Hflat.
      apply andb_true_iff in Hflat as [Hpre [Hci Hpost]%andb_true_iff].
      apply Forall_app in IH as [_ [IHc _]%Forall_cons].
      destruct (IHc Hci p' Hp') as [Hf Hs].
      split.
      * simpl. rewrite Et, forallb_app. simpl. by rewrite Hpre, Hf, Hpost.
      * simpl. rewrite Et, !fmap_app, !fmap_cons. by rewrite Hs.
Qed.

(** The content that the array has for an index. *)
Definition content_at (arr : list (string * markup)) (k : nat) : markup :=
  match arr !! k with
  | Some e => e.2
  | None => []
  end.

Definition restore (arr : list (string * markup)) (k : nat) : node → node :=
  set_children (content_at arr k).

(** When every id of the array selects the element of the same index, the
    loop of [replaceSvgMetadata] is a loop over the metadata elements. *)
Lemma replace_fold enh arr ps :
  flat enh = true →
  length arr = length ps →
  (∀ k p, ps !! k = Some p →
          paths (metadata_with_id (metadata_id k)) enh = [p]
          ∧ p ∈ paths is_metadata enh) →
  (∀ k e, arr !! k = Some e →
          e.1 = metadata_id k ∧ forallb no_metadata e.2 = true) →
  replaceSvgMetadata enh arr
  = Some (foldl (λ d kp, update kp.2 (restore arr kp.1) d) enh (indexed ps)).
Proof.
  intros Hflat Hlen Hps Harr.
  rewrite replaceSvgMetadata_plain.
  2:{ apply Forall_lookup. intros k e He.
      destruct (Harr k e He) as [-> _]. apply plain_id_metadata_id. }
  f_equal. unfold indexed.
  assert (Hgen : ∀ es k0 qs d,
             es = drop k0 arr → qs = drop k0 ps →
             flat d = true → skeleton d = skeleton enh →
             foldl replace_found d es
             = foldl (λ d kp, update kp.2 (restore arr kp.1) d) d
                 (indexed_from k0 qs)).
  { induction es as [|e es IH]; intros k0 qs d Hes Hqs Hd Hsk.
    - assert (length (drop k0 arr) = 0%nat) as Hl by (by rewrite <- Hes).
      rewrite length_drop in Hl.
      assert (qs = []) as ->; [|done].
      apply length_zero_iff_nil. rewrite Hqs, length_drop. lia.
    - assert (arr !! k0 = Some e) as Hk0.
      { rewrite <- (Nat.add_0_r k0), <- lookup_drop, <- Hes. done. }
      assert (k0 < length ps)%nat as Hlt.
      { rewrite <- Hlen. by apply lookup_lt_Some in Hk0. }
      destruct (lookup_lt_is_Some_2 ps k0 Hlt) as [p Hp].
      rewrite (drop_S ps p k0 Hp) in Hqs. subst qs.
      destruct (Hps k0 p Hp) as [Hsel Hin].
      destruct (Harr k0 e Hk0) as [Hid Hnm].
      cbn [foldl indexed_from fst snd].
      assert (replace_found d e = update p (restore arr k0) d) as ->.
      { unfold replace_found, querySelector. rewrite Hid.
        rewrite <- (paths_skeleton _ (metadata_with_id_sel _) d Hd), Hsk.
        rewrite (paths_skeleton _ (metadata_with_id_sel _) enh Hflat), Hsel.
        simpl. unfold restore, content_at. by rewrite Hk0. }
      assert (p ∈ paths is_metadata d) as Hin'.
      { rewrite <- (paths_skeleton _ is_metadata_sel d Hd), Hsk.
        by rewrite (paths_skeleton _ is_metadata_sel enh Hflat). }
      destruct (update_metadata_content (content_at arr k0) d) with (p := p)
        as [Hf' Hs']; [|done|done|].
      { unfold content_at. by rewrite Hk0. }
      apply IH.
      + rewrite (drop_S arr e k0 Hk0) in Hes. congruence.
      + done.
      + done.
      + by rewrite <- Hsk. }
  apply (Hgen arr 0%nat ps enh); by rewrite ?drop_0.
Qed.

(** *** The round trip *)

Lemma restore_visit arr n :
  flat n = true →
  ∀ k0,
    (∀ j, (j < nmeta n)%nat →
          arr !! (k0 + j)%nat = visit_out record k0 n !! j) →
    visit (restore arr) k0 (visit label k0 n)
    = trim_metadata (visit label k0 n).
Proof.
  induction n as [s|t a cs IH] using node_forall_ind; intros Hflat k0 Harr.
  - done.
  - rewrite (visit_Elem label). simpl in Hflat.
    destruct (String.eqb t "metadata") eqn:Et.
    + rewrite label_Elem, visit_Elem. cbn [trim_metadata]. rewrite Et.
      unfold restore, content_at. cbn [set_children].
      rewrite <- (Nat.add_0_r k0), Harr.
      * rewrite visit_out_Elem, Et. simpl. done.
      * unfold nmeta. rewrite paths_Elem. unfold is_metadata at 1.
        rewrite Et. simpl. lia.
    + rewrite visit_Elem. cbn [trim_metadata]. rewrite Et. f_equal.
      assert (Hout : ∀ j, (j < nmeta_forest cs)%nat →
                 arr !! (k0 + j)%nat = visit_out_forest record k0 cs !! j).
      { intros j Hj. rewrite Harr.
        - by rewrite visit_out_Elem, Et.
        - unfold nmeta. rewrite paths_Elem. unfold is_metadata at 1.
          by rewrite Et. }
      clear Harr. revert k0 Hout.
      induction cs as [|c cs IHcs]; intros k0 Hout; [done|].
      simpl in Hflat. apply andb_true_iff in Hflat as [Hc Hcs].
      apply Forall_cons in IH as [IHc IH].
      cbn [visit_forest fmap list_fmap].
      rewrite (visit_label_nmeta c k0 Hc).
      assert (Hsplit : nmeta_forest (c :: cs)
                       = (nmeta c + nmeta_forest cs)%nat).
      { unfold nmeta_forest, nmeta. simpl.
        rewrite length_app, length_fmap.
        by rewrite (paths_forest_length _ 1 0). }
      f_equal.
      * apply (IHc Hc). intros j Hj.
        rewrite Hout by lia. cbn [visit_out_forest].
        rewrite lookup_app_l; [done|].
        by rewrite (visit_out_length record c k0 Hc).
      * apply (IHcs IH Hcs). intros j Hj.
        replace (k0 + nmeta c + j)%nat with (k0 + (nmeta c + j))%nat by lia.
        rewrite Hout by lia. cbn [visit_out_forest].
        rewrite lookup_app_r
          by (rewrite (visit_out_length record c k0 Hc); lia).
        rewrite (visit_out_length record c k0 Hc). f_equal. lia.
Qed.

Lemma nth_from_0 k l : nth_from 0 k l = l !! k.
Proof. unfold nth_from. rewrite decide_True by lia. by rewrite Nat.sub_0_r. Qed.

(** For a document without nested metadata elements, replacing into the
    enhanced document what was extracted trims the content of every
    metadata element and changes nothing else. *)
Lemma roundtrip_flat doc :
  flat doc = true →
  replaceSvgMetadata (extractAndEnhanceMetadata doc).1
    (extractAndEnhanceMetadata doc).2
  = Some (trim_metadata (extractAndEnhanceMetadata doc).1).
Proof.
  intros Hflat. rewrite (extract_flat doc Hflat). cbn [fst snd].
  set (enh := visit label 0 doc). set (arr := visit_out record 0 doc).
  assert (Hfe : flat enh = true) by (by apply visit_label_flat).
  rewrite (replace_fold enh arr (paths is_metadata doc)).
  - f_equal. rewrite <- (visit_label_paths doc 0 Hflat).
    rewrite <- (fold_updates (restore arr) (λ _ _, tt) _ enh []).
    fold enh. unfold indexed.
    rewrite (fold_visit (restore arr) (λ _ _, tt) enh Hfe 0 []).
    cbn [fst]. apply (restore_visit arr doc Hflat 0). by intros j _.
  - done.
  - unfold arr. by rewrite (visit_out_length record doc 0 Hflat).
  - intros k p Hp. unfold enh.
    rewrite (with_id_paths doc Hflat 0 k), nth_from_0, Hp. split; [done|].
    rewrite (visit_label_paths doc 0 Hflat).
    apply list_elem_of_lookup. by exists k.
  - intros k e He. apply (record_entries doc Hflat 0 k e He).
Qed.

Lemma contents_trimmed_fixed n :
  contents_trimmed n = true → trim_metadata n = n.
Proof.
  induction n as [s|t a cs IH] using node_forall_ind; [done|].
  simpl. intros [Ht Hcs]%andb_true_iff.
  destruct (String.eqb t "metadata").
  - apply bool_decide_eq_true in Ht. by rewrite Ht.
  - f_equal. clear Ht.
    induction cs as [|c cs IHcs]; [done|].
    simpl in Hcs. apply andb_true_iff in Hcs as [Hc Hcs].
    apply Forall_cons in IH as [IHc IH].
    cbn [fmap list_fmap]. rewrite (IHc Hc). f_equal. by apply IHcs.
Qed.

Lemma visit_label_contents_trimmed n k :
  flat n = true →
  contents_trimmed (visit label k n) = contents_trimmed n.
Proof.
  revert k. induction n as [s|t a cs IH] using node_forall_ind;
    intros k Hflat; [done|].
  rewrite visit_Elem. simpl in Hflat.
  destruct (String.eqb t "metadata") eqn:Et.
  - rewrite label_Elem. simpl. by rewrite Et.
  - simpl. rewrite Et. simpl. revert k.
    induction cs as [|c cs IHcs]; intros k; [done|].
    simpl in Hflat. apply andb_true_iff in Hflat as [Hc Hcs].
    apply Forall_cons in IH as [IHc IH].
    simpl. rewrite (IHc k Hc). f_equal. by apply IHcs.
Qed.

(** *** The extraction on any document

    With nested metadata elements the loop still visits the elements in
    document order; the content of an element is read when the element is
    visited, before the elements inside it get their ids. *)

Section local_fold_forest.
Context {A : Type}.
Variable F : nat → node → node.
Variable O : nat → option node → A.
Variable T : nat → node → node.
Variable TO : nat → node → list A.

Fixpoint map_forest (k : nat) (l : list node) : list node :=
  match l with
  | [] => []
  | c :: l' => T k c :: map_forest (k + nmeta c)%nat l'
  end.

Fixpoint out_forest (k : nat) (l : list node) : list A :=
  match l with
  | [] => []
  | c :: l' => TO k c ++ out_forest (k + nmeta c)%nat l'
  end.

Definition fold_is (n : node) : Prop :=
  ∀ k x,
    foldl (local_step F O) (n, x) (indexed_from k (paths is_metadata n))
    = (T k n, x ++ TO k n).

Lemma fold_forest_any t a cs :
  Forall fold_is cs →
  ∀ pre k x,
    foldl (local_step F O) (Elem t a (pre ++ cs), x)
      (indexed_from k (paths_forest is_metadata (length pre) cs))
    = (Elem t a (pre ++ map_forest k cs), x ++ out_forest k cs).
Proof.
  induction 1 as [|c cs Hc Hcs IH]; intros pre k x.
  - simpl. by rewrite !app_nil_r.
  - cbn [paths_forest map_forest out_forest].
    rewrite indexed_from_app, foldl_app, indexed_from_fmap.
    rewrite local_step_lift, (Hc k x). cbn [fst snd].
    rewrite length_fmap.
    rewrite (cons_middle (T k c) pre cs), app_assoc.
    replace (S (length pre)) with (length (pre ++ [T k c]))
      by (rewrite length_app; simpl; lia).
    rewrite IH. unfold nmeta.
    by rewrite <- !app_assoc.
Qed.

End local_fold_forest.

Fixpoint enhance (k : nat) (n : node) : node :=
  match n with
  | Text s => Text s
  | Elem t a cs =>
      let m := String.eqb t "metadata" in
      Elem t (if m then setAttribute "id" (metadata_id k) a else a)
        ((fix go (k : nat) (l : list node) : list node :=
            match l with
            | [] => []
            | c :: l' => enhance k c :: go (k + nmeta c)%nat l'
            end) (if m then S k else k) cs)
  end.

Fixpoint contents (k : nat) (n : node) : list (string * markup) :=
  match n with
  | Text s => []
  | Elem t a cs =>
      let m := String.eqb t "metadata" in
      (if m then [(metadata_id k, trim cs)] else [])
        ++ (fix go (k : nat) (l : list node) : list (string * markup) :=
              match l with
              | [] => []
              | c :: l' => contents k c ++ go (k + nmeta c)%nat l'
              end) (if m then S k else k) cs
  end.

Lemma enhance_Elem k t a cs :
  enhance k (Elem t a cs)
  = let m := String.eqb t "metadata" in
    Elem t (if m then setAttribute "id" (metadata_id k) a else a)
      (map_forest enhance (if m then S k else k) cs).
Proof. reflexivity. Qed.

Lemma contents_Elem k t a cs :
  contents k (Elem t a cs)
  = let m := String.eqb t "metadata" in
    (if m then [(metadata_id k, trim cs)] else [])
      ++ out_forest contents (if m then S k else k) cs.
Proof. reflexivity. Qed.

Lemma extract_fold n : fold_is label record enhance contents n.
Proof.
  induction n as [s|t a cs IH] using node_forall_ind; intros k x.
  - simpl. by rewrite app_nil_r.
  - rewrite paths_Elem, enhance_Elem, contents_Elem. unfold is_metadata at 1.
    cbn zeta.
    destruct (String.eqb t "metadata") eqn:Et.
    + cbn [app indexed_from foldl]. unfold local_step at 2. cbn [fst snd].
      cbn [update get]. rewrite label_Elem.
      rewrite (fold_forest_any label record enhance contents t _ cs IH []).
      unfold record. simpl. by rewrite <- app_assoc.
    + apply (fold_forest_any label record enhance contents t a cs IH []).
Qed.

Lemma extract_any doc :
  extractAndEnhanceMetadata doc = (enhance 0 doc, contents 0 doc).
Proof.
  unfold extractAndEnhanceMetadata, indexed, querySelectorAll.
  rewrite (foldl_ext_in _ _ _ _ extract_step_local).
  by rewrite (extract_fold doc 0 []).
Qed.

Lemma contents_length n k : length (contents k n) = nmeta n.
Proof.
  revert k. induction n as [s|t a cs IH] using node_forall_ind;
    intros k; [done|].
  rewrite contents_Elem. unfold nmeta. rewrite paths_Elem.
  unfold is_metadata at 1. cbn zeta. rewrite !length_app.
  assert (Hf : ∀ k i, length (out_forest contents k cs)
                      = length (paths_forest is_metadata i cs)).
  { clear k. induction cs as [|c cs IHcs]; intros k i; [done|].
    apply Forall_cons in IH as [IHc IH].
    simpl. rewrite !length_app, length_fmap, (IHc k).
    by rewrite (IHcs IH (k + nmeta c)%nat (S i)). }
  rewrite (Hf _ 0%nat). by destruct (String.eqb t "metadata").
Qed.

Definition extracted (k j : nat) (orig enh : option node)
    (entry : option (string * markup)) : Prop :=
  ∃ a cs cs',
    orig = Some (Elem "metadata" a cs)
    ∧ enh = Some (Elem "metadata"
                    (setAttribute "id" (metadata_id (k + j)) a) cs')
    ∧ entry = Some (metadata_id (k + j), trim cs).

Lemma extract_element_forest cs :
  Forall (λ n, ∀ k j p, paths is_metadata n !! j = Some p →
                        extracted k j (get p n) (get p (enhance k n))
                          (contents k n !! j)) cs →
  ∀ k i j p,
    paths_forest is_metadata i cs !! j = Some p →
    ∃ i' p',
      p = (i + i')%nat :: p'
      ∧ extracted k j (cs !! i' ≫= get p')
          (map_forest enhance k cs !! i' ≫= get p')
          (out_forest contents k cs !! j).
Proof.
  induction 1 as [|c cs Hc Hcs IH]; intros k i j p Hp; [done|].
  cbn [paths_forest] in Hp. cbn [map_forest out_forest].
  apply lookup_app_Some in Hp as [Hp|[Hlen Hp]].
  - rewrite list_lookup_fmap in Hp.
    destruct (paths is_metadata c !! j) as [p'|] eqn:Hp'; [|done].
    injection Hp as <-. exists 0%nat, p'.
    split; [by rewrite Nat.add_0_r|]. cbn [lookup list_lookup mbind option_bind].
    rewrite lookup_app_l
      by (rewrite contents_length; by apply lookup_lt_Some in Hp').
    by apply Hc.
  - rewrite length_fmap in Hlen, Hp. fold (nmeta c) in Hlen, Hp.
    destruct (IH (k + nmeta c)%nat (S i) _ p Hp) as (i' & p' & -> & Hex).
    exists (S i'), p'. split; [f_equal; lia|].
    cbn [lookup list_lookup].
    rewrite lookup_app_r by (rewrite contents_length; lia).
    rewrite contents_length. unfold extracted in *.
    replace (k + nmeta c + (j - nmeta c))%nat with (k + j)%nat in Hex by lia.
    exact Hex.
Qed.

(** The element with index [j]: its id in the enhanced document and its
    entry in the array. *)
Lemma extract_element n k j p :
  paths is_metadata n !! j = Some p →
  extracted k j (get p n) (get p (enhance k n)) (contents k n !! j).
Proof.
  revert k j p.
  induction n as [s|t a cs IH] using node_forall_ind; intros k j p Hp.
  - done.
  - rewrite paths_Elem in Hp. rewrite enhance_Elem, contents_Elem.
    unfold is_metadata at 1 in Hp. cbn zeta.
    destruct (String.eqb_spec t "metadata") as [->|Hne].
    + destruct j as [|j].
      * injection Hp as <-. unfold extracted. rewrite Nat.add_0_r.
        eexists _, _, _. split; [done|]. split; [done|]. done.
      * cbn [app lookup list_lookup] in Hp.
        destruct (extract_element_forest cs IH (S k) 0%nat j p Hp)
          as (i' & p' & -> & Hex).
        unfold extracted in *.
        replace (k + S j)%nat with (S k + j)%nat by lia.
        exact Hex.
    + destruct (extract_element_forest cs IH k 0%nat j p Hp)
        as (i' & p' & -> & Hex).
      exact Hex.
Qed.


(** *** Examples *)

Definition sample : node :=
  Elem "svg" [("width", "10")]
    [ Elem "metadata" [] [Text " "; Elem "rdf" [] [Text "a"]; Text "  "];
      Elem "g" [("id", "layer1")]
        [ Elem "metadata" [("id", "old")] [Text "x y  "];
          Elem "rect" [] [] ] ].

Definition sample_trimmed : node :=
  Elem "svg" [("width", "10")]
    [ Elem "metadata" [] [Elem "rdf" [] [Text "a"]];
      Elem "g" [("id", "layer1")]
        [ Elem "metadata" [("id", "old")] [Text "x y"];
          Elem "rect" [] [] ] ].

(** A metadata element inside a metadata element. *)
Definition nested : node :=
  Elem "svg" []
    [Elem "metadata" [] [Elem "metadata" [] [Text "x"]]].

Lemma extract_sample :
  extractAndEnhanceMetadata sample
  = (Elem "svg" [("width", "10")]
       [ Elem "metadata" [("id", "my-metadata-0")]
           [Text " "; Elem "rdf" [] [Text "a"]; Text "  "];
         Elem "g" [("id", "layer1")]
           [ Elem "metadata" [("id", "my-metadata-1")] [Text "x y  "];
             Elem "rect" [] [] ] ],
     [ ("my-metadata-0", [Elem "rdf" [] [Text "a"]]);
       ("my-metadata-1", [Text "x y"]) ]).
Proof. by vm_compute. Qed.

Lemma extract_nested :
  extractAndEnhanceMetadata nested
  = (Elem "svg" []
       [Elem "metadata" [("id", "my-metadata-0")]
          [Elem "metadata" [("id", "my-metadata-1")] [Text "x"]]],
     [ ("my-metadata-0", [Elem "metadata" [] [Text "x"]]);
       ("my-metadata-1", [Text "x"]) ]).
Proof. by vm_compute. Qed.

(** The round trip as C8 states it for a document whose metadata contents
    have no white space at either end: replacing what was extracted gives
    the enhanced document back. *)
Definition roundtrip_unchanged (doc : node) : Prop :=
  contents_trimmed doc = true →
  replaceSvgMetadata (extractAndEnhanceMetadata doc).1
    (extractAndEnhanceMetadata doc).2
  = Some (extractAndEnhanceMetadata doc).1.

(** C8, as stated, fails for nested metadata elements: in [nested] no
    content has white space at its ends, but the round trip does not give
    the enhanced document back. The content recorded for the outer element
    was read before the inner element got its id; assigning it replaces the
    inner element by one without id, which the second entry of the array
    then does not find. *)
Lemma C8_nested_metadata_roundtrip_differs :
  ¬ roundtrip_unchanged nested
  ∧ replaceSvgMetadata (extractAndEnhanceMetadata nested).1
      (extractAndEnhanceMetadata nested).2
    = Some (Elem "svg" []
              [Elem "metadata" [("id", "my-metadata-0")]
                 [Elem "metadata" [] [Text "x"]]])
  ∧ replaceSvgMetadata (extractAndEnhanceMetadata nested).1
      (extractAndEnhanceMetadata nested).2
    ≠ Some (trim_metadata (extractAndEnhanceMetadata nested).1).
Proof.
  split; [|split; [by vm_compute|]].
  - intros H. specialize (H eq_refl). vm_compute in H. discriminate H.
  - intros H. vm_compute in H. discriminate H.
Qed.

(** A document whose metadata contents are padded with white space that
    is not ASCII: a no-break space, an ideographic space and a byte order
    mark. *)
Definition sample_padded : node :=
  Elem "svg" []
    [ Elem "metadata" []
        [Text (utf8 0xA0 +:+ " x" +:+ utf8 0x3000 +:+ utf8 0xFEFF)];
      Elem "metadata" []
        [Text (utf8 0x2028); Elem "rdf" [] []; Text (utf8 0x2003)] ].

(** C8, amended. For every document, [extractAndEnhanceMetadata] gives the
    metadata element of index [i] in document order the id
    [my-metadata-i], and the array has, at index [i], that id with the
    trimmed content of the element. If no metadata element is inside
    another metadata element, [replaceSvgMetadata] applied to the enhanced
    document and the array returns the enhanced document in which the
    content of every metadata element is trimmed and nothing else is
    changed; in particular, if no metadata content has white space at its
    start or end, it returns the enhanced document itself. Trimming is that
    of [String.prototype.trim]: a string that starts (ends) with one of the
    white-space characters is trimmed at its start (end) as the string
    without that character is, and a string that starts (ends) with none of
    them is left as it is at that end; so content padded with no-break
    spaces is recorded without them. *)
Theorem C8_metadata_roundtrip_without_nesting (doc : node) :
  let enhanced := (extractAndEnhanceMetadata doc).1 in
  let metadataArray := (extractAndEnhanceMetadata doc).2 in
  length metadataArray = length (querySelectorAll is_metadata doc)
  ∧ (∀ index element,
       querySelectorAll is_metadata doc !! index = Some element →
       ∃ a content content',
         get element doc = Some (Elem "metadata" a content)
         ∧ get element enhanced
           = Some (Elem "metadata"
                     (setAttribute "id" (metadata_id index) a) content')
         ∧ metadataArray !! index
           = Some (metadata_id index, trim content))
  ∧ (flat doc = true →
       replaceSvgMetadata enhanced metadataArray
       = Some (trim_metadata enhanced)
       ∧ (contents_trimmed doc = true →
          replaceSvgMetadata enhanced metadataArray = Some enhanced))
  ∧ (∀ w s, w ∈ white_space →
       trim_start_str (w +:+ s) = trim_start_str s
       ∧ trim_end_str (s +:+ w) = trim_end_str s)
  ∧ (∀ s, (∀ w s', w ∈ white_space → s ≠ w +:+ s') → trim_start_str s = s)
  ∧ (∀ s, (∀ w s', w ∈ white_space → s ≠ s' +:+ w) → trim_end_str s = s)
  ∧ (extractAndEnhanceMetadata sample_padded).2
    = [("my-metadata-0", [Text "x"]); ("my-metadata-1", [Elem "rdf" [] []])]
  ∧ replaceSvgMetadata (extractAndEnhanceMetadata sample_padded).1
      (extractAndEnhanceMetadata sample_padded).2
    = Some (Elem "svg" []
              [ Elem "metadata" [("id", "my-metadata-0")] [Text "x"];
                Elem "metadata" [("id", "my-metadata-1")]
                  [Elem "rdf" [] []] ]).
Proof.
  cbn zeta. split; [|split; [|split; [|split; [|split; [|split; [|split]]]]]].
  - rewrite extract_any. cbn [snd]. apply contents_length.
  - intros index element He. rewrite extract_any. cbn [fst snd].
    apply (extract_element doc 0 index element He).
  - intros Hflat. split; [by apply roundtrip_flat|].
    intros Htrim. rewrite (roundtrip_flat doc Hflat). f_equal.
    apply contents_trimmed_fixed.
    rewrite (extract_flat doc Hflat). cbn [fst].
    by rewrite visit_label_contents_trimmed.
  - intros w s Hw. split;
      [by apply trim_start_str_white_space|by apply trim_end_str_white_space].
  - apply trim_start_str_none.
  - apply trim_end_str_none.
  - by vm_compute.
  - by vm_compute.
Qed.

(** The round trip on [sample], whose metadata contents have white space at
    their ends, and on [sample_trimmed], whose contents have none. *)
Lemma C8_roundtrip_samples :
  replaceSvgMetadata (extractAndEnhanceMetadata sample).1
    (extractAndEnhanceMetadata sample).2
  = Some (trim_metadata (extractAndEnhanceMetadata sample).1)
  ∧ replaceSvgMetadata (extractAndEnhanceMetadata sample_trimmed).1
      (extractAndEnhanceMetadata sample_trimmed).2
    = Some (extractAndEnhanceMetadata sample_trimmed).1.
Proof.
  split.
  - exact (proj1 (proj1 (proj2 (proj2
             (C8_metadata_roundtrip_without_nesting sample))) eq_refl)).
  - exact (proj2 (proj1 (proj2 (proj2
             (C8_metadata_roundtrip_without_nesting sample_trimmed)))
             eq_refl) eq_refl).
Defined.

End Metadata.

(** ** More on the DOM helpers: [addDomId] and [compareAndFillSvgDom] *)

Module DomHelpers.
Import Dom FillDom.

(** *** Paths and attribute updates *)

(** A matched path refers to an element that the selector accepts. *)
Lemma paths_get sel d p :
  p ∈ paths sel d →
  ∃ t a cs, get p d = Some (Elem t a cs) ∧ sel t a = true.
Proof.
  revert p. induction d as [s|t a cs IH] using node_forall_ind; intros p Hp.
  - by apply not_elem_of_nil in Hp.
  - rewrite paths_Elem in Hp. apply elem_of_app in Hp as [Hp|Hp].
    + destruct (sel t a) eqn:Es; [|by apply not_elem_of_nil in Hp].
      apply list_elem_of_singleton in Hp as ->. by exists t, a, cs.
    + apply Metadata.elem_of_paths_forest in Hp
        as (pre & c & post & p' & -> & -> & Hp').
      apply Forall_app in IH as [_ [IHc _]%Forall_cons].
      destruct (IHc p' Hp') as (t' & a' & cs' & Hg & Hs).
      exists t', a', cs'. split; [|done].
      rewrite Nat.add_0_l, Metadata.get_child. done.
Qed.

Lemma paths_forest_alter sel (g : node → node) cs :
  (∀ c, c ∈ cs → paths sel (g c) = paths sel c) →
  ∀ i k, paths_forest sel k (alter g i cs) = paths_forest sel k cs.
Proof.
  induction cs as [|c cs IH]; intros Hg i k; [done|].
  destruct i as [|i].
  - change (alter g 0%nat (c :: cs)) with (g c :: cs). simpl.
    rewrite Hg by (by left). done.
  - change (alter g (S i) (c :: cs)) with (c :: alter g i cs). simpl.
    rewrite IH; [done|]. intros c' Hc'. apply Hg. by right.
Qed.

(** Setting an attribute that the selector does not look at changes no
    selection. *)
Lemma paths_update_set_attr sel name value :
  (∀ t a, sel t (setAttribute name value a) = sel t a) →
  ∀ p d, paths sel (update p (set_attr name value) d) = paths sel d.
Proof.
  intros Hsel p. induction p as [|i p IH]; intros d.
  - destruct d as [t a cs|s]; [|done].
    simpl update. rewrite !paths_Elem. by rewrite Hsel.
  - destruct d as [t a cs|s]; [|done].
    simpl update. rewrite !paths_Elem. f_equal.
    apply paths_forest_alter. intros c _. apply IH.
Qed.

Lemma getAttribute_setAttribute_ne name name' value a :
  name ≠ name' →
  getAttribute name' (setAttribute name value a) = getAttribute name' a.
Proof.
  intros Hne. induction a as [|[n v] a IH]; simpl.
  - destruct (String.eqb_spec name name'); done.
  - destruct (String.eqb_spec n name) as [->|Hn]; simpl.
    + destruct (String.eqb_spec name name'); done.
    + destruct (String.eqb n name'); [done|apply IH].
Qed.

(** The same element: name and attributes (or text) agree; the children
    may differ. *)
Definition same_element (n n' : option node) : Prop :=
  match n, n' with
  | Some (Elem t a cs), Some (Elem t' a' cs') =>
      t = t' ∧ a = a' ∧ length cs = length cs'
  | Some (Text s), Some (Text s') => s = s'
  | None, None => True
  | _, _ => False
  end.

Lemma same_element_refl n : same_element n n.
Proof. destruct n as [[t a cs|s]|]; simpl; done. Qed.

Lemma same_element_trans n1 n2 n3 :
  same_element n1 n2 → same_element n2 n3 → same_element n1 n3.
Proof.
  destruct n1 as [[t1 a1 cs1|s1]|], n2 as [[t2 a2 cs2|s2]|],
    n3 as [[t3 a3 cs3|s3]|]; simpl; try done.
  - intros (-> & -> & Hl) (-> & -> & Hl'). repeat split; congruence.
  - congruence.
Qed.

(** An update by [set_attr] at one path leaves the elements at the other
    paths as they are. *)
Lemma update_set_attr_other name value p d q :
  q ≠ p →
  same_element (get q d) (get q (update p (set_attr name value) d)).
Proof.
  revert d q. induction p as [|i p IH]; intros d q Hne.
  - destruct q as [|j q]; [done|].
    destruct d as [t a cs|s]; simpl; [apply same_element_refl|done].
  - destruct d as [t a cs|s]; [|apply same_element_refl].
    destruct q as [|j q].
    + simpl. repeat split. by rewrite length_alter.
    + simpl. destruct (decide (i = j)) as [->|Hij].
      * rewrite list_lookup_alter_eq.
        destruct (cs !! j) as [c|]; simpl; [|done].
        apply IH. congruence.
      * rewrite list_lookup_alter_ne by done. apply same_element_refl.
Qed.

Lemma same_element_attrs q d d' :
  same_element (get q d) (get q d') → attrs_at q d' = attrs_at q d.
Proof.
  unfold attrs_at.
  destruct (get q d) as [[t a cs|s]|], (get q d') as [[t' a' cs'|s']|];
    simpl; try done.
  by intros (_ & -> & _).
Qed.

Lemma node_kept_has_attribute q d d' name :
  node_kept (get q d) (get q d') →
  hasAttribute name (attrs_at q d) = true →
  hasAttribute name (attrs_at q d') = true.
Proof.
  unfold attrs_at, hasAttribute.
  destruct (get q d) as [[t a cs|s]|], (get q d') as [[t' a' cs'|s']|];
    simpl; try done.
  intros (_ & Hp & _) [v Hv]%bool_decide_eq_true.
  apply bool_decide_eq_true. exists v.
  by apply (getAttribute_prefix name a a' v).
Qed.

(** *** [addDomId] *)

Section AddDomId.

(** [Math.random().toString(36).substring(2, 7)] at the [k]-th call of
    [Math.random]. *)
Variable random_suffix : nat → string.

(** One round of the loop; the state is the document together with the
    number of calls of [Math.random] made so far. *)
Definition addDomId_step (st : node * nat) (element1 : path) : node * nat :=
  if hasAttribute "id" (attrs_at element1 st.1) then st
  else (update element1 (set_attr "id" ("qz" +:+ random_suffix st.2)) st.1,
        S st.2).

(** [addDomId(svgDom)]: the document after the call (the function returns
    nothing and ends with a [console.log] of the document). *)
Definition addDomId (svgDom : node) : node :=
  (foldl addDomId_step (svgDom, 0%nat) (all_elements svgDom)).1.

(** What a call may do to the node at one place: nothing, or, for an
    element without [id], append an [id] that starts with [qz]. *)
Definition id_added (n n' : option node) : Prop :=
  match n, n' with
  | Some (Elem t a cs), Some (Elem t' a' cs') =>
      t = t' ∧ length cs = length cs'
      ∧ (a' = a
         ∨ (getAttribute "id" a = None
            ∧ ∃ k, a' = a ++ [("id", "qz" +:+ random_suffix k)]))
  | Some (Text s), Some (Text s') => s = s'
  | None, None => True
  | _, _ => False
  end.

Lemma id_added_refl n : id_added n n.
Proof. destruct n as [[t a cs|s]|]; simpl; auto. Qed.

Lemma getAttribute_app_id a v :
  getAttribute "id" (a ++ [("id", v)]) ≠ None.
Proof.
  induction a as [|[n w] a IH]; simpl; [done|].
  destruct (String.eqb n "id"); done.
Qed.

Lemma addDomId_step_id_added d0 st p :
  (∀ q, id_added (get q d0) (get q st.1)) →
  ∀ q, id_added (get q d0) (get q (addDomId_step st p).1).
Proof.
  intros Hinv q. unfold addDomId_step.
  destruct (hasAttribute "id" (attrs_at p st.1)) eqn:Eh; [apply Hinv|].
  cbn [fst].
  destruct (decide (q = p)) as [->|Hne].
  - rewrite Metadata.get_update_same.
    specialize (Hinv p). unfold attrs_at, hasAttribute in Eh.
    apply bool_decide_eq_false in Eh.
    destruct (get p d0) as [[t a cs|s]|], (get p st.1) as [[t' a' cs'|s']|];
      simpl in *; try done.
    destruct Hinv as (-> & Hl & Ha). split; [done|]. split; [done|].
    destruct Ha as [->|(_ & k & ->)].
    + right. assert (getAttribute "id" a = None) as Hn.
      { destruct (getAttribute "id" a); [|done]. destruct Eh. eauto. }
      split; [done|]. exists st.2. by apply setAttribute_absent.
    + destruct Eh. destruct (getAttribute "id" (a ++ _)) eqn:E; [eauto|].
      by apply getAttribute_app_id in E.
  - specialize (Hinv q).
    pose proof (update_set_attr_other "id" ("qz" +:+ random_suffix st.2)
                  p st.1 q Hne) as Hs.
    destruct (get q d0) as [[t a cs|s]|], (get q st.1) as [[t' a' cs'|s']|],
      (get q (update p _ st.1)) as [[t2 a2 cs2|s2]|]; simpl in *; try done.
    + destruct Hs as (-> & -> & <-). done.
    + congruence.
Qed.

Lemma addDomId_fold_id_added d0 l st :
  (∀ q, id_added (get q d0) (get q st.1)) →
  ∀ q, id_added (get q d0) (get q (foldl addDomId_step st l).1).
Proof.
  revert st. induction l as [|p l IH]; intros st Hinv; [done|].
  simpl. apply IH. by apply addDomId_step_id_added.
Qed.

Lemma id_added_has_id q d d' :
  id_added (get q d) (get q d') →
  hasAttribute "id" (attrs_at q d) = true →
  hasAttribute "id" (attrs_at q d') = true.
Proof.
  unfold attrs_at, hasAttribute.
  destruct (get q d) as [[t a cs|s]|], (get q d') as [[t' a' cs'|s']|];
    simpl; try done.
  intros (_ & _ & [->|(Hn & _)]); [done|].
  rewrite Hn. intros [? ?]%bool_decide_eq_true. done.
Qed.

Lemma addDomId_step_elements st p :
  all_elements (addDomId_step st p).1 = all_elements st.1.
Proof.
  unfold addDomId_step. destruct (hasAttribute _ _); [done|].
  by apply paths_update_set_attr.
Qed.

Lemma addDomId_fold_elements l st :
  all_elements (foldl addDomId_step st l).1 = all_elements st.1.
Proof.
  revert st. induction l as [|p l IH]; intros st; [done|].
  simpl. by rewrite IH, addDomId_step_elements.
Qed.

Lemma addDomId_step_has_id st p q :
  hasAttribute "id" (attrs_at q st.1) = true →
  hasAttribute "id" (attrs_at q (addDomId_step st p).1) = true.
Proof.
  intros H. eapply id_added_has_id; [|done].
  apply (addDomId_step_id_added st.1 st p). intros q'. apply id_added_refl.
Qed.

Lemma addDomId_fold_has_id l st q :
  hasAttribute "id" (attrs_at q st.1) = true →
  hasAttribute "id" (attrs_at q (foldl addDomId_step st l).1) = true.
Proof.
  revert st. induction l as [|p l IH]; intros st H; [done|].
  simpl. apply IH. by apply addDomId_step_has_id.
Qed.

Lemma addDomId_step_sets_id st p :
  p ∈ all_elements st.1 →
  hasAttribute "id" (attrs_at p (addDomId_step st p).1) = true.
Proof.
  intros Hp. unfold addDomId_step.
  destruct (hasAttribute "id" (attrs_at p st.1)) eqn:Eh; [done|].
  cbn [fst]. apply paths_get in Hp as (t & a & cs & Hg & _).
  unfold attrs_at. rewrite Metadata.get_update_same, Hg. simpl.
  apply bool_decide_eq_true. rewrite Metadata.getAttribute_setAttribute. eauto.
Qed.

Lemma addDomId_fold_all l st :
  (∀ p, p ∈ l → p ∈ all_elements st.1) →
  ∀ p, p ∈ l →
       hasAttribute "id" (attrs_at p (foldl addDomId_step st l).1) = true.
Proof.
  revert st. induction l as [|p0 l IH]; intros st Hl p Hp.
  - by apply not_elem_of_nil in Hp.
  - simpl. apply elem_of_cons in Hp as [->|Hp].
    + apply addDomId_fold_has_id, addDomId_step_sets_id, Hl. by left.
    + apply IH; [|done]. intros p' Hp'.
      rewrite addDomId_step_elements. apply Hl. by right.
Qed.

Lemma addDomId_fold_noop d l k :
  (∀ p, p ∈ l → hasAttribute "id" (attrs_at p d) = true) →
  foldl addDomId_step (d, k) l = (d, k).
Proof.
  induction l as [|p l IH]; intros H; [done|].
  simpl. unfold addDomId_step at 2. cbn [fst].
  rewrite H by (by left). apply IH. intros p' Hp'. apply H. by right.
Qed.

Lemma addDomId_elements svgDom :
  all_elements (addDomId svgDom) = all_elements svgDom.
Proof. unfold addDomId. by rewrite addDomId_fold_elements. Qed.

Lemma addDomId_has_id svgDom p :
  p ∈ all_elements svgDom →
  hasAttribute "id" (attrs_at p (addDomId svgDom)) = true.
Proof. intros Hp. unfold addDomId. by apply addDomId_fold_all. Qed.

(** X1. After [addDomId] the document has the elements it had, and every
    one of them has an [id] attribute. *)
Theorem addDomId_every_element_has_id svgDom :
  all_elements (addDomId svgDom) = all_elements svgDom
  ∧ Forall (λ a, hasAttribute "id" a = true)
      (element_attributes (addDomId svgDom)).
Proof.
  split; [apply addDomId_elements|].
  unfold element_attributes. rewrite addDomId_elements.
  apply Forall_fmap, Forall_forall. intros p Hp. by apply addDomId_has_id.
Qed.

(** What a call does to the node at one place: an element that has an
    [id] keeps its attributes, an element without one gets one attribute
    appended, an [id] made of [qz] and the suffix of some call of
    [Math.random]; names, texts and numbers of children stay. *)
Definition id_set (n n' : option node) : Prop :=
  match n, n' with
  | Some (Elem t a cs), Some (Elem t' a' cs') =>
      t = t' ∧ length cs = length cs'
      ∧ if hasAttribute "id" a then a' = a
        else ∃ k, a' = a ++ [("id", "qz" +:+ random_suffix k)]
  | Some (Text s), Some (Text s') => s = s'
  | None, None => True
  | _, _ => False
  end.

(** X2. [addDomId] sets the missing ids and changes nothing else: at every
    place of the document the node keeps its kind, name, text and number of
    children; an element that has an [id] keeps its attribute list, and an
    element without one gets exactly one attribute appended to its list, an
    [id] made of [qz] and a random suffix. *)
Theorem addDomId_only_appends_ids svgDom q :
  id_set (get q svgDom) (get q (addDomId svgDom)).
Proof.
  pose proof (addDomId_fold_id_added svgDom (all_elements svgDom)
                (svgDom, 0%nat) (λ q', id_added_refl _) q) as Hweak.
  fold (addDomId svgDom) in Hweak.
  pose proof (addDomId_has_id svgDom q) as Hid.
  unfold attrs_at in Hid. unfold id_set, id_added in *.
  destruct (get q svgDom) as [[t a cs|s]|] eqn:Eg; [|done|done].
  destruct (get q (addDomId svgDom)) as [[t' a' cs'|s']|]; [|done|done].
  destruct Hweak as (-> & Hl & Ha). split; [done|]. split; [done|].
  destruct (hasAttribute "id" a) eqn:Eh.
  - destruct Ha as [->|(Hn & _)]; [done|].
    unfold hasAttribute in Eh. apply bool_decide_eq_true in Eh as [v Hv].
    congruence.
  - destruct Ha as [->|(_ & k & ->)]; [|by exists k].
    simpl in Hid. rewrite Hid in Eh; [done|].
    apply elem_of_paths. by exists t', a, cs.
Qed.

(** X3. On a document whose elements all have an [id], [addDomId] changes
    nothing; so a second call changes nothing. *)
Theorem addDomId_idempotent svgDom :
  (Forall (λ a, hasAttribute "id" a = true) (element_attributes svgDom) →
   addDomId svgDom = svgDom)
  ∧ addDomId (addDomId svgDom) = addDomId svgDom.
Proof.
  assert (∀ d, Forall (λ a, hasAttribute "id" a = true) (element_attributes d)
               → addDomId d = d) as Hnoop.
  { intros d Hall. unfold addDomId. rewrite addDomId_fold_noop; [done|].
    intros p Hp. unfold element_attributes in Hall.
    rewrite Forall_fmap, Forall_forall in Hall. by apply Hall. }
  split; [apply Hnoop|].
  apply Hnoop. unfold element_attributes. rewrite addDomId_elements.
  apply Forall_fmap, Forall_forall. intros p Hp. by apply addDomId_has_id.
Qed.

End AddDomId.

(** *** [compareAndFillSvgDom]: which elements change, and how *)

Lemma getElementById_has_id d key p :
  getElementById d key = Some p →
  ∃ t a cs, get p d = Some (Elem t a cs) ∧ getAttribute "id" a = Some key.
Proof.
  unfold getElementById, querySelector.
  destruct (String.eqb key ""); [done|].
  intros Hh. apply head_Some_elem_of in Hh.
  apply paths_get in Hh as (t & a & cs & Hg & Hs).
  apply bool_decide_eq_true in Hs. by exists t, a, cs.
Qed.

Lemma getElementById_update d key p name value :
  name ≠ "id" →
  getElementById (update p (set_attr name value) d) key = getElementById d key.
Proof.
  intros Hne. unfold getElementById, querySelector.
  destruct (String.eqb key ""); [done|].
  rewrite paths_update_set_attr; [done|].
  intros t a. by rewrite getAttribute_setAttribute_ne.
Qed.

Lemma fill_attribute_getElementById p d attr1 key :
  hasAttribute "id" (attrs_at p d) = true →
  getElementById (fill_attribute p d attr1) key = getElementById d key.
Proof.
  intros Hid. unfold fill_attribute.
  destruct (hasAttribute attr1.1 (attrs_at p d)) eqn:Eh; [done|].
  apply getElementById_update. intros Heq. congruence.
Qed.

Lemma fill_attributes_kept p l d q :
  node_kept (get q d) (get q (foldl (fill_attribute p) d l)).
Proof.
  revert d. induction l as [|attr1 l IH]; intros d.
  - apply node_kept_refl.
  - simpl. eapply node_kept_trans; [apply fill_attribute_kept|apply IH].
Qed.

Lemma fill_attributes_getElementById p l d key :
  hasAttribute "id" (attrs_at p d) = true →
  getElementById (foldl (fill_attribute p) d l) key = getElementById d key.
Proof.
  revert d. induction l as [|attr1 l IH]; intros d Hid; [done|].
  simpl. rewrite IH.
  - by apply fill_attribute_getElementById.
  - eapply node_kept_has_attribute; [apply fill_attribute_kept|done].
Qed.

Lemma getElementById_hasAttribute d key p :
  getElementById d key = Some p → hasAttribute "id" (attrs_at p d) = true.
Proof.
  intros (t & a & cs & Hg & Hi)%getElementById_has_id.
  unfold attrs_at, hasAttribute. rewrite Hg. simpl.
  apply bool_decide_eq_true. eauto.
Qed.

Lemma fill_element_getElementById d attributes1 key :
  getElementById (fill_element d attributes1) key = getElementById d key.
Proof.
  unfold fill_element.
  destruct (getElementById d (id_argument attributes1)) as [p|] eqn:E;
    [|done].
  apply fill_attributes_getElementById.
  by apply (getElementById_hasAttribute d (id_argument attributes1)).
Qed.

Lemma fill_elements_getElementById l d key :
  getElementById (foldl fill_element d l) key = getElementById d key.
Proof.
  revert d. induction l as [|a1 l IH]; intros d; [done|].
  simpl. by rewrite IH, fill_element_getElementById.
Qed.

Lemma fill_attribute_other p d attr1 q :
  q ≠ p → same_element (get q d) (get q (fill_attribute p d attr1)).
Proof.
  intros Hne. unfold fill_attribute.
  destruct (hasAttribute _ _); [apply same_element_refl|].
  by apply update_set_attr_other.
Qed.

Lemma fill_attributes_other p l d q :
  q ≠ p → same_element (get q d) (get q (foldl (fill_attribute p) d l)).
Proof.
  intros Hne. revert d. induction l as [|attr1 l IH]; intros d.
  - apply same_element_refl.
  - simpl. eapply same_element_trans; [by apply fill_attribute_other|apply IH].
Qed.

Lemma fill_element_other d attributes1 q :
  getElementById d (id_argument attributes1) ≠ Some q →
  same_element (get q d) (get q (fill_element d attributes1)).
Proof.
  intros Hne. unfold fill_element.
  destruct (getElementById d (id_argument attributes1)) as [p|];
    [|apply same_element_refl].
  apply fill_attributes_other. congruence.
Qed.

Lemma fill_elements_other l d q :
  Forall (λ a1, getElementById d (id_argument a1) ≠ Some q) l →
  same_element (get q d) (get q (foldl fill_element d l)).
Proof.
  revert d. induction l as [|a1 l IH]; intros d Hl.
  - apply same_element_refl.
  - apply Forall_cons in Hl as [Ha1 Hl]. simpl.
    eapply same_element_trans; [by apply fill_element_other|].
    apply IH. eapply Forall_impl; [done|].
    intros a Ha. simpl in Ha. by rewrite fill_element_getElementById.
Qed.

(** The attribute values of the matched element after the inner loop. *)
Lemma fill_attributes_value p name l d :
  (∃ t a cs, get p d = Some (Elem t a cs)) →
  getAttribute name (attrs_at p (foldl (fill_attribute p) d l))
  = match getAttribute name (attrs_at p d) with
    | Some w => Some w
    | None => getAttribute name l
    end.
Proof.
  revert d. induction l as [|[n v] l IH]; intros d (t & a & cs & Hg).
  - simpl. by destruct (getAttribute name (attrs_at p d)).
  - simpl foldl.
    assert (∃ t' a' cs', get p (fill_attribute p d (n, v))
                         = Some (Elem t' a' cs')) as Hel'.
    { pose proof (fill_attribute_kept p d (n, v) p) as Hk.
      rewrite Hg in Hk.
      destruct (get p (fill_attribute p d (n, v))) as [[t' a' cs'|s']|];
        simpl in Hk; try done. eauto. }
    rewrite (IH _ Hel'). clear IH Hel'.
    unfold fill_attribute. cbn [fst snd].
    destruct (hasAttribute n (attrs_at p d)) eqn:Eh.
    + destruct (getAttribute name (attrs_at p d)) as [w|] eqn:Ew; [done|].
      simpl. destruct (String.eqb_spec n name) as [->|Hne]; [|done].
      apply bool_decide_eq_true in Eh as [w Hw]. congruence.
    + apply bool_decide_eq_false in Eh.
      unfold attrs_at at 1. rewrite Metadata.get_update_same.
      unfold attrs_at in *. rewrite Hg in *.
      simpl in *. destruct (String.eqb_spec n name) as [->|Hne].
      * rewrite Metadata.getAttribute_setAttribute.
        destruct (getAttribute name a) as [w|]; [|done].
        destruct Eh. eauto.
      * rewrite getAttribute_setAttribute_ne by done.
        by destruct (getAttribute name a).
Qed.

(** The value that [svgDom1] has for the attribute [name] of the elements
    looked up as [key]: that of the first element, in document order, whose
    id argument is [key] and which has the attribute. *)
Definition donor (svgDom1 : list (list (string * string))) (key name : string)
  : option string :=
  head (omap (getAttribute name)
          (filter (λ a1, id_argument a1 = key) svgDom1)).

Lemma fill_elements_value p key name l d :
  getElementById d key = Some p →
  getAttribute name (attrs_at p (foldl fill_element d l))
  = match getAttribute name (attrs_at p d) with
    | Some w => Some w
    | None => donor l key name
    end.
Proof.
  revert d. induction l as [|a1 l IH]; intros d Hp.
  - simpl. by destruct (getAttribute name (attrs_at p d)).
  - simpl foldl. rewrite IH by (by rewrite fill_element_getElementById).
    clear IH. unfold donor. rewrite filter_cons.
    destruct (decide (id_argument a1 = key)) as [Hk|Hk].
    + unfold fill_element. rewrite Hk, Hp.
      rewrite fill_attributes_value.
      * destruct (getAttribute name (attrs_at p d)) as [w|]; [done|].
        simpl. by destruct (getAttribute name a1).
      * apply getElementById_has_id in Hp as (t & a & cs & Hg & _).
        eauto.
    + assert (getElementById d (id_argument a1) ≠ Some p) as Hne.
      { intros Hq.
        apply getElementById_has_id in Hp as (t & a & cs & Hg & Hi).
        apply getElementById_has_id in Hq as (t' & a' & cs' & Hg' & Hi').
        congruence. }
      by rewrite (same_element_attrs p d _ (fill_element_other d a1 p Hne)).
Qed.

(** X4. Whatever the two documents are, the result has the shape of
    [svgDom2]: at every place there is the same kind of node with the same
    name, text and number of children, and the attribute list that
    [svgDom2] has there, possibly with more attributes after it; so every
    attribute that an element of [svgDom2] has keeps its value. *)
Theorem compareAndFillSvgDom_only_appends_attributes svgDom1 svgDom2 q :
  node_kept (get q svgDom2) (get q (compareAndFillSvgDom svgDom1 svgDom2))
  ∧ ∀ name v,
      getAttribute name (attrs_at q svgDom2) = Some v →
      getAttribute name (attrs_at q (compareAndFillSvgDom svgDom1 svgDom2))
      = Some v.
Proof.
  pose proof (compareAndFillSvgDom_kept svgDom1 svgDom2 q) as Hk.
  split; [done|]. intros name v. unfold attrs_at.
  destruct (get q svgDom2) as [[t a cs|s]|],
    (get q (compareAndFillSvgDom svgDom1 svgDom2)) as [[t' a' cs'|s']|];
    simpl in *; try done.
  destruct Hk as (_ & Hp & _). by apply getAttribute_prefix.
Qed.

(** X5. An element of [svgDom2] that [getElementById] returns for the id
    argument of no element of [svgDom1] (the id, or the string [null] for
    an element of [svgDom1] without id) keeps its name and its attribute
    list unchanged. *)
Theorem compareAndFillSvgDom_unmatched_unchanged svgDom1 svgDom2 q :
  Forall (λ a1, getElementById svgDom2 (id_argument a1) ≠ Some q)
    (element_attributes svgDom1) →
  same_element (get q svgDom2) (get q (compareAndFillSvgDom svgDom1 svgDom2)).
Proof. apply fill_elements_other. Qed.

(** X6. The attributes of a matched element: if [getElementById] returns an
    element of [svgDom2] for [key], then afterwards each attribute of that
    element has the value it had in [svgDom2] or, when the element did not
    have it, the value of the first element of [svgDom1], in document order,
    that is looked up as [key] and has the attribute; it has no other
    attributes. *)
Theorem compareAndFillSvgDom_matched_attributes svgDom1 svgDom2 key p name :
  getElementById svgDom2 key = Some p →
  getAttribute name (attrs_at p (compareAndFillSvgDom svgDom1 svgDom2))
  = match getAttribute name (attrs_at p svgDom2) with
    | Some w => Some w
    | None => donor (element_attributes svgDom1) key name
    end.
Proof. apply fill_elements_value. Qed.

Lemma donor_is_Some l a1 name :
  a1 ∈ l → is_Some (getAttribute name a1) →
  is_Some (donor l (id_argument a1) name).
Proof.
  intros Hin [v Hv]. unfold donor.
  assert (v ∈ omap (getAttribute name)
                (filter (λ a, id_argument a = id_argument a1) l)) as Hv'.
  { apply list_elem_of_omap. exists a1. split; [|done].
    by apply list_elem_of_filter. }
  destruct (omap _ _) as [|w ws]; [by apply not_elem_of_nil in Hv'|].
  simpl. eauto.
Qed.

Lemma fill_attributes_noop p d l :
  (∀ attr1, attr1 ∈ l → hasAttribute attr1.1 (attrs_at p d) = true) →
  foldl (fill_attribute p) d l = d.
Proof.
  induction l as [|attr1 l IH]; intros H; [done|].
  simpl. unfold fill_attribute at 2. rewrite H by (by left).
  apply IH. intros a Ha. apply H. by right.
Qed.

Lemma getAttribute_elem_of name v l :
  (name, v) ∈ l → is_Some (getAttribute name l).
Proof.
  induction l as [|[n w] l IH]; intros Hin; [by apply not_elem_of_nil in Hin|].
  simpl. destruct (String.eqb n name) eqn:E; [eauto|].
  apply elem_of_cons in Hin as [Heq|Hin]; [|by apply IH].
  injection Heq as <- <-. by rewrite String.eqb_refl in E.
Qed.

(** X7. Filling again from the same [svgDom1] changes nothing. *)
Theorem compareAndFillSvgDom_idempotent svgDom1 svgDom2 :
  compareAndFillSvgDom svgDom1 (compareAndFillSvgDom svgDom1 svgDom2)
  = compareAndFillSvgDom svgDom1 svgDom2.
Proof.
  set (r := compareAndFillSvgDom svgDom1 svgDom2).
  unfold compareAndFillSvgDom at 1.
  assert (∀ l, (∀ a1, a1 ∈ l → a1 ∈ element_attributes svgDom1) →
               foldl fill_element r l = r) as H; [|by apply H].
  induction l as [|a1 l IH]; intros Hl; [done|].
  simpl. rewrite <- (IH (λ a Ha, Hl a (list_elem_of_further _ _ _ Ha))) at 2.
  f_equal. unfold fill_element.
  destruct (getElementById r (id_argument a1)) as [p|] eqn:Ep; [|done].
  apply fill_attributes_noop. intros [n v] Hnv. cbn [fst].
  unfold r, compareAndFillSvgDom in Ep.
  rewrite fill_elements_getElementById in Ep.
  apply bool_decide_eq_true. unfold r.
  unfold compareAndFillSvgDom. rewrite (fill_elements_value p _ n _ _ Ep).
  destruct (getAttribute n (attrs_at p svgDom2)); [eauto|].
  apply donor_is_Some; [apply Hl; by left|].
  by apply (getAttribute_elem_of n v).
Qed.

(** *** [addDomId] before [compareAndFillSvgDom] *)

Section FillAfterAddDomId.
Variable random_suffix : nat → string.

(** X8. When [svgDom1] went through [addDomId], the elements are matched by
    their ids alone: an element of [svgDom2] whose [id] attribute (or lack
    of one) differs from the [id] attribute of every element of [svgDom1]
    keeps its name and attribute list. *)
Theorem compareAndFillSvgDom_after_addDomId svgDom1 svgDom2 q :
  Forall (λ a1, getAttribute "id" a1 ≠ getAttribute "id" (attrs_at q svgDom2))
    (element_attributes (addDomId random_suffix svgDom1)) →
  same_element (get q svgDom2)
    (get q (compareAndFillSvgDom (addDomId random_suffix svgDom1) svgDom2)).
Proof.
  intros Hall. apply fill_elements_other.
  pose proof (addDomId_has_id random_suffix svgDom1) as Hids.
  unfold element_attributes in *. rewrite addDomId_elements in *.
  rewrite Forall_fmap, Forall_forall in Hall.
  apply Forall_fmap, Forall_forall. intros p Hp. simpl.
  specialize (Hall p Hp). specialize (Hids p Hp). simpl in Hall.
  intros (t & a & cs & Hg & Hi)%getElementById_has_id.
  apply Hall. unfold attrs_at at 2. rewrite Hg. simpl. rewrite Hi.
  unfold id_argument.
  apply bool_decide_eq_true in Hids as [v Hv]. by rewrite Hv.
Qed.

End FillAfterAddDomId.

(** *** Examples *)

Definition fill_source : node :=
  Elem "svg" [("id", "a"); ("width", "10")]
    [Elem "g" [("fill", "red")] []; Elem "g" [("id", "b"); ("x", "1")] []].

Definition fill_target : node :=
  Elem "svg" [("id", "a")]
    [Elem "g" [("id", "b"); ("x", "7")] []; Elem "g" [("id", "c")] []].

Lemma fill_example :
  compareAndFillSvgDom fill_source fill_target
  = Elem "svg" [("id", "a"); ("width", "10")]
      [Elem "g" [("id", "b"); ("x", "7")] []; Elem "g" [("id", "c")] []]
  ∧ addDomId (λ _, "00000") fill_source
    = Elem "svg" [("id", "a"); ("width", "10")]
        [Elem "g" [("fill", "red"); ("id", "qz00000")] [];
         Elem "g" [("id", "b"); ("x", "1")] []].
Proof. by vm_compute. Qed.

(** The element with id [c] of [fill_target] is looked up for no element of
    [fill_source]. *)
Lemma compareAndFillSvgDom_unmatched_example :
  same_element (get [1%nat] fill_target)
    (get [1%nat] (compareAndFillSvgDom fill_source fill_target)).
Proof.
  apply (compareAndFillSvgDom_unmatched_unchanged fill_source fill_target).
  vm_compute. repeat constructor; discriminate.
Defined.

(** The [svg] element of [fill_target] receives the [width] of the [svg]
    element of [fill_source]. *)
Lemma compareAndFillSvgDom_matched_example :
  getAttribute "width"
    (attrs_at [] (compareAndFillSvgDom fill_source fill_target))
  = Some "10".
Proof.
  exact (compareAndFillSvgDom_matched_attributes fill_source fill_target
           "a" [] "width" eq_refl).
Defined.

Lemma compareAndFillSvgDom_after_addDomId_example :
  same_element (get [1%nat] fill_target)
    (get [1%nat]
       (compareAndFillSvgDom (addDomId (λ _, "00000") fill_source)
          fill_target)).
Proof.
  apply (compareAndFillSvgDom_after_addDomId (λ _, "00000")).
  vm_compute. repeat constructor; discriminate.
Defined.

End DomHelpers.

(** ** More on the metadata functions: what they leave alone *)

Module MetadataFrame.
Import Dom Metadata.

(** *** [replaceSvgMetadata] with any array of plain ids *)

Lemma skeleton_update_metadata sel c :
  (∀ t a, sel t a = true → String.eqb t "metadata" = true) →
  ∀ d p, p ∈ paths sel d →
         skeleton (update p (set_children c) d) = skeleton d.
Proof.
  intros Hsel d.
  induction d as [s|t a cs IH] using node_forall_ind; intros p Hp.
  - by apply not_elem_of_nil in Hp.
  - rewrite paths_Elem in Hp. apply elem_of_app in Hp as [Hp|Hp].
    + destruct (sel t a) eqn:Es; [|by apply not_elem_of_nil in Hp].
      apply list_elem_of_singleton in Hp as ->.
      apply Hsel in Es. simpl. by rewrite Es.
    + apply elem_of_paths_forest in Hp
        as (pre & c0 & post & p' & -> & -> & Hp').
      rewrite Nat.add_0_l, update_child. cbn [skeleton].
      destruct (String.eqb t "metadata"); [done|].
      f_equal. rewrite !fmap_app, !fmap_cons. do 2 f_equal.
      apply Forall_app in IH as [_ [IHc _]%Forall_cons]. by apply IHc.
Qed.

Lemma replace_found_skeleton d entry :
  skeleton (replace_found d entry) = skeleton d.
Proof.
  unfold replace_found, querySelector.
  destruct (head (paths (metadata_with_id entry.1) d)) as [p|] eqn:Eh;
    [|done].
  apply head_Some_elem_of in Eh.
  by apply (skeleton_update_metadata (metadata_with_id entry.1) entry.2
              (metadata_with_id_sel entry.1)).
Qed.

Lemma replace_found_no_metadata d entry :
  no_metadata d = true → replace_found d entry = d.
Proof.
  intros Hno. unfold replace_found, querySelector.
  by rewrite (no_metadata_paths _ (metadata_with_id_sel entry.1) d Hno).
Qed.

(** X9. [replaceSvgMetadata] returns a document exactly when every id of
    the array is plain (has no double quote, backslash, line feed, carriage
    return, form feed or NUL, so that the selector it is spliced into tests
    the id). Whatever the document and such an array are, the call changes
    nothing outside the metadata elements: the document with the content of
    its (outermost) metadata elements left out is the same before and
    after. A document without metadata elements is returned unchanged. *)
Theorem replaceSvgMetadata_changes_metadata_content_only svg metadataArray :
  (Forall (λ e, plain_id e.1 = true) metadataArray
   ↔ ∃ d, replaceSvgMetadata svg metadataArray = Some d)
  ∧ (∀ d, replaceSvgMetadata svg metadataArray = Some d →
          skeleton d = skeleton svg
          ∧ (no_metadata svg = true → d = svg)).
Proof.
  split.
  - split.
    + intros Hall. eexists. by apply replaceSvgMetadata_plain.
    + intros [d Hd]. by apply replaceSvgMetadata_Some in Hd as [Hall _].
  - intros d Hd. apply replaceSvgMetadata_Some in Hd as [_ ->]. split.
    + revert svg. induction metadataArray as [|e l IH]; intros d; [done|].
      simpl. by rewrite IH, replace_found_skeleton.
    + intros Hno. induction metadataArray as [|e l IH]; [done|].
      simpl. by rewrite replace_found_no_metadata.
Qed.

(** *** [extractAndEnhanceMetadata] on any document *)

(** [removeAttribute(name)] *)
Fixpoint removeAttribute (name : string) (a : list (string * string))
  : list (string * string) :=
  match a with
  | [] => []
  | (n, v) :: rest =>
      if String.eqb n name then rest else (n, v) :: removeAttribute name rest
  end.

(** The document with the [id] attribute of every metadata element
    removed. *)
Fixpoint without_metadata_ids (n : node) : node :=
  match n with
  | Text s => Text s
  | Elem t a cs =>
      Elem t (if String.eqb t "metadata" then removeAttribute "id" a else a)
        (without_metadata_ids <$> cs)
  end.

Lemma removeAttribute_setAttribute name value a :
  removeAttribute name (setAttribute name value a) = removeAttribute name a.
Proof.
  induction a as [|[n v] a IH]; simpl.
  - by rewrite String.eqb_refl.
  - destruct (String.eqb n name) eqn:E; simpl; rewrite E; [done|].
    by rewrite IH.
Qed.

Lemma setAttribute_setAttribute name value value' a :
  setAttribute name value (setAttribute name value' a)
  = setAttribute name value a.
Proof.
  induction a as [|[n v] a IH]; simpl.
  - by rewrite String.eqb_refl.
  - destruct (String.eqb n name) eqn:E; simpl; rewrite E; [done|].
    by rewrite IH.
Qed.

Lemma without_metadata_ids_enhance n k :
  without_metadata_ids (enhance k n) = without_metadata_ids n.
Proof.
  revert k. induction n as [s|t a cs IH] using node_forall_ind; intros k;
    [done|].
  rewrite enhance_Elem. cbn zeta. cbn [without_metadata_ids]. f_equal.
  - destruct (String.eqb t "metadata"); [|done].
    apply removeAttribute_setAttribute.
  - generalize (if String.eqb t "metadata" then S k else k). clear k.
    induction IH as [|c cs Hc _ IHcs]; intros k; [done|].
    cbn [map_forest fmap list_fmap]. by rewrite Hc, IHcs.
Qed.

Lemma enhance_no_metadata n k : no_metadata n = true → enhance k n = n.
Proof.
  revert k. induction n as [s|t a cs IH] using node_forall_ind; intros k;
    [done|].
  simpl no_metadata. intros [Ht Hcs]%andb_true_iff.
  rewrite enhance_Elem. cbn zeta.
  destruct (String.eqb t "metadata"); [done|]. f_equal.
  revert k. induction IH as [|c cs Hc _ IHcs]; intros k; [done|].
  simpl in Hcs. apply andb_true_iff in Hcs as [Hc' Hcs].
  cbn [map_forest]. by rewrite Hc, IHcs.
Qed.

Lemma contents_no_metadata n k : no_metadata n = true → contents k n = [].
Proof.
  intros Hno. apply length_zero_iff_nil. rewrite contents_length.
  unfold nmeta. by rewrite (no_metadata_paths _ is_metadata_sel n Hno).
Qed.

Lemma map_forest_enhance_no_metadata cs k :
  forallb no_metadata cs = true → map_forest enhance k cs = cs.
Proof.
  revert k. induction cs as [|c cs IH]; intros k; [done|].
  simpl. intros [Hc Hcs]%andb_true_iff.
  by rewrite (enhance_no_metadata c k Hc), IH.
Qed.

Lemma nmeta_enhance n k : nmeta (enhance k n) = nmeta n.
Proof.
  unfold nmeta. f_equal.
  revert k. induction n as [s|t a cs IH] using node_forall_ind; intros k;
    [done|].
  rewrite enhance_Elem. cbn zeta. rewrite !paths_Elem. f_equal.
  generalize (if String.eqb t "metadata" then S k else k).
  generalize 0%nat. clear k.
  induction IH as [|c cs Hc _ IHcs]; intros i k; [done|].
  cbn [map_forest paths_forest]. by rewrite Hc, IHcs.
Qed.

Lemma enhance_enhance n k : enhance k (enhance k n) = enhance k n.
Proof.
  revert k. induction n as [s|t a cs IH] using node_forall_ind; intros k;
    [done|].
  rewrite !enhance_Elem. cbn zeta. f_equal.
  - destruct (String.eqb t "metadata"); [|done].
    apply setAttribute_setAttribute.
  - generalize (if String.eqb t "metadata" then S k else k). clear k.
    induction IH as [|c cs Hc _ IHcs]; intros k; [done|].
    cbn [map_forest]. by rewrite Hc, nmeta_enhance, IHcs.
Qed.

Lemma contents_enhance n k :
  flat n = true → contents k (enhance k n) = contents k n.
Proof.
  revert k. induction n as [s|t a cs IH] using node_forall_ind;
    intros k Hflat; [done|].
  rewrite enhance_Elem. cbn zeta. rewrite !contents_Elem. cbn zeta.
  simpl in Hflat.
  destruct (String.eqb t "metadata").
  - by rewrite (map_forest_enhance_no_metadata cs (S k) Hflat).
  - f_equal. revert k Hflat.
    induction IH as [|c cs Hc _ IHcs]; intros k Hflat; [done|].
    simpl in Hflat. apply andb_true_iff in Hflat as [Hc' Hcs].
    cbn [map_forest out_forest].
    by rewrite (Hc k Hc'), nmeta_enhance, (IHcs _ Hcs).
Qed.

(** X10. The enhanced document differs from the input in nothing but the
    [id] attributes of the metadata elements; a document without metadata
    elements comes back unchanged, with the empty array. *)
Theorem extractAndEnhanceMetadata_changes_metadata_ids_only svg :
  without_metadata_ids (extractAndEnhanceMetadata svg).1
  = without_metadata_ids svg
  ∧ (no_metadata svg = true → extractAndEnhanceMetadata svg = (svg, [])).
Proof.
  rewrite extract_any. cbn [fst]. split.
  - apply without_metadata_ids_enhance.
  - intros Hno. by rewrite enhance_no_metadata, contents_no_metadata.
Qed.

(** X11. Extracting from an enhanced document gives the same enhanced
    document again; when no metadata element is inside another one it also
    gives the same array. *)
Theorem extractAndEnhanceMetadata_again svg :
  let enhanced := (extractAndEnhanceMetadata svg).1 in
  (extractAndEnhanceMetadata enhanced).1 = enhanced
  ∧ (flat svg = true →
     extractAndEnhanceMetadata enhanced = extractAndEnhanceMetadata svg).
Proof.
  cbn zeta. rewrite !extract_any. cbn [fst]. split.
  - apply enhance_enhance.
  - intros Hflat. by rewrite enhance_enhance, contents_enhance.
Qed.

End MetadataFrame.

(** ** Which shortcuts of [toolButtons] the keydown listener can run *)

Module ShortcutReach.
Import Shortcuts.

(** A key value as a keyboard event has it, lower-cased: a single
    character, or a name, which has no [+] in it. *)
Definition plain_key (k : string) : bool :=
  negb (occurs "+" k) || (String.length k =? 1)%nat.

Ltac key_mismatch Ek Hplain :=
  destruct (metaKey _), (ctrlKey _); vm_compute in Ek; simplify_eq;
  vm_compute in Hplain; discriminate Hplain.

Ltac runs_allowed :=
  solve [ repeat split; intros; try discriminate; simplify_eq; done ].

(** X13. The listener builds the lookup key from [metaKey], [ctrlKey] and
    the key alone, so for a key event of a keyboard the entries of
    [toolButtons] whose key has a [shift+] or [alt+] part are never found:
    the listener never runs [selectPrev], [selectNext] or
    [cloneSelectedElements], never rotates by 5, and moves the selection by
    one step only, never by 10. *)
Theorem shift_and_alt_shortcuts_never_run
    (toLowerCase : string → string) (isMac : bool) (e : key_event)
    (f : action) :
  plain_key (toLowerCase (e_key e)) = true →
  ERun f ∈ keydown toLowerCase (setAll_keyHandler (toolButtons isMac)) e →
  f ≠ ASelectPrev ∧ f ≠ ASelectNext
  ∧ (∀ dx dy, f ≠ ACloneSelectedElements dx dy)
  ∧ (∀ cw, f ≠ ARotateSelected cw 5)
  ∧ (∀ dx dy, f = AMoveSelected dx dy → (Z.abs dx + Z.abs dy = 1)%Z).
Proof.
  intros Hplain Hin. unfold keydown in Hin.
  destruct (negb (String.eqb (target_nodeName e) "BODY"));
    [by apply not_elem_of_nil in Hin|].
  destruct (setAll_keyHandler (toolButtons isMac) !! lookup_key toLowerCase e)
    as [h|] eqn:Eh; [|by apply not_elem_of_nil in Hin].
  assert (f = h_fn h) as ->.
  { apply elem_of_cons in Hin as [Hf|Hin]; [congruence|].
    destruct (h_pd h); [|by apply not_elem_of_nil in Hin].
    apply list_elem_of_singleton in Hin. discriminate Hin. }
  clear Hin.
  apply setAll_keyHandler_is_Some in Eh as (opts & Ho & Hk & Hh).
  remember (lookup_key toLowerCase e) as k eqn:Ek.
  unfold lookup_key in Ek.
  remember (toLowerCase (e_key e)) as lowered eqn:El. clear El.
  destruct isMac; unfold toolButtons in Ho;
    repeat (apply elem_of_cons in Ho as [->|Ho];
            [ vm_compute in Hk; injection Hh as <-; cbn [h_fn];
              repeat (apply elem_of_cons in Hk as [->|Hk];
                      [first [runs_allowed | key_mismatch Ek Hplain]|]);
              by apply not_elem_of_nil in Hk |]);
    by apply not_elem_of_nil in Ho.
Qed.

(** [ctrl+z] on the page body runs [clickUndo]. *)
Lemma shift_and_alt_shortcuts_example :
  AClickUndo ≠ ASelectPrev ∧ AClickUndo ≠ ASelectNext
  ∧ (∀ dx dy, AClickUndo ≠ ACloneSelectedElements dx dy)
  ∧ (∀ cw, AClickUndo ≠ ARotateSelected cw 5)
  ∧ (∀ dx dy, AClickUndo = AMoveSelected dx dy →
              (Z.abs dx + Z.abs dy = 1)%Z).
Proof.
  apply (shift_and_alt_shortcuts_never_run lower false
           {| target_nodeName := "BODY"; metaKey := false; ctrlKey := true;
              shiftKey := false; altKey := false; e_key := "z" |}).
  - reflexivity.
  - vm_compute. by left.
Defined.

(** X14. The table that [setAll] builds from any list of buttons: a key is
    in the table exactly when some button with a truthy key specification
    lists it as an alternative, and it maps to the function and flag of the
    last such button of the list. *)
Theorem setAll_last_registration_wins (buttons : list tool_button)
    (k : string) :
  setAll_keyHandler buttons !! k
  = last (filter (λ opts, k ∈ registered_keys opts) buttons) ≫= handler_of.
Proof.
  induction buttons as [|opts buttons IH] using rev_ind; [done|].
  rewrite setAll_keyHandler_snoc, filter_app, filter_cons, filter_nil.
  destruct (decide (k ∈ registered_keys opts)) as [Hin|Hnin].
  - by rewrite last_snoc.
  - by rewrite app_nil_r.
Qed.

End ShortcutReach.

(** ** Window messages and the [extensions_added] event *)

Module Messages.
Import JS.

Section WithMessages.
(** The message objects [{data, origin}]. *)
Variable message : Type.

Inductive effect :=
| ESetAll                            (* Actions.setAll() *)
| EUpdateCanvas (center : bool)      (* updateCanvas(true) *)
| ECallMessage (messageObj : message). (* svgCanvas.call('message', messageObj) *)

Record state := {
  extensionsAdded : bool;
  messageQueue : list message
}.

(** [let extensionsAdded = false; const messageQueue = [];] *)
Definition initial : state :=
  {| extensionsAdded := false; messageQueue := [] |}.

(** The listener of the window's [message] event. *)
Definition messageListener (messageObj : message) (st : state)
  : state * list effect :=
  if negb (extensionsAdded st)
  then ({| extensionsAdded := extensionsAdded st;
           messageQueue := messageQueue st ++ [messageObj] |}, [])
  else (st, [ECallMessage messageObj]).

(** The handler bound to the canvas event [extensions_added];
    [storagePromptState] is [editor.storagePromptState]. *)
Definition extensions_added (storagePromptState : jsval) (st : state)
  : state * list effect :=
  ({| extensionsAdded := true; messageQueue := messageQueue st |},
   [ESetAll]
     ++ (match storagePromptState with
         | JStr s => if String.eqb s "ignore" then [EUpdateCanvas true] else []
         | _ => []
         end)
     ++ (ECallMessage <$> messageQueue st)).

Inductive event :=
| Message (messageObj : message)
| ExtensionsAdded (storagePromptState : jsval).

Definition handle (ev : event) (st : state) : state * list effect :=
  match ev with
  | Message m => messageListener m st
  | ExtensionsAdded sp => extensions_added sp st
  end.

(** The events one after the other, with all the effects in order. *)
Fixpoint run (evs : list event) (st : state) : state * list effect :=
  match evs with
  | [] => (st, [])
  | ev :: rest =>
      let r := handle ev st in
      let r' := run rest r.1 in
      (r'.1, r.2 ++ r'.2)
  end.

(** The messages passed to the canvas, in order. *)
Definition delivered (effects : list effect) : list message :=
  omap (λ eff, match eff with ECallMessage m => Some m | _ => None end)
    effects.

Lemma run_app evs1 evs2 st :
  run (evs1 ++ evs2) st
  = ((run evs2 (run evs1 st).1).1, (run evs1 st).2 ++ (run evs2 (run evs1 st).1).2).
Proof.
  revert st. induction evs1 as [|ev evs1 IH]; intros st.
  - simpl. by destruct (run evs2 st).
  - simpl. rewrite IH. simpl. by rewrite app_assoc.
Qed.

Lemma run_messages_queued ms q :
  run (Message <$> ms) {| extensionsAdded := false; messageQueue := q |}
  = ({| extensionsAdded := false; messageQueue := q ++ ms |}, []).
Proof.
  revert q. induction ms as [|m ms IH]; intros q.
  - simpl. by rewrite app_nil_r.
  - rewrite fmap_cons. cbn [run handle]. unfold messageListener.
    cbn [extensionsAdded negb fst snd messageQueue].
    rewrite IH. cbn [fst snd app]. by rewrite <- app_assoc.
Qed.

Lemma run_messages_passed ms q :
  run (Message <$> ms) {| extensionsAdded := true; messageQueue := q |}
  = ({| extensionsAdded := true; messageQueue := q |}, ECallMessage <$> ms).
Proof.
  induction ms as [|m ms IH]; [done|].
  rewrite fmap_cons. cbn [run handle]. unfold messageListener.
  cbn [extensionsAdded negb fst snd]. by rewrite IH.
Qed.

Lemma delivered_app l1 l2 : delivered (l1 ++ l2) = delivered l1 ++ delivered l2.
Proof. apply omap_app. Qed.

Lemma delivered_messages ms : delivered (ECallMessage <$> ms) = ms.
Proof. induction ms as [|m ms IH]; simpl; [done|]. by f_equal. Qed.

Lemma delivered_extensions_added sp st :
  delivered (extensions_added sp st).2 = messageQueue st.
Proof.
  unfold extensions_added. cbn [snd].
  rewrite !delivered_app, delivered_messages.
  destruct sp as [| | | |s|]; try done.
  simpl. by destruct (String.eqb s "ignore").
Qed.

Lemma run_cons ev rest st :
  run (ev :: rest) st
  = ((run rest (handle ev st).1).1,
     (handle ev st).2 ++ (run rest (handle ev st).1).2).
Proof. reflexivity. Qed.

Lemma delivered_before_added before sp rest q :
  delivered
    (run ((Message <$> before) ++ ExtensionsAdded sp :: rest)
       {| extensionsAdded := false; messageQueue := q |}).2
  = (q ++ before)
      ++ delivered
           (run rest
              {| extensionsAdded := true; messageQueue := q ++ before |}).2.
Proof.
  rewrite run_app, run_messages_queued. cbn [fst snd app].
  rewrite run_cons. cbn [snd handle].
  by rewrite delivered_app, delivered_extensions_added.
Qed.

(** X15. Messages that arrive before the [extensions_added] event are kept
    back and nothing is passed to the canvas; when the event comes they are
    passed on in the order of arrival, and every later message is passed on
    at once: with one [extensions_added] event every message reaches the
    canvas exactly once, in order. The queue is never emptied: a second
    [extensions_added] event passes the kept messages once more. *)
Theorem messages_reach_canvas_once_in_order
    (before after : list message) (sp sp' : jsval) :
  delivered (run (Message <$> before) initial).2 = []
  ∧ delivered
      (run ((Message <$> before) ++ [ExtensionsAdded sp]
              ++ (Message <$> after)) initial).2
    = before ++ after
  ∧ delivered
      (run ((Message <$> before) ++ [ExtensionsAdded sp]
              ++ (Message <$> after) ++ [ExtensionsAdded sp']) initial).2
    = before ++ after ++ before.
Proof.
  unfold initial. split; [|split].
  - by rewrite run_messages_queued.
  - cbn [app]. rewrite delivered_before_added, run_messages_passed.
    cbn [snd app]. by rewrite delivered_messages.
  - cbn [app]. rewrite delivered_before_added, run_app, run_messages_passed.
    cbn [fst snd app]. rewrite delivered_app, delivered_messages.
    rewrite run_cons. cbn [handle run snd]. rewrite app_nil_r.
    by rewrite delivered_extensions_added.
Qed.

End WithMessages.

End Messages.

(** ** [editor.ready], [editor.runCallbacks] and the loading functions *)

Module Loading.
Import JS LoadSvg.

(** How a call of a callback ends: it returns a value that is no promise,
    it throws, or it returns a promise that is fulfilled or rejected
    later. *)
Inductive completion :=
| ReturnsSync
| ThrowsSync (msg : string)
| Resolves
| Rejects (msg : string).

(** A settled promise; [reject()] gives no reason. *)
Inductive promise_state :=
| Fulfilled
| Rejected (reason : option string).

Section Ready.
(** The callbacks, the effects they have, and what a call of each does. *)
Variable cb : Type.
Variable eff : Type.
Variable behaviour : cb → list eff * completion.

(** [isReady] and the queue [callbacks]; the entry of index [i] stands for
    [[cb, resolve, reject]] of the [i]-th queued call of [ready]. *)
Record state := {
  isReady : bool;
  callbacks : list cb
}.

Definition initial : state := {| isReady := false; callbacks := [] |}.

(** [new Promise((resolve) => resolve(cb()))]: the promise follows what
    [cb()] returns, and is rejected with what it throws. *)
Definition settle (c : completion) : promise_state :=
  match c with
  | ReturnsSync | Resolves => Fulfilled
  | ThrowsSync msg | Rejects msg => Rejected (Some msg)
  end.

(** [editor.ready(cb)]: the new state, the effects of the call, and the
    state of the returned promise when the call settles it ([None]: the
    promise is left pending, in the queue). *)
Definition ready (c : cb) (st : state)
  : state * list eff * option promise_state :=
  if isReady st
  then (st, (behaviour c).1, Some (settle (behaviour c).2))
  else ({| isReady := isReady st; callbacks := callbacks st ++ [c] |},
        [], None).

(** [callbacks.map(([cb]) => cb())]: the callbacks are called in order; a
    throw ends the [map]. *)
Fixpoint map_call (cs : list cb) : list eff * option (list completion) :=
  match cs with
  | [] => ([], Some [])
  | c :: rest =>
      match (behaviour c).2 with
      | ThrowsSync _ => ((behaviour c).1, None)
      | r =>
          ((behaviour c).1 ++ (map_call rest).1,
           cons r <$> (map_call rest).2)
      end
  end.

(** [await Promise.all(...)] succeeds when no promise is rejected. *)
Definition all_fulfilled (rs : list completion) : bool :=
  forallb (λ r, match r with Rejects _ => false | _ => true end) rs.

(** [editor.runCallbacks()], with no call of [ready] while it waits: the new
    state, the effects, the calls of [resolve()] or [reject()] for the
    queued promises in queue order, and whether its own promise is
    fulfilled. *)
Definition runCallbacks (st : state)
  : state * list eff * list promise_state * bool :=
  let r := map_call (callbacks st) in
  let n := length (callbacks st) in
  if match r.2 with Some rs => all_fulfilled rs | None => false end
  then ({| isReady := true; callbacks := callbacks st |}, r.1,
        replicate n Fulfilled, true)
  else (st, r.1, replicate n (Rejected None), false).

(** The callback runs to a good end. *)
Definition succeeds (c : cb) : bool :=
  match (behaviour c).2 with
  | ReturnsSync | Resolves => true
  | ThrowsSync _ | Rejects _ => false
  end.

(** Queueing the callbacks [cs] one after the other. *)
Definition ready_all (cs : list cb) (st : state) : state * list eff :=
  foldl (λ acc c, let r := ready c acc.1 in (r.1.1, acc.2 ++ r.1.2))
    (st, []) cs.

Lemma map_call_succeed cs :
  forallb succeeds cs = true →
  map_call cs = (cs ≫= λ c, (behaviour c).1, Some ((λ c, (behaviour c).2) <$> cs))
  ∧ all_fulfilled ((λ c, (behaviour c).2) <$> cs) = true.
Proof.
  induction cs as [|c cs IH]; [done|].
  cbn [forallb]. intros [Hc Hcs]%andb_true_iff.
  destruct (IH Hcs) as [IH1 IH2].
  unfold succeeds in Hc. cbn [map_call]. rewrite IH1. cbn [fst snd].
  rewrite fmap_cons. unfold all_fulfilled in *. cbn [forallb].
  rewrite IH2. cbn [mbind list_bind].
  destruct (behaviour c).2; done.
Qed.

Lemma map_call_fail cs :
  forallb succeeds cs = false →
  match (map_call cs).2 with
  | Some rs => all_fulfilled rs
  | None => false
  end = false.
Proof.
  induction cs as [|c cs IH]; [done|].
  simpl. intros H. apply andb_false_iff in H.
  unfold succeeds in H.
  destruct (behaviour c).2 eqn:E; cbn [snd]; try done.
  - destruct H as [H|H]; [done|]. specialize (IH H).
    destruct (map_call cs).2; simpl in *; done.
  - destruct H as [H|H]; [done|]. specialize (IH H).
    destruct (map_call cs).2; simpl in *; done.
  - by destruct (map_call cs).2.
Qed.

Lemma ready_all_not_ready cs q :
  ready_all cs {| isReady := false; callbacks := q |}
  = ({| isReady := false; callbacks := q ++ cs |}, []).
Proof.
  unfold ready_all. revert q. induction cs as [|c cs IH]; intros q.
  - simpl. by rewrite app_nil_r.
  - simpl. rewrite IH. by rewrite <- app_assoc.
Qed.

Lemma ready_all_ready cs q acc :
  foldl (λ acc c, let r := ready c acc.1 in (r.1.1, acc.2 ++ r.1.2))
    ({| isReady := true; callbacks := q |}, acc) cs
  = ({| isReady := true; callbacks := q |},
     acc ++ (cs ≫= λ c, (behaviour c).1)).
Proof.
  revert acc. induction cs as [|c cs IH]; intros acc.
  - simpl. by rewrite app_nil_r.
  - simpl. rewrite IH. by rewrite <- app_assoc.
Qed.

(** X16. Callbacks passed to [ready] before [runCallbacks] are only queued:
    nothing runs. If each of them runs to a good end, [runCallbacks] calls
    each once, in the order of the [ready] calls, resolves every queued
    promise and makes the editor ready; from then on [ready] calls its
    callback at once and queues nothing. If one of them throws or returns
    a promise that is rejected, [runCallbacks] fails, calls [reject()] for
    every queued promise (whatever its own callback did), and leaves the
    editor not ready. *)
Theorem ready_callbacks_run_once (queued later : list cb) :
  let st := (ready_all queued initial).1 in
  (ready_all queued initial).2 = []
  ∧ (forallb succeeds queued = true →
     runCallbacks st
     = ({| isReady := true; callbacks := queued |},
        queued ≫= (λ c, (behaviour c).1),
        replicate (length queued) Fulfilled, true)
     ∧ ready_all later (runCallbacks st).1.1.1
       = ({| isReady := true; callbacks := queued |},
          later ≫= (λ c, (behaviour c).1)))
  ∧ (forallb succeeds queued = false →
     (runCallbacks st).1.1.1 = st
     ∧ (runCallbacks st).1.2 = replicate (length queued) (Rejected None)
     ∧ (runCallbacks st).2 = false
     ∧ ready_all later (runCallbacks st).1.1.1
       = ({| isReady := false; callbacks := queued ++ later |}, [])).
Proof.
  cbn zeta. unfold initial. rewrite ready_all_not_ready. cbn [fst snd app].
  split; [done|]. split.
  - intros Hok. destruct (map_call_succeed queued Hok) as [Hm Ha].
    assert (runCallbacks {| isReady := false; callbacks := queued |}
            = ({| isReady := true; callbacks := queued |},
               queued ≫= (λ c, (behaviour c).1),
               replicate (length queued) Fulfilled, true)) as Hrun.
    { unfold runCallbacks. cbn [callbacks]. rewrite Hm. cbn [fst snd].
      by rewrite Ha. }
    split; [done|]. rewrite Hrun. cbn [fst].
    unfold ready_all. by rewrite ready_all_ready.
  - intros Hfail. pose proof (map_call_fail queued Hfail) as Hm.
    unfold runCallbacks. cbn [callbacks]. rewrite Hm. cbn [fst snd].
    repeat split. by rewrite ready_all_not_ready.
Qed.

End Ready.

(** *** [loadFromString] and [loadFromDataURI] *)

(** [s] without the prefix [pre], when it starts with it. *)
Fixpoint strip_prefix (pre s : string) : option string :=
  match pre, s with
  | EmptyString, _ => Some s
  | String a pre', String b s' =>
      if Ascii.eqb a b then strip_prefix pre' s' else None
  | String _ _, EmptyString => None
  end.

(** The two [match] calls of [loadFromDataURI]: whether the string is
    base64, and the string after the matched prefix ([str.slice(pre.length)]).
    [/^data:image\/svg\+xml;base64,/] is tried first, then
    [/^data:image\/svg\+xml(?:;|;utf8)?,/], whose alternatives are tried in
    the order in which they are written, then without the optional group. *)
Definition data_uri_source (str : string) : option (bool * string) :=
  match strip_prefix "data:image/svg+xml;base64," str with
  | Some src => Some (true, src)
  | None =>
      match strip_prefix "data:image/svg+xml;," str with
      | Some src => Some (false, src)
      | None =>
          match strip_prefix "data:image/svg+xml;utf8," str with
          | Some src => Some (false, src)
          | None =>
              match strip_prefix "data:image/svg+xml," str with
              | Some src => Some (false, src)
              | None => None
              end
          end
      end
  end.

Lemma strip_prefix_app pre s : strip_prefix pre (pre +:+ s) = Some s.
Proof.
  induction pre as [|a pre IH]; [done|].
  simpl. by rewrite Ascii.eqb_refl.
Qed.

Lemma data_uri_source_base64 src :
  data_uri_source ("data:image/svg+xml;base64," +:+ src) = Some (true, src).
Proof. unfold data_uri_source. by rewrite strip_prefix_app. Qed.

Section Loads.
Variable setSvgString : string → jsval.
Variable errorLoadingSVG : string.
(** [Utils.decode64] and [decodeURIComponent]; [None] when the call
    throws. *)
Variable decode64 : string → option string.
Variable decodeURIComponent : string → option string.

(** [{noAlert} = {}] *)
Definition noAlert_of (o : option opts) : jsval :=
  match o with Some o => noAlert o | None => JUndefined end.

(** The callback that [loadFromString] passes to [ready]:
    [async () => { try { await loadSvgString(str, {noAlert}) }
                   catch (err) { if (noAlert) throw err } }]. *)
Definition loadFromString_callback (str : string) (o : option opts)
  : list effect * completion :=
  let noAlert := noAlert_of o in
  let r := loadSvgString setSvgString errorLoadingSVG str
             (Some {| noAlert := noAlert |}) in
  (r.1, match r.2 with
        | Returned => Resolves
        | Threw msg => if truthy noAlert then Rejects msg else Resolves
        end).

(** The callback that [loadFromDataURI] passes to [ready]; without a
    matching prefix [pre] is [null] and [pre.length] throws a TypeError. *)
Definition loadFromDataURI_callback (str : string) (o : option opts)
  : list effect * completion :=
  let noAlert := noAlert_of o in
  match data_uri_source str with
  | None => ([], ThrowsSync "TypeError")
  | Some (base64, src) =>
      match (if base64 then decode64 src else decodeURIComponent src) with
      | None => ([], ThrowsSync (if base64 then "decode64" else "URIError"))
      | Some svg =>
          let r := loadSvgString setSvgString errorLoadingSVG svg
                     (Some {| noAlert := noAlert |}) in
          (r.1, match r.2 with
                | Returned => ReturnsSync
                | Threw msg => ThrowsSync msg
                end)
      end
  end.

Inductive load :=
| FromString (str : string) (o : option opts)
| FromDataURI (str : string) (o : option opts).

Definition load_behaviour (l : load) : list effect * completion :=
  match l with
  | FromString str o => loadFromString_callback str o
  | FromDataURI str o => loadFromDataURI_callback str o
  end.

(** [editor.loadFromString(str, opts)] and
    [editor.loadFromDataURI(str, opts)]. *)
Definition loadFromString (str : string) (o : option opts)
    (st : state load)
  : state load * list effect * option promise_state :=
  ready load effect load_behaviour (FromString str o) st.

Definition loadFromDataURI (str : string) (o : option opts)
    (st : state load)
  : state load * list effect * option promise_state :=
  ready load effect load_behaviour (FromDataURI str o) st.

(** X17. [loadFromString] on a ready editor reports a failed load in
    exactly one way. The canvas is asked once; if it accepts, the promise is
    fulfilled and nothing is shown; if it answers [false], then either
    [noAlert] is not set, the alert is shown and the promise is fulfilled
    all the same, or [noAlert] is set, nothing is shown and the promise is
    rejected with the error. *)
Theorem loadFromString_alert_or_rejection (str : string) (o : option opts)
    (st : state load) :
  isReady load st = true →
  loadFromString str o st
  = (st,
     [ESetSvgString str]
       ++ (if strict_neq_false (setSvgString str) then []
           else if truthy (noAlert_of o) then []
                else [EAlert errorLoadingSVG]),
     Some (if strict_neq_false (setSvgString str) then Fulfilled
           else if truthy (noAlert_of o)
                then Rejected (Some "Error loading SVG")
                else Fulfilled)).
Proof.
  intros Hready. unfold loadFromString, ready. rewrite Hready.
  cbn [load_behaviour]. unfold loadFromString_callback, loadSvgString.
  cbn [noAlert].
  destruct (strict_neq_false (setSvgString str)); [done|].
  cbn [fst snd]. by destruct (truthy (noAlert_of o)).
Qed.

Lemma loadFromDataURI_loaded (str : string) (o : option opts)
    (st : state load) base64 src svg :
  isReady load st = true →
  data_uri_source str = Some (base64, src) →
  (if base64 then decode64 src else decodeURIComponent src) = Some svg →
  loadFromDataURI str o st
  = (st,
     [ESetSvgString svg]
       ++ (if strict_neq_false (setSvgString svg) then []
           else if truthy (noAlert_of o) then []
                else [EAlert errorLoadingSVG]),
     Some (if strict_neq_false (setSvgString svg) then Fulfilled
           else Rejected (Some "Error loading SVG"))).
Proof.
  intros Hready Hsrc Hdec. unfold loadFromDataURI, ready. rewrite Hready.
  cbn [load_behaviour]. unfold loadFromDataURI_callback.
  rewrite Hsrc, Hdec. unfold loadSvgString. cbn [noAlert].
  destruct (strict_neq_false (setSvgString svg)); [done|].
  cbn [fst snd]. by destruct (truthy (noAlert_of o)).
Qed.

(** X18. [loadFromDataURI] on a ready editor. A string without one of the
    prefixes [data:image/svg+xml;base64,], [data:image/svg+xml;,],
    [data:image/svg+xml;utf8,] and [data:image/svg+xml,] never reaches the
    canvas: the promise is rejected. With the base64 prefix the canvas
    gets the rest of the string decoded by [decode64], with another prefix
    the rest decoded by [decodeURIComponent]. When the canvas answers
    [false] the promise is rejected whether or not [noAlert] is set; the
    alert is shown as well unless [noAlert] is set. *)
Theorem loadFromDataURI_cases (str : string) (o : option opts)
    (st : state load) :
  isReady load st = true →
  (data_uri_source str = None →
   loadFromDataURI str o st = (st, [], Some (Rejected (Some "TypeError"))))
  ∧ (∀ base64 src svg,
       data_uri_source str = Some (base64, src) →
       (if base64 then decode64 src else decodeURIComponent src) = Some svg →
       loadFromDataURI str o st
       = (st,
          [ESetSvgString svg]
            ++ (if strict_neq_false (setSvgString svg) then []
                else if truthy (noAlert_of o) then []
                     else [EAlert errorLoadingSVG]),
          Some (if strict_neq_false (setSvgString svg) then Fulfilled
                else Rejected (Some "Error loading SVG"))))
  ∧ (∀ src, data_uri_source ("data:image/svg+xml;base64," +:+ src)
            = Some (true, src)).
Proof.
  intros Hready. split; [|split].
  - intros Hnone. unfold loadFromDataURI, ready. rewrite Hready.
    cbn [load_behaviour]. unfold loadFromDataURI_callback. by rewrite Hnone.
  - intros base64 src svg. by apply loadFromDataURI_loaded.
  - apply data_uri_source_base64.
Qed.

End Loads.

(** A canvas that rejects the empty string, and decoders that decode
    nothing. *)
Lemma loadFromString_example :
  loadFromString rejecting_empty "could not load" Some Some "" None
    {| isReady := true; callbacks := [] |}
  = ({| isReady := true; callbacks := [] |},
     [ESetSvgString ""; EAlert "could not load"], Some Fulfilled).
Proof.
  exact (loadFromString_alert_or_rejection rejecting_empty "could not load"
           Some Some "" None {| isReady := true; callbacks := [] |} eq_refl).
Defined.

Lemma loadFromDataURI_example :
  loadFromDataURI rejecting_empty "could not load" Some Some
    "data:image/svg+xml;utf8,<svg/>" None
    {| isReady := true; callbacks := [] |}
  = ({| isReady := true; callbacks := [] |},
     [ESetSvgString "<svg/>"], Some Fulfilled)
  ∧ loadFromDataURI rejecting_empty "could not load" Some Some
      "<svg/>" None {| isReady := true; callbacks := [] |}
    = ({| isReady := true; callbacks := [] |}, [],
       Some (Rejected (Some "TypeError"))).
Proof.
  split.
  - exact (proj1 (proj2 (loadFromDataURI_cases rejecting_empty
                           "could not load" Some Some
                           "data:image/svg+xml;utf8,<svg/>" None
                           {| isReady := true; callbacks := [] |} eq_refl))
             false "<svg/>" "<svg/>" eq_refl eq_refl).
  - exact (proj1 (loadFromDataURI_cases rejecting_empty
                    "could not load" Some Some "<svg/>" None
                    {| isReady := true; callbacks := [] |} eq_refl)
             eq_refl).
Defined.

End Loading.

(** ** The [saved] and [exported] handlers *)

Module Saving.

Definition dq : string := String (Ascii.ascii_of_nat 34) EmptyString.
Definition nl : string := String (Ascii.ascii_of_nat 10) EmptyString.

(** [s.includes(pat)] *)
Fixpoint includes (pat s : string) : bool :=
  match Loading.strip_prefix pat s with
  | Some _ => true
  | None =>
      match s with
      | EmptyString => false
      | String _ s' => includes pat s'
      end
  end.

(** [s.replace(pat, rep)] for a string pattern and a replacement without
    [$]: the first occurrence is replaced. *)
Fixpoint replace_first (pat rep s : string) : string :=
  match Loading.strip_prefix pat s with
  | Some rest => rep +:+ rest
  | None =>
      match s with
      | EmptyString => EmptyString
      | String c s' => String c (replace_first pat rep s')
      end
  end.

Inductive effect :=
| EDownload (href download : string) (* the link is made, appended and clicked *)
| EAlert (msg : string)              (* $.alert(msg) *)
| ESetLocation (href : string)       (* exportWindow.location.href = href *)
| EWindowAlert (msg : string).       (* exportWindow.alert(msg) *)

(** [editor.showSaveWarning] and the two stored preferences; [None] is a
    preference never set. *)
Record state := {
  showSaveWarning : bool;
  save_notice_done : option string;
  export_notice_done : option string
}.

Section Handlers.
(** [isGecko()], [Utils.encode64] and the strings of
    [uiStrings.notification]. *)
Variable isGecko : bool.
Variable encode64 : string → string.
Variable saveFromBrowser defsFailOnSave : string.
Variable popupWindowBlocked noteTheseIssues : string.

(** The XML prolog that is put before the source. *)
Definition prolog : string :=
  "<?xml version=" +:+ dq +:+ "1.0" +:+ dq +:+ "?>" +:+ nl.

Definition save_href (svg : string) : string :=
  "data:image/svg+xml;base64," +:+ encode64 (prolog +:+ svg).

(** [saveHandler(wind, svg)] *)
Definition saveHandler (svg : string) (st : state) : state * list effect :=
  let svg := prolog +:+ svg in
  let download := EDownload ("data:image/svg+xml;base64," +:+ encode64 svg)
                    "icon.svg" in
  let done := save_notice_done st in
  if bool_decide (done ≠ Some "all") then
    let note := replace_first "%s" "SVG" saveFromBrowser in
    let '(note, pref, done) :=
      if isGecko then
        if includes "<defs" svg
        then (note +:+ nl +:+ nl +:+ defsFailOnSave, Some "all", Some "all")
        else (note, Some "part", done)
      else (note, Some "all", done) in
    ({| showSaveWarning := false; save_notice_done := pref;
        export_notice_done := export_notice_done st |},
     download :: (if bool_decide (done ≠ Some "part") then [EAlert note]
                  else []))
  else
    ({| showSaveWarning := false; save_notice_done := save_notice_done st;
        export_notice_done := export_notice_done st |}, [download]).

(** Saving one source after the other. *)
Fixpoint saves (svgs : list string) (st : state) : state * list effect :=
  match svgs with
  | [] => (st, [])
  | svg :: rest =>
      let r := saveHandler svg st in
      let r' := saves rest r.1 in
      (r'.1, r.2 ++ r'.2)
  end.

Definition alerts (effects : list effect) : list string :=
  omap (λ eff, match eff with EAlert m => Some m | _ => None end) effects.

Definition downloads (effects : list effect) : list string :=
  omap (λ eff, match eff with EDownload h _ => Some h | _ => None end)
    effects.

(** How many notices a preference value still allows. *)
Definition notices_left (pref : option string) : nat :=
  if bool_decide (pref = Some "all") then 0
  else if bool_decide (pref = Some "part") then 1 else 2.

Lemma alerts_app l1 l2 : alerts (l1 ++ l2) = alerts l1 ++ alerts l2.
Proof. apply omap_app. Qed.

Lemma downloads_app l1 l2 : downloads (l1 ++ l2) = downloads l1 ++ downloads l2.
Proof. apply omap_app. Qed.

Lemma saveHandler_notices svg st :
  (length (alerts (saveHandler svg st).2)
   + notices_left (save_notice_done (saveHandler svg st).1)
   ≤ notices_left (save_notice_done st))%nat
  ∧ downloads (saveHandler svg st).2 = [save_href svg].
Proof.
  unfold saveHandler, notices_left, save_href.
  destruct (save_notice_done st) as [p|] eqn:Ep.
  - destruct (decide (p = "all")) as [->|Hall].
    + rewrite (bool_decide_false (Some "all" ≠ Some "all")) by (by intros H).
      cbn [fst snd save_notice_done]. simpl. split; [lia|done].
    + rewrite (bool_decide_true (Some p ≠ Some "all")) by congruence.
      rewrite (bool_decide_false (Some p = Some "all")) by congruence.
      destruct isGecko; [destruct (includes "<defs" _)|];
        cbn [fst snd save_notice_done];
        destruct (decide (p = "part")) as [->|Hpart];
        repeat first
          [ rewrite (bool_decide_true (Some _ ≠ Some _)) by congruence
          | rewrite (bool_decide_false (Some _ ≠ Some _)) by (by intros H)
          | rewrite (bool_decide_true (Some _ = Some _)) by done
          | rewrite (bool_decide_false (Some _ = Some _)) by congruence ];
        simpl; split; (lia || done).
  - rewrite (bool_decide_true (None ≠ Some "all")) by done.
    destruct isGecko; [destruct (includes "<defs" _)|];
      cbn [fst snd save_notice_done]; simpl; split; (lia || done).
Qed.

Lemma saves_notices svgs st :
  (length (alerts (saves svgs st).2)
   + notices_left (save_notice_done (saves svgs st).1)
   ≤ notices_left (save_notice_done st))%nat
  ∧ downloads (saves svgs st).2 = save_href <$> svgs.
Proof.
  revert st. induction svgs as [|svg svgs IH]; intros st.
  - simpl. split; [lia|done].
  - cbn [saves]. cbn zeta. cbn [fst snd].
    rewrite alerts_app, downloads_app, length_app.
    destruct (saveHandler_notices svg st) as [H1 H2].
    destruct (IH (saveHandler svg st).1) as [H3 H4].
    rewrite H2, H4. split; [lia|done].
Qed.

Lemma saveHandler_not_gecko svg st :
  isGecko = false →
  save_notice_done (saveHandler svg st).1 = Some "all"
  ∧ (length (alerts (saveHandler svg st).2) ≤ 1)%nat.
Proof.
  intros Hg. unfold saveHandler. rewrite Hg.
  destruct (bool_decide (save_notice_done st ≠ Some "all")) eqn:E.
  - cbn [fst snd save_notice_done]. split; [done|].
    destruct (bool_decide (save_notice_done st ≠ Some "part")); simpl; lia.
  - apply bool_decide_eq_false in E.
    cbn [fst snd save_notice_done]. split; [|simpl; lia].
    destruct (decide (save_notice_done st = Some "all")); done.
Qed.

(** X19. Over any number of saves, whatever the sources and the stored
    preference are: every save downloads the source as a base64 data URI;
    the save notice is shown at most twice, and at most once outside
    Gecko; once the preference is [all] it stays so and no notice is shown
    again. *)
Theorem save_notice_at_most_twice (svgs : list string) (st : state) :
  downloads (saves svgs st).2 = save_href <$> svgs
  ∧ (length (alerts (saves svgs st).2) ≤ 2)%nat
  ∧ (isGecko = false → (length (alerts (saves svgs st).2) ≤ 1)%nat)
  ∧ (save_notice_done st = Some "all" →
     alerts (saves svgs st).2 = []
     ∧ save_notice_done (saves svgs st).1 = Some "all").
Proof.
  destruct (saves_notices svgs st) as [Hn Hd].
  split; [done|]. split; [|split].
  - unfold notices_left in Hn at 2.
    repeat destruct (bool_decide _) in Hn; lia.
  - intros Hg. destruct svgs as [|svg svgs]; [simpl; lia|].
    cbn [saves]. cbn zeta. cbn [snd]. rewrite alerts_app, length_app.
    destruct (saveHandler_not_gecko svg st Hg) as [Hall H1].
    destruct (saves_notices svgs (saveHandler svg st).1) as [Hn' _].
    rewrite Hall in Hn'. unfold notices_left in Hn' at 2.
    rewrite bool_decide_true in Hn' by done. lia.
  - intros Hall. rewrite Hall in Hn. unfold notices_left in Hn.
    rewrite (bool_decide_true (Some "all" = Some "all")) in Hn by done.
    split.
    + apply length_zero_iff_nil. lia.
    + destruct (bool_decide (save_notice_done (saves svgs st).1 = Some "all"))
        eqn:E; [by apply bool_decide_eq_true in E|].
      destruct (bool_decide (_ = Some "part")) in Hn; lia.
Qed.

(** *** [exportHandler] *)

(** What the handler reads of its [data] argument and of the window that
    [window.open] returns: [opened] says that there is a window and that it
    is not closed; [href] is [data.bloburl || data.datauri] and
    [type_note] is [saveFromBrowser.replace('%s', data.type)]. *)
Record export_data := {
  opened : bool;
  href : string;
  type_note : string;
  issues : list string
}.

(** [issues.join(pre)] *)
Fixpoint join (pre : string) (l : list string) : string :=
  match l with
  | [] => ""
  | [x] => x
  | x :: rest => x +:+ pre +:+ join pre rest
  end.

(** The separator, a line feed, a space, a bullet (U+2022 in UTF-8) and a
    space. *)
Definition bullet : string :=
  nl +:+ " "
     +:+ String (Ascii.ascii_of_nat 226)
           (String (Ascii.ascii_of_nat 128)
              (String (Ascii.ascii_of_nat 162) EmptyString))
     +:+ " ".

Definition export_note (data : export_data) : string :=
  type_note data
    +:+ (match issues data with
         | [] => ""
         | _ => nl +:+ nl +:+ noteTheseIssues +:+ bullet
                  +:+ join bullet (issues data)
         end).

Definition exportHandler (data : export_data) (st : state)
  : state * list effect :=
  if negb (opened data) then (st, [EAlert popupWindowBlocked])
  else if bool_decide (export_notice_done st ≠ Some "all") then
    ({| showSaveWarning := showSaveWarning st;
        save_notice_done := save_notice_done st;
        export_notice_done := Some "all" |},
     [ESetLocation (href data); EWindowAlert (export_note data)])
  else (st, [ESetLocation (href data)]).

Fixpoint exports (l : list export_data) (st : state) : state * list effect :=
  match l with
  | [] => (st, [])
  | data :: rest =>
      let r := exportHandler data st in
      let r' := exports rest r.1 in
      (r'.1, r.2 ++ r'.2)
  end.

Definition window_alerts (effects : list effect) : list string :=
  omap (λ eff, match eff with EWindowAlert m => Some m | _ => None end)
    effects.

Lemma exports_done l st :
  export_notice_done st = Some "all" →
  window_alerts (exports l st).2 = []
  ∧ export_notice_done (exports l st).1 = Some "all".
Proof.
  revert st. induction l as [|data l IH]; intros st Hall; [done|].
  cbn [exports]. cbn zeta. cbn [fst snd].
  unfold window_alerts. rewrite omap_app. fold (window_alerts (exports l (exportHandler data st).1).2).
  assert (export_notice_done (exportHandler data st).1 = Some "all"
          ∧ omap (λ eff, match eff with EWindowAlert m => Some m | _ => None end)
              (exportHandler data st).2 = []) as [H1 H2].
  { unfold exportHandler. destruct (opened data); cbn [negb]; [|done].
    rewrite Hall. by rewrite (bool_decide_false (Some "all" ≠ Some "all"))
      by (by intros H). }
  destruct (IH _ H1) as [H3 H4]. by rewrite H2, H3.
Qed.

(** X20. Over any number of exports: when the window could not be opened
    the handler only shows the pop-up warning, and neither the location nor
    the preference is touched; the export notice is shown with the first
    export whose window opens, unless the preference is [all] already, and
    never again. *)
Theorem export_notice_at_most_once (l : list export_data) (st : state) :
  (length (window_alerts (exports l st).2) ≤ 1)%nat
  ∧ (export_notice_done st = Some "all" →
     window_alerts (exports l st).2 = [])
  ∧ (∀ data, opened data = false →
             exportHandler data st = (st, [EAlert popupWindowBlocked]))
  ∧ (∀ data rest, opened data = true →
       export_notice_done st ≠ Some "all" →
       window_alerts (exports (data :: rest) st).2 = [export_note data]).
Proof.
  assert (∀ data rest st, opened data = true →
            export_notice_done st ≠ Some "all" →
            window_alerts (exports (data :: rest) st).2 = [export_note data])
    as Hfirst.
  { intros data rest st' Ho Hne. cbn [exports]. cbn zeta. cbn [snd].
    unfold window_alerts. rewrite omap_app.
    fold (window_alerts (exports rest (exportHandler data st').1).2).
    unfold exportHandler. rewrite Ho. cbn [negb].
    rewrite bool_decide_true by done. cbn [fst snd].
    rewrite (proj1 (exports_done rest
                      {| showSaveWarning := showSaveWarning st';
                         save_notice_done := save_notice_done st';
                         export_notice_done := Some "all" |} eq_refl)).
    done. }
  split; [|split; [|split]].
  - revert st. induction l as [|data l IH]; intros st; [simpl; lia|].
    destruct (opened data) eqn:Ho.
    + destruct (decide (export_notice_done st = Some "all")) as [Hall|Hne].
      * rewrite (proj1 (exports_done (data :: l) st Hall)). simpl. lia.
      * rewrite (Hfirst data l st Ho Hne). simpl. lia.
    + cbn [exports]. cbn zeta. cbn [snd]. unfold exportHandler at 1 2.
      rewrite Ho. cbn [negb fst snd app]. apply IH.
  - intros Hall. apply (exports_done l st Hall).
  - intros data Ho. unfold exportHandler. by rewrite Ho.
  - intros data rest. apply Hfirst.
Qed.

End Handlers.

End Saving.

(** ** What was saved can be loaded *)

Module SaveLoad.
Import JS LoadSvg Loading Saving.

(** X21. The data URI that [saveHandler] makes for the download is one that
    [loadFromDataURI] takes as base64: when [decode64] undoes [encode64],
    loading it on a ready editor passes the saved source, with the XML
    prolog before it, to the canvas. *)
Theorem saved_data_uri_loads_back
    (isGecko : bool) (encode64 : string → string)
    (saveFromBrowser defsFailOnSave : string)
    (setSvgString : string → jsval) (errorLoadingSVG : string)
    (decode64 decodeURIComponent : string → option string)
    (svg : string) (st : Saving.state) (o : option opts)
    (editor : Loading.state load) :
  (∀ s, decode64 (encode64 s) = Some s) →
  isReady load editor = true →
  let saved := prolog +:+ svg in
  downloads (saveHandler isGecko encode64 saveFromBrowser defsFailOnSave
               svg st).2
  = [save_href encode64 svg]
  ∧ loadFromDataURI setSvgString errorLoadingSVG decode64 decodeURIComponent
      (save_href encode64 svg) o editor
    = (editor,
       [ESetSvgString saved]
         ++ (if strict_neq_false (setSvgString saved) then []
             else if truthy (noAlert_of o) then []
                  else [LoadSvg.EAlert errorLoadingSVG]),
       Some (if strict_neq_false (setSvgString saved) then Fulfilled
             else Rejected (Some "Error loading SVG"))).
Proof.
  intros Hdec Hready saved. split.
  - apply saveHandler_notices.
  - apply (loadFromDataURI_loaded _ _ _ _ _ _ _ true
             (encode64 (prolog +:+ svg))); [done| |apply Hdec].
    apply data_uri_source_base64.
Qed.

(** With the identity as encoding. *)
Lemma saved_data_uri_example :
  let saved := prolog +:+ "<svg/>" in
  downloads (saveHandler false id "Save %s" "defs"
               "<svg/>"
               {| showSaveWarning := true; save_notice_done := None;
                  export_notice_done := None |}).2
  = [save_href id "<svg/>"]
  ∧ loadFromDataURI rejecting_empty "could not load" Some Some
      (save_href id "<svg/>") None
      {| isReady := true; callbacks := [] |}
    = ({| isReady := true; callbacks := [] |},
       [ESetSvgString saved], Some Fulfilled).
Proof.
  exact (saved_data_uri_loads_back false id "Save %s" "defs"
           rejecting_empty "could not load" Some Some "<svg/>"
           {| showSaveWarning := true; save_notice_done := None;
              export_notice_done := None |}
           None {| isReady := true; callbacks := [] |}
           (λ s, eq_refl) eq_refl).
Defined.

End SaveLoad.

(** ** Tool clicks on the page model *)

Module ToolClick.
Import LeftPanel.

Lemma getElementById_from_fmap_unpress k pg id :
  getElementById_from k (unpress_one <$> pg) id = getElementById_from k pg id.
Proof.
  revert k. induction pg as [|e pg IH]; intros k; [done|].
  cbn [fmap list_fmap getElementById_from].
  replace (el_id (unpress_one e)) with (el_id e)
    by (unfold unpress_one; by destruct (in_tools_left e && pressed e)).
  by rewrite IH.
Qed.

(** Unpressing the buttons changes no id. *)
Lemma getElementById_unpress pg id :
  getElementById (unpress tools_left_pressed pg) id = getElementById pg id.
Proof.
  unfold getElementById. rewrite unpress_tools_left.
  by rewrite getElementById_from_fmap_unpress.
Qed.

Lemma unpress_one_not_pressed e :
  in_tools_left (unpress_one e) = true → pressed (unpress_one e) = false.
Proof.
  unfold unpress_one.
  destruct (in_tools_left e) eqn:E1, (pressed e) eqn:E2; simpl; congruence.
Qed.

(** X22. A tool click handler [if (updateLeftPanel(id)) { ...; setMode(m) }]
    on a page. When the page has an element with the id, the handler
    completes, the mode is [m], that element is pressed and no other
    element under [#tools_left] is, and the elements outside [#tools_left]
    other than it are as before. When the page has no element with the id,
    the handler ends in a TypeError after the pressed buttons were reset:
    the mode and the cursor are as before, but no element under
    [#tools_left] is pressed any more. *)
Theorem click_tool_presses_one_button (id m : string) (c : option string)
    (st : state) :
  let r := click_tool getElementById tools_left_pressed id m c st in
  (∀ i, getElementById (st_page st) id = Some i →
        r.2 = true ∧ mode r.1 = m ∧ cursor r.1 = default (cursor st) c
        ∧ (∃ e, st_page r.1 !! i = Some e ∧ el_id e = id ∧ pressed e = true)
        ∧ (∀ j e, st_page r.1 !! j = Some e → in_tools_left e = true →
                  pressed e = true → j = i)
        ∧ (∀ j e, st_page st !! j = Some e → in_tools_left e = false →
                  j ≠ i → st_page r.1 !! j = Some e))
  ∧ (getElementById (st_page st) id = None →
     r.2 = false ∧ mode r.1 = mode st ∧ cursor r.1 = cursor st
     ∧ (∀ j e, st_page r.1 !! j = Some e → in_tools_left e = true →
               pressed e = false)).
Proof.
  cbn zeta. split.
  - intros i Hi. rewrite <- getElementById_unpress in Hi.
    pose proof (updateLeftPanel_id_found (st_page st) id i Hi) as H.
    cbn zeta in H. destruct H as (Hret & Hpressed & Honly & Hother).
    unfold click_tool.
    destruct (updateLeftPanel getElementById tools_left_pressed
                (st_page st) (ById id)) as [pg res] eqn:E.
    cbn [fst snd] in *. subst res. cbn [fst snd st_page mode cursor].
    done.
  - intros Hnone. unfold click_tool, updateLeftPanel.
    cbn [button_disabled id_string].
    rewrite getElementById_unpress, Hnone. cbn [fst snd st_page mode cursor].
    split; [done|]. split; [done|]. split; [done|].
    intros j e Hj Hl. rewrite unpress_tools_left, list_lookup_fmap in Hj.
    destruct (st_page st !! j) as [e0|]; [|done].
    injection Hj as <-. by apply unpress_one_not_pressed.
Qed.

End ToolClick.

(** ** The warning about unsaved changes *)

Module SaveWarning.
Import JS Saving.

Inductive unload_result :=
| ReturnsTrue
| Warns (msg : string).      (* e.returnValue = msg; return msg *)

Section Warning.
Variable isGecko : bool.
Variable encode64 : string → string.
Variable saveFromBrowser defsFailOnSave : string.
(** [uiStrings.notification.unsavedChanges] *)
Variable unsavedChanges : string.

(** What [elementChanged] does to the editor state looked at here: the
    assignment [editor.showSaveWarning = true]. *)
Definition elementChanged (st : state) : state :=
  {| showSaveWarning := true; save_notice_done := save_notice_done st;
     export_notice_done := export_notice_done st |}.

(** The [beforeunload] listener; [no_save_warning] is
    [configObj.curConfig.no_save_warning] and [undoStackSize] is
    [undoMgr.getUndoStackSize()]. *)
Definition beforeunload (no_save_warning : jsval) (undoStackSize : nat)
    (st : state) : state * unload_result :=
  let st :=
    if (undoStackSize =? 0)%nat
    then {| showSaveWarning := false;
            save_notice_done := save_notice_done st;
            export_notice_done := export_notice_done st |}
    else st in
  if negb (truthy no_save_warning) && showSaveWarning st
  then (st, Warns unsavedChanges)
  else (st, ReturnsTrue).

Inductive event :=
| Changed                    (* the canvas event [changed] *)
| Saved (svg : string).      (* the canvas event [saved] *)

Definition handle (ev : event) (st : state) : state :=
  match ev with
  | Changed => elementChanged st
  | Saved svg =>
      (saveHandler isGecko encode64 saveFromBrowser defsFailOnSave svg st).1
  end.

Definition run (evs : list event) (st : state) : state :=
  foldl (λ st ev, handle ev st) st evs.

(** There are changes that were not saved: the last event was a change
    (or, without events, the flag was set). *)
Definition unsaved (evs : list event) (st : state) : bool :=
  match last evs with
  | Some Changed => true
  | Some (Saved _) => false
  | None => showSaveWarning st
  end.

Lemma saveHandler_showSaveWarning svg st :
  showSaveWarning
    (saveHandler isGecko encode64 saveFromBrowser defsFailOnSave svg st).1
  = false.
Proof.
  unfold saveHandler.
  destruct (bool_decide (save_notice_done st ≠ Some "all")); [|done].
  destruct isGecko; [destruct (includes "<defs" _)|]; done.
Qed.

Lemma run_showSaveWarning evs st :
  showSaveWarning (run evs st) = unsaved evs st.
Proof.
  unfold run, unsaved.
  induction evs as [|ev evs IH] using rev_ind; [done|].
  rewrite foldl_app, last_snoc. cbn [foldl].
  destruct ev as [|svg]; [done|]. apply saveHandler_showSaveWarning.
Qed.

(** X23. After any sequence of changes and saves, leaving the page brings
    the warning about unsaved changes exactly when [no_save_warning] is not
    configured, the undo stack is not empty, and the last of these events
    was a change: after a save there is no warning until something
    changes. *)
Theorem unload_warns_iff_changed_after_last_save
    (no_save_warning : jsval) (undoStackSize : nat) (evs : list event)
    (st : state) :
  (beforeunload no_save_warning undoStackSize (run evs st)).2
  = if negb (truthy no_save_warning) && negb (undoStackSize =? 0)%nat
       && unsaved evs st
    then Warns unsavedChanges
    else ReturnsTrue.
Proof.
  unfold beforeunload. rewrite <- run_showSaveWarning.
  destruct (undoStackSize =? 0)%nat; cbn [showSaveWarning negb].
  - by rewrite !andb_false_r.
  - rewrite andb_true_r.
    by destruct (negb (truthy no_save_warning) && showSaveWarning (run evs st)).
Qed.

End Warning.

End SaveWarning.

(** ** The source editor *)

Module SourceEditor.
Import JS.

Inductive effect :=
| EToggle (selector : string) (shown : bool) (* $(selector).toggle(shown) *)
| ESetTextarea (value : string)      (* $('#svg_source_textarea').val(value) *)
| EFadeIn                            (* $('#svg_source_editor').fadeIn() *)
| EFocus                             (* $('#svg_source_textarea').focus() *)
| EHideEditor                        (* $('#svg_source_editor').hide() *)
| EBlur                              (* $('#svg_source_textarea').blur() *)
| EHideDialogBox                     (* $('#dialog_box').hide() *)
| ELeaveContext                      (* svgCanvas.leaveContext() *)
| EConfirm (msg : string)            (* $.confirm(msg) *)
| ESetSvgString (str : string)       (* svgCanvas.setSvgString(str) *)
| EClearSelection                    (* svgCanvas.clearSelection() *)
| EZoomImage                         (* zoomImage() *)
| EPopulateLayers                    (* layersPanel.populateLayers() *)
| EUpdateTitle                       (* updateTitle() *)
| EPrepPaints                        (* prepPaints() *)
| EClickSelect.                      (* clickSelect() *)

(** The variables [editingsource], [origSource], [docprops],
    [preferences] and (as a truth value) [curContext], and the value of the
    text area of the source editor (the text area gives back the value that
    it was given). *)
Record state := {
  editingsource : bool;
  origSource : string;
  docprops : bool;
  preferences : bool;
  curContext : bool;
  textarea : string
}.



Section WithCanvas.
(** What [svgCanvas.setSvgString] answers, and the two questions. *)
Variable setSvgString : string → jsval.
Variable QerrorsRevertToSource QignoreSourceChanges : string.









End WithCanvas.

End SourceEditor.

(** ** Tool tips with their shortcut keys ([setTitles]) *)

Module Titles.
Import Shortcuts.

(** [s.split(sep)[0]] for a non-empty separator: the part of [s] before the
    first occurrence of [sep], or all of [s]. *)
Fixpoint first_piece (sep s : string) : string :=
  match Loading.strip_prefix sep s with
  | Some _ => ""
  | None =>
      match s with
      | EmptyString => ""
      | String c s' => String c (first_piece sep s')
      end
  end.

(** An element that a selector of [keyAssocs] matches: its [title] and the
    text contents of its child nodes. *)
Record element := {
  title : string;
  child_texts : list string
}.

(** [$(this).text()] *)
Definition text (el : element) : string :=
  foldr String.append "" (child_texts el).

(** [this.lastChild.textContent = value]; the element must have a child. *)
Definition set_last_text (value : string) (el : element) : option element :=
  match child_texts el with
  | [] => None
  | l => Some {| title := title el;
                 child_texts := removelast l ++ [value] |}
  end.

Section WithStrings.
(** The string entries of [uiStrings]. *)
Variable uiStrings : string → option string.

(** [uiStrings['key_' + key] || key] *)
Definition key_label (key : string) : string :=
  match uiStrings ("key_" +:+ key) with
  | Some s => if String.eqb s "" then key else s
  | None => key
  end.

(** One alternative: [mod + (uiStrings['key_' + key] || key)] after the
    split on [+]. *)
Definition alternative_label (key : string) : string :=
  match split_on "+" key with
  | m :: k :: _ => m +:+ "+" +:+ key_label k
  | _ => key_label key
  end.

(** [keyStr] after the loop over [keyval.split('/')]. *)
Definition keyStr (keyval : string) : string :=
  (foldl (λ acc key,
            (S acc.1,
             acc.2 +:+ (match acc.1 with O => "" | S _ => "/" end)
                   +:+ alternative_label key))
     (0%nat, "") (split_on "/" keyval)).2.

(** The function that [$(sel).each] calls for an element; [menu] says that
    the element is inside [#main_menu]. [None]: a TypeError, the element
    has no last child. *)
Definition set_title (menu : bool) (keyval : string) (el : element)
  : option element :=
  let t := if menu then first_piece " [" (text el)
           else first_piece " [" (title el) in
  let value := t +:+ " [" +:+ keyStr keyval +:+ "]" in
  if menu then set_last_text value el
  else Some {| title := value; child_texts := child_texts el |}.

End WithStrings.

(** The part before the first [ [] is found again when a bracket part is
    put after it. *)
Lemma first_piece_bracket s x :
  first_piece " [" (first_piece " [" s +:+ " [" +:+ x) = first_piece " [" s.
Proof.
  induction s as [|c s IH].
  - done.
  - cbn [first_piece].
    destruct (Loading.strip_prefix " [" (String c s)) eqn:E; [done|].
    change (String c (first_piece " [" s) +:+ " [" +:+ x)
      with (String c (first_piece " [" s +:+ " [" +:+ x)).
    cbn [first_piece].
    assert (Loading.strip_prefix " ["
              (String c (first_piece " [" s +:+ " [" +:+ x)) = None) as ->.
    { cbn [Loading.strip_prefix] in E |- *.
      destruct (Ascii.eqb " "%char c); [|done].
      destruct s as [|c' s]; [done|].
      cbn [first_piece]. cbn [Loading.strip_prefix] in E.
      destruct (Ascii.eqb "["%char c') eqn:Ec; [done|].
      destruct (Loading.strip_prefix " [" (String c' s)).
      - change ("" +:+ " [" +:+ x) with (String " "%char (String "["%char x)).
        cbn [Loading.strip_prefix]. 
        by destruct (Ascii.eqb_spec "["%char " "%char).
      - change (String c' ?a +:+ ?b) with (String c' (a +:+ b)).
        cbn [Loading.strip_prefix]. by rewrite Ec. }
    by rewrite IH.
Qed.

Lemma removelast_snoc {A} (l : list A) x : removelast (l ++ [x]) = l.
Proof.
  induction l as [|a l IH]; [done|].
  simpl. rewrite IH. by destruct l.
Qed.

(** X25. Setting the titles again, also with other strings or another key
    list (as after a change of language), does not pile up the bracket
    parts: for an element outside the main menu, and for a menu element
    with a single child node, the result is the same as setting the title
    once on the element as it was. *)
Theorem set_title_again
    (uiStrings uiStrings' : string → option string)
    (keyval keyval' : string) (el : element) :
  (∀ el1, set_title uiStrings false keyval el = Some el1 →
          set_title uiStrings' false keyval' el1
          = set_title uiStrings' false keyval' el)
  ∧ (∀ el1, length (child_texts el) = 1%nat →
            set_title uiStrings true keyval el = Some el1 →
            set_title uiStrings' true keyval' el1
            = set_title uiStrings' true keyval' el).
Proof.
  split.
  - intros el1 [= <-]. unfold set_title. cbn [title child_texts].
    by rewrite first_piece_bracket.
  - intros el1 Hlen. unfold set_title, set_last_text, text.
    destruct (child_texts el) as [|c [|c' l]] eqn:E; try done.
    intros [= <-]. cbn [child_texts title removelast app fold_right].
    assert (∀ s, s +:+ "" = s) as Hnil.
    { induction s as [|a s IH]; [done|].
      change (String a s +:+ "") with (String a (s +:+ "")). by rewrite IH. }
    rewrite !Hnil. by rewrite first_piece_bracket.
Qed.

End Titles.

(** ** The selection and the commands that act on it *)

Module Selection.
#[local] Set Warnings "-inexact-float".

Section WithElements.
Variable element : Type.

(** [selectedElement] (a nullish value is [None]) and [multiselected]. *)
Record state := {
  selectedElement : option element;
  multiselected : bool
}.

(** [elems[i]]: an entry of the array may be null, and beyond its end the
    array gives undefined. *)
Definition entry (elems : list (option element)) (i : nat) : option element :=
  mjoin (elems !! i).

(** [!Utils.isNullish(x)] *)
Definition present (x : option element) : bool :=
  match x with Some _ => true | None => false end.

(** What [togglePathEditMode(editmode, elems)] does to the two variables:
    in edit mode [multiselected = false] and, if [elems.length] is not
    zero, [selectedElement = elems[0]]. *)
Definition togglePathEditMode (editmode : bool)
    (elems : list (option element)) (st : state) : state :=
  if editmode then
    {| selectedElement :=
         if negb (length elems =? 0)%nat then entry elems 0
         else selectedElement st;
       multiselected := false |}
  else st.

(** What [selectedChanged] leaves in the two variables; [mode] is
    [svgCanvas.getMode()]. The two assignments come first, then
    [togglePathEditMode(isNode, elems)]. *)
Definition selectedChanged (mode : string) (elems : list (option element))
  : state :=
  let isNode := String.eqb mode "pathedit" in
  let assigned :=
    {| selectedElement :=
         if (length elems =? 1)%nat || negb (present (entry elems 1))
         then entry elems 0 else None;
       multiselected :=
         (2 <=? length elems)%nat && present (entry elems 1) |} in
  togglePathEditMode isNode elems assigned.

Inductive call :=
| CDeleteSelectedElements
| CCutSelectedElements
| CCopySelectedElements
| CMoveSelectedElements (dx dy : float)
| CMoveToTopSelectedElement
| CMoveToBottomSelectedElement
| CMoveUpDownSelected (dir : string)
| CConvertToPath
| CSetRotationAngle (angle : float)
| CUpdateContextPanel.

(** [!Utils.isNullish(selectedElement) || multiselected] *)
Definition some_selected (st : state) : bool :=
  present (selectedElement st) || multiselected st.

Definition deleteSelected (st : state) : list call :=
  if some_selected st then [CDeleteSelectedElements] else [].

Definition cutSelected (st : state) : list call :=
  if some_selected st then [CCutSelectedElements] else [].

Definition copySelected (st : state) : list call :=
  if some_selected st then [CCopySelectedElements] else [].

(** [moveSelected(dx, dy)]; [gridSnapping] is the configured flag as a
    truth value, [zoom] is [svgCanvas.getZoom()]. The numbers are doubles
    and the products are rounded as in the source. *)
Definition moveSelected (gridSnapping : bool) (zoom snappingStep : float)
    (dx dy : float) (st : state) : list call :=
  if some_selected st then
    if gridSnapping
    then let multi := (zoom * snappingStep)%float in
         [CMoveSelectedElements (dx * multi)%float (dy * multi)%float]
    else [CMoveSelectedElements dx dy]
  else [].

Definition moveToTopSelected (st : state) : list call :=
  if present (selectedElement st) then [CMoveToTopSelectedElement] else [].

Definition moveToBottomSelected (st : state) : list call :=
  if present (selectedElement st) then [CMoveToBottomSelectedElement] else [].

Definition moveUpDownSelected (dir : string) (st : state) : list call :=
  if present (selectedElement st) then [CMoveUpDownSelected dir] else [].

Definition convertToPath (st : state) : list call :=
  if present (selectedElement st) then [CConvertToPath] else [].

(** [rotateSelected(cw, step)]; [angle] is the number in the angle
    field. *)
Definition rotateSelected (angle : float) (cw : bool) (step : float)
    (st : state) : list call :=
  if negb (present (selectedElement st)) || multiselected st then []
  else
    let step := if negb cw then (step * -1)%float else step in
    [CSetRotationAngle (angle + step)%float; CUpdateContextPanel].

Lemma entry_1_length (elems : list (option element)) :
  entry elems 1 ≠ None →
  (2 <=? length elems)%nat = true ∧ (length elems =? 1)%nat = false
  ∧ (length elems =? 0)%nat = false.
Proof.
  unfold entry. intros H.
  destruct (elems !! 1%nat) as [x|] eqn:E; [|done].
  apply lookup_lt_Some in E.
  split; [apply Nat.leb_le; lia|split; apply Nat.eqb_neq; lia].
Qed.

Lemma entry_0_length (elems : list (option element)) :
  (length elems =? 0)%nat = true → entry elems 0 = None.
Proof.
  intros H%Nat.eqb_eq. by destruct elems.
Qed.

(** X27. After [selectedChanged(elems)] the two variables never say both
    that one element and that several elements are selected. In a mode
    other than 'pathedit', the commands for one or more elements (delete,
    cut, copy, move) call the canvas exactly when one of the first two
    entries of [elems] is an element, and the commands for a single
    element (to top, to bottom, up and down, convert to path, rotate)
    exactly when the first entry is an element and the second is not. In
    mode 'pathedit', where [togglePathEditMode] clears [multiselected] and
    selects [elems[0]], all of them call the canvas exactly when the first
    entry is an element. With grid snapping, a move is scaled by the zoom
    times the snapping step. *)
Theorem commands_follow_selection (mode : string)
    (elems : list (option element))
    (gridSnapping cw : bool) (zoom snappingStep dx dy angle step : float)
    (dir : string) :
  let st := selectedChanged mode elems in
  let pathedit := String.eqb mode "pathedit" in
  let any := if pathedit then present (entry elems 0)
             else present (entry elems 0) || present (entry elems 1) in
  let single := if pathedit then present (entry elems 0)
                else present (entry elems 0)
                     && negb (present (entry elems 1)) in
  (present (selectedElement st) && multiselected st = false)
  ∧ (pathedit = true →
       selectedElement st = entry elems 0 ∧ multiselected st = false)
  ∧ (pathedit = false →
       selectedElement st
       = (if present (entry elems 1) then None else entry elems 0)
       ∧ multiselected st = present (entry elems 1))
  ∧ deleteSelected st = (if any then [CDeleteSelectedElements] else [])
  ∧ cutSelected st = (if any then [CCutSelectedElements] else [])
  ∧ copySelected st = (if any then [CCopySelectedElements] else [])
  ∧ moveSelected gridSnapping zoom snappingStep dx dy st
    = (if any
       then [if gridSnapping
             then CMoveSelectedElements
                    (PrimFloat.mul dx (PrimFloat.mul zoom snappingStep))
                    (PrimFloat.mul dy (PrimFloat.mul zoom snappingStep))
             else CMoveSelectedElements dx dy]
       else [])
  ∧ moveToTopSelected st
    = (if single then [CMoveToTopSelectedElement] else [])
  ∧ moveToBottomSelected st
    = (if single then [CMoveToBottomSelectedElement] else [])
  ∧ moveUpDownSelected dir st
    = (if single then [CMoveUpDownSelected dir] else [])
  ∧ convertToPath st = (if single then [CConvertToPath] else [])
  ∧ rotateSelected angle cw step st
    = (if single
       then [CSetRotationAngle
               (PrimFloat.add angle
                  (if cw then step else PrimFloat.mul step (-1)%float));
             CUpdateContextPanel]
       else []).
Proof.
  cbn zeta.
  pose proof (entry_1_length elems) as Hlen.
  pose proof (entry_0_length elems) as Hzero.
  unfold deleteSelected, cutSelected, copySelected, moveSelected,
    moveToTopSelected, moveToBottomSelected, moveUpDownSelected,
    convertToPath, rotateSelected, some_selected, selectedChanged,
    togglePathEditMode.
  destruct (String.eqb mode "pathedit"); cbn [selectedElement multiselected].
  - destruct (length elems =? 0)%nat eqn:E0; cbn [negb].
    + rewrite (Hzero eq_refl).
      destruct (entry elems 1) as [e1|] eqn:E1.
      { destruct Hlen as (_ & _ & Hl); [done|]. congruence. }
      cbn [present negb]. rewrite ?orb_true_r.
      cbn [present negb orb andb]. by repeat split.
    + destruct (entry elems 0) as [e0|]; cbn [present negb orb andb].
      * repeat split; try done; [by destruct gridSnapping|by destruct cw].
      * by repeat split.
  - destruct (entry elems 1) as [e1|] eqn:E1.
    + destruct Hlen as (-> & -> & _); [done|].
      cbn [present negb orb andb].
      rewrite ?orb_true_r, ?andb_false_r, ?orb_false_r, ?andb_true_r.
      cbn [present negb orb andb].
      repeat split; try done. by destruct gridSnapping.
    + cbn [present negb].
      rewrite ?orb_true_r, ?andb_false_r, ?orb_false_r, ?andb_true_r.
      destruct (entry elems 0) as [e0|]; cbn [present negb orb andb].
      * repeat split; try done; [by destruct gridSnapping|by destruct cw].
      * by repeat split.
Qed.

End WithElements.

End Selection.

